(** * Local persistence and access control of the notes application

    A shallow embedding of the record store ([loadNotesFromDB],
    [saveNotesToDB], [migrateNotesToIndexedDB], [debouncedSaveNotes],
    [splitLargeContent]) and of the protection manager
    (src/utils/noteProtection.ts), with the properties the specification
    states about them.

    Conventions.  A JavaScript string is a [string] (a sequence of 8-bit
    code units); [localStorage] is a finite map from keys to strings; an
    [async] function is a sequential state-passing function, after the
    single-writer assumption of the specification; console output is not
    part of the state. *)

From Stdlib Require Import ZArith List String Ascii Bool Lia Permutation Sorted
  OrderedTypeEx.
From stdpp Require Import gmap strings.

Import ListNotations.

(** ** JavaScript primitives used by the sources *)

Module JS.

(** A string is truthy when it is not empty. *)
Definition truthy (s : string) : bool :=
  match s with EmptyString => false | String _ _ => true end.

(** Relative index of [String.prototype.slice]: a negative index counts
    from the end, and the result is clamped to [0, len]. *)
Definition rel_index (len i : Z) : Z :=
  if (i <? 0)%Z then Z.max (len + i) 0 else Z.min i len.

(** [s.slice(a, b)] for integer [a] and [b]. *)
Definition slice (s : string) (a b : Z) : string :=
  let len := Z.of_nat (String.length s) in
  let from := rel_index len a in
  let to := rel_index len b in
  String.substring (Z.to_nat from) (Z.to_nat (Z.max (to - from) 0)) s.

(** [ToInt32]: the value modulo 2^32, read as a signed 32-bit integer. *)
Definition toInt32 (z : Z) : Z :=
  let m := (z mod 4294967296)%Z in
  if (m <? 2147483648)%Z then m else (m - 4294967296)%Z.

(** [x << n] on 32-bit integers. *)
Definition shl32 (x n : Z) : Z := toInt32 (Z.shiftl (toInt32 x) n).

(** [x & y] on 32-bit integers. *)
Definition and32 (x y : Z) : Z := toInt32 (Z.land (toInt32 x) (toInt32 y)).

(** [s.charCodeAt(i)] of the character [c] met at index [i]. *)
Definition charCode (c : ascii) : Z := Z.of_N (N_of_ascii c).

(** One digit of radix 36: [0-9a-z]. *)
Definition digit36 (d : N) : ascii :=
  if (d <? 10)%N then ascii_of_N (48 + d) else ascii_of_N (87 + d).

Fixpoint toString36_digits (fuel : nat) (n : N) (acc : string) : string :=
  let acc' := String (digit36 (n mod 36)) acc in
  match fuel with
  | O => acc'
  | S fuel' =>
      if (n / 36 =? 0)%N then acc' else toString36_digits fuel' (n / 36) acc'
  end.

(** [n.toString(36)] for an integer [n]. *)
Definition toString36 (z : Z) : string :=
  let n := Z.to_N (Z.abs z) in
  let digits := toString36_digits (N.size_nat n) n EmptyString in
  if (z <? 0)%Z then String "-" digits else digits.

(** One digit of radix 16: [0-9a-f]. *)
Definition digit16 (d : N) : ascii :=
  if (d <? 10)%N then ascii_of_N (48 + d) else ascii_of_N (87 + d).

(** [byte.toString(16).padStart(2, '0')] *)
Definition hex2 (b : Byte.byte) : string :=
  let n := Byte.to_N b in
  String (digit16 (n / 16)) (String (digit16 (n mod 16)) EmptyString).

(** [Array.from(bytes, hex2).join('')] *)
Fixpoint hexOfBytes (bs : list Byte.byte) : string :=
  match bs with
  | [] => EmptyString
  | b :: bs' => (hex2 b ++ hexOfBytes bs')%string
  end.

(** The double-quote character, for JSON texts. *)
Definition dquote : string := String (ascii_of_nat 34) EmptyString.

End JS.

(** ** Dates: [Date], [toISOString] and [new Date(text)] *)

Module JSDate.

Local Open Scope Z_scope.

(** A [Date] object holds a time value, the milliseconds since the epoch
    with magnitude at most [maxTime], or is an Invalid Date. *)
Inductive Date :=
| Instant (t : Z)
| InvalidDate.

Definition maxTime : Z := 8640000000000000.
Definition msPerDay : Z := 86400000.

Definition valid_time (t : Z) : bool := (- maxTime <=? t) && (t <=? maxTime).

(** Proleptic Gregorian calendar: day number since the epoch to
    (year, month, day), by eras of 400 years starting on 1 March. *)
Definition civil_from_days (z : Z) : Z * Z * Z :=
  let z' := z + 719468 in
  let era := z' / 146097 in
  let doe := z' - era * 146097 in
  let yoe := (doe - doe / 1460 + doe / 36524 - doe / 146096) / 365 in
  let y := yoe + era * 400 in
  let doy := doe - (365 * yoe + yoe / 4 - yoe / 100) in
  let mp := (5 * doy + 2) / 153 in
  let d := doy - (153 * mp + 2) / 5 + 1 in
  let m := if mp <? 10 then mp + 3 else mp - 9 in
  (if m <=? 2 then y + 1 else y, m, d).

(** (year, month, day) to the day number since the epoch. *)
Definition days_from_civil (y m d : Z) : Z :=
  let y' := if m <=? 2 then y - 1 else y in
  let era := y' / 400 in
  let yoe := y' - era * 400 in
  let doy := (153 * (if 2 <? m then m - 3 else m + 9) + 2) / 5 + d - 1 in
  let doe := yoe * 365 + yoe / 4 - yoe / 100 + doy in
  era * 146097 + doe - 719468.

(** The decimal digit of weight one of [n], as a character. *)
Definition dchar (n : Z) : ascii := ascii_of_N (Z.to_N (48 + n mod 10)).

Definition digits2 (n : Z) : list ascii := [dchar (n / 10); dchar n].
Definition digits3 (n : Z) : list ascii := dchar (n / 100) :: digits2 n.
Definition digits4 (n : Z) : list ascii := dchar (n / 1000) :: digits3 n.
Definition digits6 (n : Z) : list ascii :=
  dchar (n / 100000) :: dchar (n / 10000) :: digits4 n.

(** The year of the ISO format: four digits from 0 to 9999, otherwise a
    sign and six digits. *)
Definition year_chars (y : Z) : list ascii :=
  if (0 <=? y) && (y <=? 9999) then digits4 y
  else (if y <? 0 then "-"%char else "+"%char) :: digits6 (Z.abs y).

(** The text [YYYY-MM-DDTHH:mm:ss.sssZ] of a time value. *)
Definition iso_chars (t : Z) : list ascii :=
  let day := t / msPerDay in
  let msInDay := t mod msPerDay in
  let '(y, m, d) := civil_from_days day in
  year_chars y
  ++ "-"%char :: digits2 m
  ++ "-"%char :: digits2 d
  ++ "T"%char :: digits2 (msInDay / 3600000)
  ++ ":"%char :: digits2 (msInDay / 60000 mod 60)
  ++ ":"%char :: digits2 (msInDay / 1000 mod 60)
  ++ "."%char :: digits3 (msInDay mod 1000)
  ++ ["Z"%char].

(** [date.toISOString()]; [None] is the [RangeError] thrown for an
    Invalid Date. *)
Definition toISOString (d : Date) : option string :=
  match d with
  | Instant t =>
      if valid_time t then Some (string_of_list_ascii (iso_chars t)) else None
  | InvalidDate => None
  end.

Definition dval (c : ascii) : option Z :=
  let v := Z.of_N (N_of_ascii c) - 48 in
  if (0 <=? v) && (v <=? 9) then Some v else None.

(** The number written by a sequence of decimal digits. *)
Fixpoint number_from (acc : Z) (cs : list ascii) : option Z :=
  match cs with
  | [] => Some acc
  | c :: cs' =>
      match dval c with
      | Some v => number_from (acc * 10 + v) cs'
      | None => None
      end
  end.

Definition number (cs : list ascii) : option Z := number_from 0 cs.

(** The part after the year: [-MM-DDTHH:mm:ss.sssZ]. *)
Definition parse_after_year (y : Z) (cs : list ascii) : option Z :=
  match cs with
  | [a; m1; m2; b; d1; d2; c; h1; h2; d; mi1; mi2; e; s1; s2; f;
     ms1; ms2; ms3; z] =>
      if Ascii.eqb a "-" && Ascii.eqb b "-" && Ascii.eqb c "T"
         && Ascii.eqb d ":" && Ascii.eqb e ":" && Ascii.eqb f "."
         && Ascii.eqb z "Z"
      then
        match number [m1; m2], number [d1; d2], number [h1; h2],
              number [mi1; mi2], number [s1; s2], number [ms1; ms2; ms3] with
        | Some mo, Some da, Some h, Some mi, Some s, Some ms =>
            Some (days_from_civil y mo da * msPerDay
                  + h * 3600000 + mi * 60000 + s * 1000 + ms)
        | _, _, _, _, _, _ => None
        end
      else None
  | _ => None
  end.

(** The time value a text in the format of [toISOString] denotes. *)
Definition parse_fields (cs : list ascii) : option Z :=
  match cs with
  | sg :: y1 :: y2 :: y3 :: y4 :: y5 :: y6 :: rest =>
      if Ascii.eqb sg "+" || Ascii.eqb sg "-" then
        match number [y1; y2; y3; y4; y5; y6] with
        | Some y => parse_after_year (if Ascii.eqb sg "-" then - y else y) rest
        | None => None
        end
      else
        match number [sg; y1; y2; y3] with
        | Some y => parse_after_year y (y4 :: y5 :: y6 :: rest)
        | None => None
        end
  | _ => None
  end.

(** [new Date(text)] on the texts that [toISOString] writes, the only
    ones the record store keeps: the text must be the ISO text of the time
    value it denotes.  Every other text gives an Invalid Date here. *)
Definition parse (text : string) : Date :=
  match parse_fields (list_ascii_of_string text) with
  | Some t =>
      match toISOString (Instant t) with
      | Some text' => if String.eqb text' text then Instant t else InvalidDate
      | None => InvalidDate
      end
  | None => InvalidDate
  end.

End JSDate.

(** ** Chunking of large contents: [splitLargeContent]

    The chunk size is an integer, as a number of characters is. *)

Module Chunk.

(** The two variables of the loop. *)
Record SplitState := { chunks : list string; start : Z }.

Definition init : SplitState := {| chunks := []; start := 0 |}.

(** [start < content.length] *)
Definition guard (content : string) (st : SplitState) : bool :=
  (start st <? Z.of_nat (String.length content))%Z.

(** [chunks.push(content.slice(start, start + maxChunkSize));
     start += maxChunkSize] *)
Definition body (content : string) (maxChunkSize : Z) (st : SplitState)
  : SplitState :=
  {| chunks := chunks st ++ [JS.slice content (start st) (start st + maxChunkSize)];
     start := start st + maxChunkSize |}.

(** The [while] loop, run for at most [fuel] iterations; [None] when the
    guard still holds after [fuel] iterations. *)
Fixpoint loop (fuel : nat) (content : string) (maxChunkSize : Z)
  (st : SplitState) : option (list string) :=
  if guard content st then
    match fuel with
    | O => None
    | S fuel' => loop fuel' content maxChunkSize (body content maxChunkSize st)
    end
  else Some (chunks st).

(** The state after [n] executions of the body. *)
Fixpoint iterate (n : nat) (content : string) (maxChunkSize : Z)
  (st : SplitState) : SplitState :=
  match n with
  | O => st
  | S n' => iterate n' content maxChunkSize (body content maxChunkSize st)
  end.

(** [splitLargeContent(content, maxChunkSize)] with an iteration bound. *)
Definition splitLargeContent_fuel (fuel : nat) (content : string)
  (maxChunkSize : Z) : option (list string) :=
  loop fuel content maxChunkSize init.

(** [splitLargeContent(content, maxChunkSize)]: as many iterations as the
    content has characters are allowed, which is enough for every positive
    chunk size. *)
Definition splitLargeContent (content : string) (maxChunkSize : Z)
  : option (list string) :=
  splitLargeContent_fuel (String.length content) content maxChunkSize.

(** The default chunk size. *)
Definition default_maxChunkSize : Z := 500000.

(** The termination measure of the loop: [content.length - start]. *)
Definition measure (content : string) (st : SplitState) : Z :=
  Z.of_nat (String.length content) - start st.

(** The shape of a result: all chunks but the last have length [k]; the
    last is not empty and not longer than [k]. *)
Inductive chunked (k : Z) : list string -> Prop :=
| chunked_nil : chunked k []
| chunked_last x :
    (1 <= Z.of_nat (String.length x) <= k)%Z -> chunked k [x]
| chunked_cons x y l :
    Z.of_nat (String.length x) = k -> chunked k (y :: l) ->
    chunked k (x :: y :: l).

End Chunk.

(** ** Protection manager: src/utils/noteProtection.ts *)

Module Protection.

Definition HIDDEN_NOTES_PASSWORD_KEY : string := "npd_hidden_notes_password".
Definition HIDDEN_NOTES_SALT_KEY : string := "npd_hidden_notes_salt".
Definition HIDDEN_NOTES_USE_BIOMETRIC_KEY : string := "npd_hidden_notes_use_biometric".

(** What the platform provides: the Capacitor biometric plugin, the
    localisation function, Web Crypto and the random source.
    - [verifyIdentity reason] is [true] when the promise of
      [NativeBiometric.verifyIdentity] resolves, [false] when it rejects;
    - [subtle] is [None] where [crypto.subtle] cannot be used (the [catch]
      branch of [hashPasswordAsync]); otherwise [kdf password salt i] is
      byte [i] of PBKDF2-HMAC-SHA-256 with 100000 iterations of the UTF-8
      encodings of [password] and [salt];
    - [getRandomValues n i] is byte [i] written by the [n]-th call of
      [crypto.getRandomValues]. *)
Record Platform := {
  isNativePlatform : bool;
  verifyIdentity : string -> bool;
  t : string -> string;
  subtle : option (string -> string -> nat -> Byte.byte);
  getRandomValues : nat -> nat -> Byte.byte
}.

(** Calls observed during an authentication, in order: the call of
    [authenticateWithBiometric] with its result, and the call of
    [verifyHiddenNotesPassword] or [verifyNotePassword]. *)
Inductive Event :=
| BiometricAttempt (reason : string) (granted : bool)
| PasswordCheck (password : string).

(** [localStorage.getItem(key)] is [ls !! key]; a value is truthy when it
    is present and not empty. *)
Definition truthy_item (v : option string) : bool :=
  match v with Some s => JS.truthy s | None => false end.

Definition authenticateWithBiometric (P : Platform) (reason : option string)
  : bool :=
  if negb (isNativePlatform P) then false
  else
    let defaultReason := t P "biometric.unlockProtectedContent" in
    verifyIdentity P
      (match reason with
       | Some r => if JS.truthy r then r else defaultReason
       | None => defaultReason
       end).

(** [generateSalt()], at the [draw]-th call of the random source: sixteen
    random bytes in hexadecimal. *)
Definition generateSalt (P : Platform) (draw : nat) : string :=
  JS.hexOfBytes (map (getRandomValues P draw) (seq 0 16)).

Definition bufferToHex (buffer : list Byte.byte) : string :=
  JS.hexOfBytes buffer.

(** The loop shared by [fallbackHash] and [hashPassword]:
    [hash = ((hash << 5) - hash) + char; hash = hash & hash]. *)
Definition hash_step (hash : Z) (c : ascii) : Z :=
  let hash1 := (JS.shl32 hash 5 - hash + JS.charCode c)%Z in
  JS.and32 hash1 hash1.

Fixpoint hash_loop (hash : Z) (input : string) : Z :=
  match input with
  | EmptyString => hash
  | String c rest => hash_loop (hash_step hash c) rest
  end.

Definition fallbackHash (input : string) : string :=
  ("fallback_" ++ JS.toString36 (Z.abs (hash_loop 0 input)))%string.

(** [hashPasswordAsync(password, salt)]: 256 derived bits in hexadecimal,
    or the fallback hash of [password + salt] when Web Crypto throws. *)
Definition hashPasswordAsync (P : Platform) (password salt : string) : string :=
  match subtle P with
  | Some kdf => bufferToHex (map (kdf password salt) (seq 0 32))
  | None => fallbackHash (password ++ salt)
  end.

(** [hashPassword(password)], the legacy hash.  The source also reads the
    salt key, only to print a warning. *)
Definition hashPassword (password : string) : string :=
  (JS.toString36 (hash_loop 0 password)
   ++ JS.toString36 (Z.of_nat (String.length password)))%string.

(** [hashPasswordSecure(password, salt?)] at the [draw]-th call of the
    random source: [salt || generateSalt()]. *)
Definition hashPasswordSecure (P : Platform) (draw : nat) (password : string)
  (salt : option string) : string * string :=
  let useSalt := if truthy_item salt then default EmptyString salt
                 else generateSalt P draw in
  (hashPasswordAsync P password useSalt, useSalt).

(** [verifyPassword(password, hashedPassword, salt?)].  Under [if (salt)]
    the salt is truthy, so [hashPasswordSecure] draws no random bytes. *)
Definition verifyPassword (P : Platform) (password hashedPassword : string)
  (salt : option string) : bool :=
  if truthy_item salt then
    String.eqb (fst (hashPasswordSecure P 0 password salt)) hashedPassword
  else String.eqb (hashPassword password) hashedPassword.

(** [NoteProtection], also the shape of the hidden-notes settings. *)
Record NoteProtection := { hasPassword : bool; useBiometric : bool }.

Definition getHiddenNotesSettings (ls : gmap string string) : NoteProtection :=
  {| hasPassword := truthy_item (ls !! HIDDEN_NOTES_PASSWORD_KEY);
     useBiometric :=
       match ls !! HIDDEN_NOTES_USE_BIOMETRIC_KEY with
       | Some v => String.eqb v "true"
       | None => false
       end |}.

Definition setHiddenNotesPassword (P : Platform) (draw : nat)
  (password : string) (ls : gmap string string) : gmap string string :=
  let '(hash, salt) := hashPasswordSecure P draw password None in
  <[HIDDEN_NOTES_SALT_KEY := salt]> (<[HIDDEN_NOTES_PASSWORD_KEY := hash]> ls).

(** [storedSalt || undefined] *)
Definition salt_or_undefined (storedSalt : option string) : option string :=
  if truthy_item storedSalt then storedSalt else None.

Definition verifyHiddenNotesPassword (P : Platform) (password : string)
  (ls : gmap string string) : bool :=
  let storedHash := ls !! HIDDEN_NOTES_PASSWORD_KEY in
  let storedSalt := ls !! HIDDEN_NOTES_SALT_KEY in
  match storedHash with
  | Some h =>
      if JS.truthy h then verifyPassword P password h (salt_or_undefined storedSalt)
      else false
  | None => false
  end.

Definition setHiddenNotesBiometric (enabled : bool) (ls : gmap string string)
  : gmap string string :=
  <[HIDDEN_NOTES_USE_BIOMETRIC_KEY := if enabled then "true" else "false"]> ls.

Definition clearHiddenNotesProtection (ls : gmap string string)
  : gmap string string :=
  delete HIDDEN_NOTES_USE_BIOMETRIC_KEY
    (delete HIDDEN_NOTES_SALT_KEY (delete HIDDEN_NOTES_PASSWORD_KEY ls)).

Definition authenticateForHiddenNotes (P : Platform) (password : option string)
  (ls : gmap string string) : bool * list Event :=
  let settings := getHiddenNotesSettings ls in
  let reason := t P "biometric.accessHiddenNotes" in
  (* If no protection is set, allow access *)
  if negb (hasPassword settings) && negb (useBiometric settings) then (true, [])
  else
    (* Try biometric first if enabled *)
    let biometricResult :=
      if useBiometric settings
      then Some (authenticateWithBiometric P (Some reason)) else None in
    let log :=
      match biometricResult with
      | Some r => [BiometricAttempt reason r]
      | None => []
      end in
    if default false biometricResult then (true, log)
    else
      (* Fall back to password *)
      if truthy_item password && hasPassword settings
      then (verifyHiddenNotesPassword P (default EmptyString password) ls,
            log ++ [PasswordCheck (default EmptyString password)])
      else (false, log).

(** *** Per-note protection *)

Definition getNoteProtectionKey (noteId : string) : string :=
  ("npd_note_protection_" ++ noteId)%string.
Definition getNotePasswordKey (noteId : string) : string :=
  ("npd_note_password_" ++ noteId)%string.
Definition getNoteSaltKey (noteId : string) : string :=
  ("npd_note_salt_" ++ noteId)%string.

Definition json_bool (b : bool) : string := if b then "true" else "false".

(** [JSON.stringify(protection)] of a record of two booleans. *)
Definition JSON_stringify_protection (p : NoteProtection) : string :=
  ("{" ++ JS.dquote ++ "hasPassword" ++ JS.dquote ++ ":" ++ json_bool (hasPassword p)
   ++ "," ++ JS.dquote ++ "useBiometric" ++ JS.dquote ++ ":"
   ++ json_bool (useBiometric p) ++ "}")%string.

Definition all_protections : list NoteProtection :=
  [ {| hasPassword := false; useBiometric := false |};
    {| hasPassword := false; useBiometric := true |};
    {| hasPassword := true; useBiometric := false |};
    {| hasPassword := true; useBiometric := true |} ].

(** [JSON.parse(data)] on the texts that [setNoteProtection], the only
    writer of the key, stores there; any other text is taken to the
    [catch] branch ([None]). *)
Definition JSON_parse_protection (data : string) : option NoteProtection :=
  find (fun p => String.eqb (JSON_stringify_protection p) data) all_protections.

Definition no_protection : NoteProtection :=
  {| hasPassword := false; useBiometric := false |}.

Definition getNoteProtection (noteId : string) (ls : gmap string string)
  : NoteProtection :=
  match ls !! getNoteProtectionKey noteId with
  | Some data =>
      if JS.truthy data
      then default no_protection (JSON_parse_protection data)
      else no_protection
  | None => no_protection
  end.

Definition setNoteProtection (P : Platform) (draw : nat) (noteId : string)
  (protection : NoteProtection) (password : option string)
  (ls : gmap string string) : gmap string string :=
  let ls1 := <[getNoteProtectionKey noteId := JSON_stringify_protection protection]> ls in
  if truthy_item password then
    let '(hash, salt) :=
      hashPasswordSecure P draw (default EmptyString password) None in
    <[getNoteSaltKey noteId := salt]> (<[getNotePasswordKey noteId := hash]> ls1)
  else if negb (hasPassword protection) then
    delete (getNoteSaltKey noteId) (delete (getNotePasswordKey noteId) ls1)
  else ls1.

Definition verifyNotePassword (P : Platform) (noteId password : string)
  (ls : gmap string string) : bool :=
  let storedHash := ls !! getNotePasswordKey noteId in
  let storedSalt := ls !! getNoteSaltKey noteId in
  match storedHash with
  | Some h =>
      if JS.truthy h then verifyPassword P password h (salt_or_undefined storedSalt)
      else false
  | None => false
  end.

Definition authenticateForNote (P : Platform) (noteId : string)
  (password : option string) (ls : gmap string string) : bool * list Event :=
  let protection := getNoteProtection noteId ls in
  let reason := t P "biometric.unlockProtectedNote" in
  if negb (hasPassword protection) && negb (useBiometric protection)
  then (true, [])
  else
    let biometricResult :=
      if useBiometric protection
      then Some (authenticateWithBiometric P (Some reason)) else None in
    let log :=
      match biometricResult with
      | Some r => [BiometricAttempt reason r]
      | None => []
      end in
    if default false biometricResult then (true, log)
    else
      if truthy_item password && hasPassword protection
      then (verifyNotePassword P noteId (default EmptyString password) ls,
            log ++ [PasswordCheck (default EmptyString password)])
      else (false, log).

Definition removeNoteProtection (noteId : string) (ls : gmap string string)
  : gmap string string :=
  delete (getNoteSaltKey noteId)
    (delete (getNotePasswordKey noteId)
       (delete (getNoteProtectionKey noteId) ls)).

(** *** The operations of the specification, by scope

    A scope is the hidden-notes area or one note.  For a note,
    [setPassword] is [setNoteProtection] with a record that announces a
    password and no biometric check. *)
Inductive Scope :=
| HiddenNotes
| OneNote (noteId : string).

Definition password_only : NoteProtection :=
  {| hasPassword := true; useBiometric := false |}.

Definition setPassword (P : Platform) (draw : nat) (scope : Scope)
  (password : string) (ls : gmap string string) : gmap string string :=
  match scope with
  | HiddenNotes => setHiddenNotesPassword P draw password ls
  | OneNote noteId =>
      setNoteProtection P draw noteId password_only (Some password) ls
  end.

Definition clearProtection (scope : Scope) (ls : gmap string string)
  : gmap string string :=
  match scope with
  | HiddenNotes => clearHiddenNotesProtection ls
  | OneNote noteId => removeNoteProtection noteId ls
  end.

Definition authenticate (P : Platform) (scope : Scope)
  (password : option string) (ls : gmap string string) : bool * list Event :=
  match scope with
  | HiddenNotes => authenticateForHiddenNotes P password ls
  | OneNote noteId => authenticateForNote P noteId password ls
  end.

(** The flags that [authenticate] reads for a scope. *)
Definition protection_of (scope : Scope) (ls : gmap string string)
  : NoteProtection :=
  match scope with
  | HiddenNotes => getHiddenNotesSettings ls
  | OneNote noteId => getNoteProtection noteId ls
  end.

(** The stored password hash and salt of a scope. *)
Definition stored_hash (scope : Scope) (ls : gmap string string)
  : option string :=
  match scope with
  | HiddenNotes => ls !! HIDDEN_NOTES_PASSWORD_KEY
  | OneNote noteId => ls !! getNotePasswordKey noteId
  end.

Definition stored_salt (scope : Scope) (ls : gmap string string)
  : option string :=
  match scope with
  | HiddenNotes => ls !! HIDDEN_NOTES_SALT_KEY
  | OneNote noteId => ls !! getNoteSaltKey noteId
  end.

(** The password check of a scope, from what is stored. *)
Definition verify_of (P : Platform) (scope : Scope) (p : string)
  (ls : gmap string string) : bool :=
  match scope with
  | HiddenNotes => verifyHiddenNotesPassword P p ls
  | OneNote noteId => verifyNotePassword P noteId p ls
  end.

(** The prompt of the biometric check of a scope. *)
Definition reason_of (P : Platform) (scope : Scope) : string :=
  match scope with
  | HiddenNotes => t P "biometric.accessHiddenNotes"
  | OneNote _ => t P "biometric.unlockProtectedNote"
  end.

(** A browser page outside a secure context: no biometric plugin, no
    [crypto.subtle], and a random source that happens to write zeros. *)
Definition insecure_page : Platform :=
  {| isNativePlatform := false;
     verifyIdentity := fun _ => false;
     t := fun key => key;
     subtle := None;
     getRandomValues := fun _ _ => Byte.x00 |}.

(** A device whose biometric check succeeds, with a stand-in for the key
    derivation that repeats the length of the password. *)
Definition unlocked_device : Platform :=
  {| isNativePlatform := true;
     verifyIdentity := fun _ => true;
     t := fun key => key;
     subtle := Some (fun password _ _ =>
                       match Byte.of_nat (String.length password) with
                       | Some b => b
                       | None => Byte.xff
                       end);
     getRandomValues := fun _ i =>
                          match Byte.of_nat i with
                          | Some b => b
                          | None => Byte.x00
                          end |}.

End Protection.
(** ** Record store: src/unnamed/part_001 *)

Module Store.

Import JSDate.

(** The value of a timestamp property of a record: a [Date] object in
    the application, a text in the stores. *)
Inductive TimeValue :=
| VDate (d : Date)
| VString (s : string).

(** [v.toISOString()]; [None] when the call throws: a [RangeError] for
    an Invalid Date, a [TypeError] for a text, which has no such method. *)
Definition toISOString_of (v : TimeValue) : option string :=
  match v with
  | VDate d => toISOString d
  | VString _ => None
  end.

(** [new Date(v)] *)
Definition new_Date (v : TimeValue) : Date :=
  match v with
  | VDate d => d
  | VString s => parse s
  end.

Definition truthy_time (v : TimeValue) : bool :=
  match v with
  | VDate _ => true
  | VString s => JS.truthy s
  end.

(** Modelled from the spec: the declaration of a voice recording (in
    '@/types/note', not in the sources): an audio reference and a
    timestamp. *)
Record VoiceRecording := {
  audio : string;
  timestamp : TimeValue
}.

(** Modelled from the spec: the declaration of [Note] (in '@/types/note',
    not in the sources), with the fields of the data model.  The sources
    read [voiceRecordings] with [?.], so it may be absent. *)
Record Note := {
  id : string;
  content : string;
  title : option string;
  type : option string;
  color : option string;
  folderId : option string;
  createdAt : TimeValue;
  updatedAt : TimeValue;
  archivedAt : option TimeValue;
  deletedAt : option TimeValue;
  reminderTime : option TimeValue;
  voiceRecordings : option (list VoiceRecording)
}.

(** [v?.toISOString()] *)
Definition opt_toISOString (v : option TimeValue) : option (option TimeValue) :=
  match v with
  | None => Some None
  | Some x => s ← toISOString_of x; Some (Some (VString s))
  end.

(** [{ ...r, timestamp: r.timestamp.toISOString() }] *)
Definition serialize_recording (r : VoiceRecording) : option VoiceRecording :=
  s ← toISOString_of (timestamp r);
  Some {| audio := audio r; timestamp := VString s |}.

(** The record that [saveNotesToDB] and [saveNoteToDBSingle] put in the
    store; [None] when one of the [toISOString] calls throws. *)
Definition serialize (note : Note) : option Note :=
  c ← toISOString_of (createdAt note);
  u ← toISOString_of (updatedAt note);
  a ← opt_toISOString (archivedAt note);
  d ← opt_toISOString (deletedAt note);
  r ← opt_toISOString (reminderTime note);
  v ← match voiceRecordings note with
      | Some rs => mapM serialize_recording rs
      | None => Some []
      end;
  Some {| id := id note; content := content note; title := title note;
          type := type note; color := color note; folderId := folderId note;
          createdAt := VString c; updatedAt := VString u;
          archivedAt := a; deletedAt := d; reminderTime := r;
          voiceRecordings := Some v |}.

(** [{ ...r, timestamp: new Date(r.timestamp) }] *)
Definition revive_recording (r : VoiceRecording) : VoiceRecording :=
  {| audio := audio r; timestamp := VDate (new_Date (timestamp r)) |}.

(** [v ? new Date(v) : undefined] *)
Definition revive_optional (v : option TimeValue) : option TimeValue :=
  match v with
  | Some x => if truthy_time x then Some (VDate (new_Date x)) else None
  | None => None
  end.

(** [note.voiceRecordings?.map(...) || []] *)
Definition revive_recordings (v : option (list VoiceRecording))
  : option (list VoiceRecording) :=
  match v with
  | Some rs => Some (map revive_recording rs)
  | None => Some []
  end.

(** The note that [loadNotesFromDB] builds from a stored record. *)
Definition revive (note : Note) : Note :=
  {| id := id note; content := content note; title := title note;
     type := type note; color := color note; folderId := folderId note;
     createdAt := VDate (new_Date (createdAt note));
     updatedAt := VDate (new_Date (updatedAt note));
     archivedAt := revive_optional (archivedAt note);
     deletedAt := revive_optional (deletedAt note);
     reminderTime := revive_optional (reminderTime note);
     voiceRecordings := revive_recordings (voiceRecordings note) |}.

(** The note that [loadNotesFromLocalStorage] builds from a parsed
    entry: only [createdAt], [updatedAt] and the recordings are revived. *)
Definition revive_legacy (n : Note) : Note :=
  {| id := id n; content := content n; title := title n;
     type := type n; color := color n; folderId := folderId n;
     createdAt := VDate (new_Date (createdAt n));
     updatedAt := VDate (new_Date (updatedAt n));
     archivedAt := archivedAt n;
     deletedAt := deletedAt n;
     reminderTime := reminderTime n;
     voiceRecordings := revive_recordings (voiceRecordings n) |}.

(** *** The object store 'notes', with key path 'id'

    The records in ascending order of their keys, one record per key;
    strings are ordered by their code units. *)
Definition ObjectStore : Type := list (string * Note).

Definition key_lt (k1 k2 : string) : Prop := String.compare k1 k2 = Lt.

(** [store.put(record)]: insert, or replace the record with that key. *)
Fixpoint put (k : string) (record : Note) (s : ObjectStore) : ObjectStore :=
  match s with
  | [] => [(k, record)]
  | (k', r') :: rest =>
      match String.compare k k' with
      | Lt => (k, record) :: s
      | Eq => (k, record) :: rest
      | Gt => (k', r') :: put k record rest
      end
  end.

(** [store.delete(key)] *)
Definition remove (k : string) (s : ObjectStore) : ObjectStore :=
  List.filter (fun e => negb (String.eqb (fst e) k)) s.

(** The keys of the store, in its order. *)
Definition keys (s : ObjectStore) : list string := map fst s.

(** Every entry is filed under the [id] of its record. *)
Definition keyed (s : ObjectStore) : Prop :=
  Forall (fun e => fst e = id (snd e)) s.

(** [store.getAll()]: the records in ascending key order. *)
Definition getAll (s : ObjectStore) : list Note := map snd s.

(** *** State and environment *)

(** How a promise ends as seen by [await]. *)
Inductive Promise (A : Type) :=
| Fulfilled (a : A)
| Rejected
| Pending.
Arguments Fulfilled {A} a.
Arguments Rejected {A}.
Arguments Pending {A}.

(** [db] is the module variable (is a connection cached?); [store] and
    [localStorage] are the durable state. *)
Record World := {
  db : bool;
  store : ObjectStore;
  localStorage : gmap string string
}.

(** The environment: does [indexedDB.open] succeed, and what
    [JSON.parse] makes of the legacy entry ([None]: it throws, or the
    value has no [map] method). *)
Record Host := {
  open_succeeds : bool;
  JSON_parse_notes : string -> option (list Note)
}.

Definition NOTES_KEY : string := "notes".
Definition MIGRATED_KEY : string := "notes_migrated_to_indexeddb".

Definition set_db (b : bool) (w : World) : World :=
  {| db := b; store := store w; localStorage := localStorage w |}.
Definition set_store (s : ObjectStore) (w : World) : World :=
  {| db := db w; store := s; localStorage := localStorage w |}.
Definition set_localStorage (ls : gmap string string) (w : World) : World :=
  {| db := db w; store := store w; localStorage := ls |}.

(** [openDB()]: [None] when the promise rejects. *)
Definition openDB (H : Host) (w : World) : option World :=
  if db w then Some w
  else if open_succeeds H then Some (set_db true w)
  else None.

Definition loadNotesFromLocalStorage (H : Host) (ls : gmap string string)
  : list Note :=
  match ls !! NOTES_KEY with
  | Some saved =>
      if JS.truthy saved then
        match JSON_parse_notes H saved with
        | Some parsed => map revive_legacy parsed
        | None => []
        end
      else []
  | None => []
  end.

Definition loadNotesFromDB (H : Host) (w : World)
  : Promise (list Note) * World :=
  match openDB H w with
  | Some w1 => (Fulfilled (map revive (getAll (store w1))), w1)
  | None => (Fulfilled (loadNotesFromLocalStorage H (localStorage w)), w)
  end.

(** [notes.forEach(note => store.put({...}))] on the store [s]; [None]
    when building a record throws. *)
Fixpoint put_all (notes : list Note) (s : ObjectStore) : option ObjectStore :=
  match notes with
  | [] => Some s
  | note :: rest =>
      match serialize note with
      | Some record => put_all rest (put (id record) record s)
      | None => None
      end
  end.

(** The records that [saveNotesToDB] builds for the notes, when none of
    them throws. *)
Definition records_of (notes : list Note) : option (list Note) :=
  mapM serialize notes.

(** Does the callback throw before any [put] request is made? *)
Definition first_throws (notes : list Note) : bool :=
  match notes with
  | note :: _ => match serialize note with Some _ => false | None => true end
  | [] => false
  end.

(** [saveNotesToDB(notes)].  One transaction clears the store and puts
    every record.  When the callback throws, the transaction is aborted
    and the store keeps its contents; the [put] requests already made
    then fail, which rejects the promise through [transaction.onerror],
    and without such a request the promise is never settled. *)
Definition saveNotesToDB (H : Host) (notes : list Note) (w : World)
  : Promise unit * World :=
  match openDB H w with
  | Some w1 =>
      match put_all notes [] with
      | Some s => (Fulfilled tt, set_store s w1)
      | None => (if first_throws notes then Pending else Rejected, w1)
      end
  | None => (Fulfilled tt, w)
  end.

(** [migrateNotesToIndexedDB()] *)
Definition migrateNotesToIndexedDB (H : Host) (w : World)
  : Promise bool * World :=
  let migrated := localStorage w !! MIGRATED_KEY in
  if bool_decide (migrated = Some "true"%string) then
    (Fulfilled false, set_localStorage (delete NOTES_KEY (localStorage w)) w)
  else
    let notes := loadNotesFromLocalStorage H (localStorage w) in
    if (0 <? length notes)%nat then
      match saveNotesToDB H notes w with
      | (Fulfilled _, w1) =>
          (Fulfilled true,
           set_localStorage
             (delete NOTES_KEY (<[MIGRATED_KEY := "true"%string]> (localStorage w1)))
             w1)
      | (Rejected, w1) => (Fulfilled false, w1)
      | (Pending, w1) => (Pending, w1)
      end
    else
      (Fulfilled false,
       set_localStorage (<[MIGRATED_KEY := "true"%string]> (localStorage w)) w).

(** The durable part of the state. *)
Definition durable (w : World) : ObjectStore * gmap string string :=
  (store w, localStorage w).

(** *** Notes as the application holds them *)

(** A timestamp of the application: a [Date] with a time value in range. *)
Definition is_valid_date (v : TimeValue) : bool :=
  match v with
  | VDate (Instant t) => valid_time t
  | VDate InvalidDate => false
  | VString _ => false
  end.

Definition is_valid_optional (v : option TimeValue) : bool :=
  match v with
  | Some x => is_valid_date x
  | None => true
  end.

(** A note of the data model: every timestamp is a valid [Date] and the
    recordings are a sequence. *)
Definition well_typed (note : Note) : bool :=
  is_valid_date (createdAt note) && is_valid_date (updatedAt note)
  && is_valid_optional (archivedAt note)
  && is_valid_optional (deletedAt note)
  && is_valid_optional (reminderTime note)
  && match voiceRecordings note with
     | Some rs => forallb (fun r => is_valid_date (timestamp r)) rs
     | None => false
     end.

(** *** Sample data *)

Definition sample_note (noteId text : string) (t : Z) : Note :=
  {| id := noteId; content := text; title := Some text;
     type := Some "regular"%string; color := None; folderId := None;
     createdAt := VDate (Instant t);
     updatedAt := VDate (Instant (t + 1));
     archivedAt := None;
     deletedAt := Some (VDate (Instant (t + 2)));
     reminderTime := None;
     voiceRecordings :=
       Some [ {| audio := "memo.webm"; timestamp := VDate (Instant (t + 3)) |} ] |}.

Definition empty_world : World :=
  {| db := false; store := []; localStorage := ∅ |}.

(** [JSON.parse] on the text of the empty array, and on no other text. *)
Definition parse_empty_array (text : string) : option (list Note) :=
  if String.eqb text "[]" then Some [] else None.

(** A host whose database opens, and one whose database does not. *)
Definition working_host : Host :=
  {| open_succeeds := true; JSON_parse_notes := parse_empty_array |}.
Definition failing_host : Host :=
  {| open_succeeds := false; JSON_parse_notes := parse_empty_array |}.

(** A legacy entry written by an earlier version: the JSON text of one
    note, its timestamps as ISO texts. *)
Definition json_field (name value : string) : string :=
  (JS.dquote ++ name ++ JS.dquote ++ ":" ++ JS.dquote ++ value ++ JS.dquote)%string.

Definition legacy_text : string :=
  ("[{" ++ json_field "id" "7" ++ "," ++ json_field "content" "kept"
   ++ "," ++ json_field "createdAt" "2023-11-14T22:13:20.000Z"
   ++ "," ++ json_field "updatedAt" "2023-11-14T22:13:20.000Z"
   ++ "}]")%string.

(** What [JSON.parse] makes of [legacy_text]. *)
Definition legacy_entry : Note :=
  {| id := "7"; content := "kept"; title := None; type := None;
     color := None; folderId := None;
     createdAt := VString "2023-11-14T22:13:20.000Z";
     updatedAt := VString "2023-11-14T22:13:20.000Z";
     archivedAt := None; deletedAt := None; reminderTime := None;
     voiceRecordings := None |}.

Definition parse_legacy (text : string) : option (list Note) :=
  if String.eqb text legacy_text then Some [legacy_entry]
  else parse_empty_array text.

Definition legacy_host : Host :=
  {| open_succeeds := true; JSON_parse_notes := parse_legacy |}.

Definition legacy_world : World :=
  {| db := false; store := [];
     localStorage := {[ NOTES_KEY := legacy_text ]} |}.

End Store.

(** ** Write scheduler: [debouncedSaveNotes] *)

Module Scheduler.

Import Store.

(** A timer set by [setTimeout]: its handle, the time from which it is
    due, and the [notes] its callback passes to [saveNotesToDB]. *)
Record Timer := {
  handle : nat;
  due : Z;
  snapshot : list Note
}.

(** [saveTimeout] is the module variable; [saves] lists the arguments of
    the calls of [saveNotesToDB] made so far, oldest first. *)
Record State := {
  now : Z;
  next_handle : nat;
  timers : list Timer;
  saveTimeout : option nat;
  saves : list (list Note);
  world : World
}.

Definition init (w : World) : State :=
  {| now := 0; next_handle := 1; timers := []; saveTimeout := None;
     saves := []; world := w |}.

Definition clearTimeout (h : nat) (ts : list Timer) : list Timer :=
  List.filter (fun t => negb (handle t =? h)%nat) ts.

Definition default_delay : Z := 500.

(** [delay = 500] *)
Definition delay_or_default (delay : option Z) : Z :=
  default default_delay delay.

(** The time that [setTimeout(callback, delay)] waits at least, for a
    whole number of milliseconds: the delay is converted to a 32-bit
    integer, and a negative one counts as zero.  So a delay of 2^31 is
    not kept, the timer is due at once. *)
Definition timeout_of (delay : option Z) : Z :=
  Z.max 0 (JS.toInt32 (delay_or_default delay)).

(** The delays that [setTimeout] keeps as they are. *)
Definition in_range (delay : option Z) : Prop :=
  (0 <= delay_or_default delay < 2147483648)%Z.

(** [debouncedSaveNotes(notes, delay = 500)] *)
Definition debouncedSaveNotes (notes : list Note) (delay : option Z)
  (s : State) : State :=
  let kept :=
    match saveTimeout s with
    | Some h => clearTimeout h (timers s)
    | None => timers s
    end in
  let h := next_handle s in
  {| now := now s;
     next_handle := S h;
     timers := kept ++ [{| handle := h; due := (now s + timeout_of delay)%Z;
                           snapshot := notes |}];
     saveTimeout := Some h;
     saves := saves s;
     world := world s |}.

(** The callback of a timer: [saveNotesToDB(notes)]. *)
Definition fire (H : Host) (s : State) (t : Timer) : State :=
  {| now := now s; next_handle := next_handle s; timers := timers s;
     saveTimeout := saveTimeout s;
     saves := saves s ++ [snapshot t];
     world := snd (saveNotesToDB H (snapshot t) (world s)) |}.

Fixpoint insert_by_due (t : Timer) (ts : list Timer) : list Timer :=
  match ts with
  | [] => [t]
  | u :: rest =>
      if (due t <? due u)%Z then t :: ts else u :: insert_by_due t rest
  end.

(** Timers run in the order of their due times, and in the order they
    were set when these are equal. *)
Definition by_due (ts : list Timer) : list Timer :=
  fold_left (fun acc t => insert_by_due t acc) ts [].

(** [dt] milliseconds pass, and no callback runs. *)
Definition wait (dt : Z) (s : State) : State :=
  {| now := (now s + Z.max 0 dt)%Z; next_handle := next_handle s;
     timers := timers s; saveTimeout := saveTimeout s; saves := saves s;
     world := world s |}.

(** A turn of the event loop: the callbacks of the timers that are due
    run.  A callback is a task of its own: it never runs inside the task
    that called [debouncedSaveNotes], never before its timer is due, and
    as late after that as the event loop comes to it. *)
Definition run_due (H : Host) (s : State) : State :=
  let ready := List.filter (fun t => (due t <=? now s)%Z) (timers s) in
  let waiting := List.filter (fun t => negb (due t <=? now s)%Z) (timers s) in
  let s1 := fold_left (fire H) (by_due ready) s in
  {| now := now s; next_handle := next_handle s1; timers := waiting;
     saveTimeout := saveTimeout s1; saves := saves s1; world := world s1 |}.

(** What happens, one after the other: the application calls
    [debouncedSaveNotes], time passes, the event loop takes a turn. *)
Inductive Step :=
| DoCall (notes : list Note) (delay : option Z)
| DoWait (dt : Z)
| DoRun.

Definition step (H : Host) (s : State) (e : Step) : State :=
  match e with
  | DoCall notes delay => debouncedSaveNotes notes delay s
  | DoWait dt => wait dt s
  | DoRun => run_due H s
  end.

Definition run_steps (H : Host) (steps : list Step) (s : State) : State :=
  fold_left (step H) steps s.

Definition is_call (e : Step) : bool :=
  match e with DoCall _ _ => true | _ => false end.

Definition no_call (steps : list Step) : bool :=
  forallb (fun e => negb (is_call e)) steps.

(** The steps that follow a call whose quiet interval has [remaining]
    milliseconds left stay within it: the time that passes before the
    next call is shorter than what is left, so that no turn of the event
    loop finds the timer due, and the next call, with a delay that
    [setTimeout] keeps, starts the interval anew. *)
Fixpoint within_quiet (remaining : Z) (steps : list Step) : Prop :=
  match steps with
  | [] => True
  | DoCall _ delay :: rest =>
      in_range delay /\ within_quiet (delay_or_default delay) rest
  | DoWait dt :: rest =>
      (0 <= dt < remaining)%Z /\ within_quiet (remaining - dt) rest
  | DoRun :: rest => (0 < remaining)%Z /\ within_quiet remaining rest
  end.

(** The notes of the last call. *)
Fixpoint last_notes (notes : list Note) (steps : list Step) : list Note :=
  match steps with
  | [] => notes
  | DoCall notes' _ :: rest => last_notes notes' rest
  | _ :: rest => last_notes notes rest
  end.

(** What is left of the quiet interval of the last call. *)
Fixpoint remaining_after (remaining : Z) (steps : list Step) : Z :=
  match steps with
  | [] => remaining
  | DoCall _ delay :: rest => remaining_after (delay_or_default delay) rest
  | DoWait dt :: rest => remaining_after (remaining - Z.max 0 dt) rest
  | DoRun :: rest => remaining_after remaining rest
  end.

(** Among steps without a call: does the event loop take a turn once the
    [remaining] milliseconds have passed? *)
Fixpoint fired (remaining : Z) (steps : list Step) : bool :=
  match steps with
  | [] => false
  | DoCall _ _ :: _ => false
  | DoWait dt :: rest => fired (remaining - Z.max 0 dt) rest
  | DoRun :: rest => (remaining <=? 0)%Z || fired remaining rest
  end.

(** At most one timer is pending, and [saveTimeout] is its handle. *)
Definition one_pending (s : State) : Prop :=
  timers s = []
  \/ exists t, timers s = [t] /\ saveTimeout s = Some (handle t).

(** Exactly one timer is pending: it carries [notes] and is due in
    [remaining] milliseconds; [written] are the writes made so far. *)
Definition armed (s : State) (notes : list Note) (remaining : Z)
  (written : list (list Note)) (w : World) : Prop :=
  exists t,
    timers s = [t] /\ saveTimeout s = Some (handle t)
    /\ snapshot t = notes /\ due t = (now s + remaining)%Z
    /\ saves s = written /\ world s = w.

(** No timer is pending. *)
Definition idle (s : State) (written : list (list Note)) (w : World) : Prop :=
  timers s = [] /\ saves s = written /\ world s = w.

End Scheduler.

(** ** Record store: single records *)

Module StoreOps.

Import Store.

(** [saveNoteToDBSingle(note)]: one [put] in a transaction of its own.
    The record is built inside the promise executor: when a [toISOString]
    call throws, the promise is rejected and nothing is put. *)
Definition saveNoteToDBSingle (H : Host) (note : Note) (w : World)
  : Promise unit * World :=
  match openDB H w with
  | Some w1 =>
      match serialize note with
      | Some record =>
          (Fulfilled tt, set_store (put (id record) record (store w1)) w1)
      | None => (Rejected, w1)
      end
  | None => (Fulfilled tt, w)
  end.

(** [deleteNoteFromDB(noteId)] *)
Definition deleteNoteFromDB (H : Host) (noteId : string) (w : World)
  : Promise unit * World :=
  match openDB H w with
  | Some w1 => (Fulfilled tt, set_store (remove noteId (store w1)) w1)
  | None => (Fulfilled tt, w)
  end.

(** The store as the database keeps it: keys in strictly ascending
    order, each record filed under its [id]. *)
Definition store_ok (s : ObjectStore) : Prop :=
  Sorted key_lt (keys s) /\ keyed s.

(** The notes of a list with, and without, a given [id]. *)
Definition with_id (noteId : string) (notes : list Note) : list Note :=
  List.filter (fun n => String.eqb (id n) noteId) notes.
Definition without_id (noteId : string) (notes : list Note) : list Note :=
  List.filter (fun n => negb (String.eqb (id n) noteId)) notes.

(** The notes [loadNotesFromDB] returns, or [[]] for a promise that is
    not fulfilled. *)
Definition loaded (H : Host) (w : World) : list Note :=
  match fst (loadNotesFromDB H w) with
  | Fulfilled notes => notes
  | Rejected | Pending => []
  end.

(** A legacy entry whose note was archived: [JSON.parse] delivers
    [archivedAt] as a text. *)
Definition archived_entry : Note :=
  {| id := "8"; content := "old"; title := None; type := None;
     color := None; folderId := None;
     createdAt := VString "2023-11-14T22:13:20.000Z";
     updatedAt := VString "2023-11-14T22:13:20.000Z";
     archivedAt := Some (VString "2024-02-29T23:59:59.999Z");
     deletedAt := None; reminderTime := None;
     voiceRecordings := None |}.

Definition archived_text : string :=
  ("[{" ++ json_field "id" "8" ++ "," ++ json_field "content" "old"
   ++ "," ++ json_field "createdAt" "2023-11-14T22:13:20.000Z"
   ++ "," ++ json_field "updatedAt" "2023-11-14T22:13:20.000Z"
   ++ "," ++ json_field "archivedAt" "2024-02-29T23:59:59.999Z"
   ++ "}]")%string.

Definition archived_host : Host :=
  {| open_succeeds := true;
     JSON_parse_notes := fun text =>
       if String.eqb text archived_text then Some [archived_entry] else None |}.

Definition archived_world : World :=
  {| db := false; store := [];
     localStorage := {[ NOTES_KEY := archived_text ]} |}.

End StoreOps.

(** ** Write scheduler: calls far apart *)

Module SchedulerOps.

Import Store Scheduler.

(** A call of [debouncedSaveNotes] and what follows it before the next
    call. *)
Record Round := {
  notes_of : list Note;
  delay_of : option Z;
  then_steps : list Step
}.

Definition round_steps (r : Round) : list Step :=
  DoCall (notes_of r) (delay_of r) :: then_steps r.

(** Before the next call comes, the delay of the call, one that
    [setTimeout] keeps, has passed and the event loop has taken a turn
    since. *)
Definition spaced (rounds : list Round) : Prop :=
  List.Forall
    (fun r => in_range (delay_of r)
              /\ no_call (then_steps r) = true
              /\ fired (delay_or_default (delay_of r)) (then_steps r) = true)
    rounds.

(** The state of the store after [saveNotesToDB] has run for each call
    in turn. *)
Definition written_in_turn (H : Host) (rounds : list Round) (w : World)
  : World :=
  fold_left (fun w r => snd (saveNotesToDB H (notes_of r) w)) rounds w.

End SchedulerOps.


(** ** More string primitives *)

Module JSString.

(** White space and line terminators among the 8-bit code units: what
    [\s] matches and [trim] removes. *)
Definition is_space (c : ascii) : bool :=
  let n := N_of_ascii c in
  ((9 <=? n) && (n <=? 13) || (n =? 32) || (n =? 160))%N.

(** [toLowerCase] of one code unit: [A-Z] and the capital letters of
    Latin-1. *)
Definition lower (c : ascii) : ascii :=
  let n := N_of_ascii c in
  if ((65 <=? n) && (n <=? 90) || (192 <=? n) && (n <=? 214)
      || (216 <=? n) && (n <=? 222))%N
  then ascii_of_N (n + 32) else c.

Fixpoint toLowerCase (s : string) : string :=
  match s with
  | EmptyString => EmptyString
  | String c rest => String (lower c) (toLowerCase rest)
  end.

Fixpoint trimStart (s : string) : string :=
  match s with
  | EmptyString => EmptyString
  | String c rest => if is_space c then trimStart rest else s
  end.

Fixpoint trimEnd (s : string) : string :=
  match s with
  | EmptyString => EmptyString
  | String c rest =>
      match trimEnd rest with
      | EmptyString => if is_space c then EmptyString else String c EmptyString
      | rest' => String c rest'
      end
  end.

(** [s.trim()] *)
Definition trim (s : string) : string := trimEnd (trimStart s).

(** Does the string consist of white space only? *)
Fixpoint all_space (s : string) : bool :=
  match s with
  | EmptyString => true
  | String c rest => is_space c && all_space rest
  end.

End JSString.

(** ** Content compression: src/unnamed/part_001 *)

Module Compress.

Import JSString.

(** [content.replace(/\s+/g, ' ')]: every maximal run of white space
    becomes one space.  [in_run] tells that the character before was white
    space, whose run has been replaced already. *)
Fixpoint collapse (in_run : bool) (s : string) : string :=
  match s with
  | EmptyString => EmptyString
  | String c rest =>
      if is_space c
      then if in_run then collapse true rest
           else String " " (collapse true rest)
      else String c (collapse false rest)
  end.

Definition replace_runs (content : string) : string := collapse false content.

(** Does [\s+<] match at the start of [s]?  The run is taken greedily;
    the answer is what follows the match. *)
Definition ws_then_lt (s : string) : option string :=
  match s with
  | String c rest =>
      if is_space c then
        match trimStart rest with
        | String d tail => if (d =? "<")%char then Some tail else None
        | EmptyString => None
        end
      else None
  | EmptyString => None
  end.

(** [s.replace(/>\s+</g, '><')]: scanning from the left, a match is
    replaced and the scan goes on behind it; elsewhere the character is
    copied.  [fuel] bounds the number of steps. *)
Fixpoint replace_gaps (fuel : nat) (s : string) : string :=
  match fuel with
  | O => s
  | S fuel' =>
      match s with
      | EmptyString => EmptyString
      | String c rest =>
          if (c =? ">")%char then
            match ws_then_lt rest with
            | Some tail => String ">" (String "<" (replace_gaps fuel' tail))
            | None => String c (replace_gaps fuel' rest)
            end
          else String c (replace_gaps fuel' rest)
      end
  end.

Definition compressContent (content : string) : string :=
  let spaced := replace_runs content in
  trim (replace_gaps (String.length spaced) spaced).

(** The characters of a string that are not white space, in order. *)
Fixpoint visible (s : string) : string :=
  match s with
  | EmptyString => EmptyString
  | String c rest =>
      if is_space c then visible rest else String c (visible rest)
  end.

(** The string does not start with white space. *)
Definition starts_clean (s : string) : bool :=
  match s with
  | EmptyString => true
  | String c _ => negb (is_space c)
  end.

(** Every white-space character is a space, and the next character is
    not white space. *)
Fixpoint single_spaced (s : string) : bool :=
  match s with
  | EmptyString => true
  | String c rest =>
      (if is_space c then (c =? " ")%char && starts_clean rest else true)
      && single_spaced rest
  end.

(** Is [<] the first character behind the white space at the start? *)
Definition lt_next (s : string) : bool :=
  match trimStart s with
  | String d _ => (d =? "<")%char
  | EmptyString => false
  end.

Definition gap_ahead (s : string) : bool :=
  match ws_then_lt s with Some _ => true | None => false end.

(** No [>] is followed by white space and then [<]. *)
Fixpoint no_gap (s : string) : bool :=
  match s with
  | EmptyString => true
  | String c rest => negb ((c =? ">")%char && gap_ahead rest) && no_gap rest
  end.

End Compress.

(** ** Protection manager: security question and biometric status *)

Module ProtectionOps.

Import Protection.

Definition SECURITY_QUESTION_KEY : string := "npd_security_question".
Definition SECURITY_ANSWER_KEY : string := "npd_security_answer".
Definition SECURITY_ANSWER_SALT_KEY : string := "npd_security_answer_salt".

(** [answer.toLowerCase().trim()] *)
Definition normalize (answer : string) : string :=
  JSString.trim (JSString.toLowerCase answer).

Definition setSecurityQuestion (P : Platform) (draw : nat)
  (question answer : string) (ls : gmap string string) : gmap string string :=
  let normalized := normalize answer in
  let '(hash, salt) := hashPasswordSecure P draw normalized None in
  <[SECURITY_ANSWER_SALT_KEY := salt]>
    (<[SECURITY_ANSWER_KEY := hash]>
       (<[SECURITY_QUESTION_KEY := question]> ls)).

Definition getSecurityQuestion (ls : gmap string string) : option string :=
  ls !! SECURITY_QUESTION_KEY.

Definition verifySecurityAnswer (P : Platform) (answer : string)
  (ls : gmap string string) : bool :=
  let storedHash := ls !! SECURITY_ANSWER_KEY in
  let storedSalt := ls !! SECURITY_ANSWER_SALT_KEY in
  match storedHash with
  | Some h =>
      if JS.truthy h
      then verifyPassword P (normalize answer) h (salt_or_undefined storedSalt)
      else false
  | None => false
  end.

Definition hasSecurityQuestion (ls : gmap string string) : bool :=
  truthy_item (ls !! SECURITY_QUESTION_KEY)
  && truthy_item (ls !! SECURITY_ANSWER_KEY).

Definition clearSecurityQuestion (ls : gmap string string)
  : gmap string string :=
  delete SECURITY_ANSWER_SALT_KEY
    (delete SECURITY_ANSWER_KEY (delete SECURITY_QUESTION_KEY ls)).

(** The members of the plugin's [BiometryType] that the source names;
    [OTHER_BIOMETRY] stands for every other member, which takes the
    [default] branch. *)
Inductive BiometryType :=
| FACE_ID
| FACE_AUTHENTICATION
| FINGERPRINT
| TOUCH_ID
| IRIS_AUTHENTICATION
| OTHER_BIOMETRY.

Inductive Modality := fingerprint | face | iris | none.

Record BiometricStatus := {
  isAvailable : bool;
  biometryType : Modality
}.

(** What [NativeBiometric.isAvailable()] resolves to. *)
Record AvailableResult := {
  result_isAvailable : bool;
  result_biometryType : BiometryType
}.

(** [checkBiometricAvailability()]; [available] is what
    [NativeBiometric.isAvailable()] resolves to, [None] when it rejects. *)
Definition checkBiometricAvailability (P : Platform)
  (available : option AvailableResult) : BiometricStatus :=
  if negb (isNativePlatform P)
  then {| isAvailable := false; biometryType := none |}
  else
    match available with
    | Some result =>
        {| isAvailable := result_isAvailable result;
           biometryType :=
             if result_isAvailable result then
               match result_biometryType result with
               | FACE_ID | FACE_AUTHENTICATION => face
               | FINGERPRINT | TOUCH_ID => fingerprint
               | IRIS_AUTHENTICATION => iris
               | OTHER_BIOMETRY => fingerprint
               end
             else none |}
    | None => {| isAvailable := false; biometryType := none |}
    end.

(** A change of what is stored, by the operation that makes it. *)
Inductive Change :=
| SetPassword (scope : Scope) (draw : nat) (password : string)
| ClearProtection (scope : Scope)
| SetNoteProtection (noteId : string) (draw : nat)
    (protection : NoteProtection) (password : option string)
| SetHiddenNotesBiometric (enabled : bool)
| SetSecurityQuestion (draw : nat) (question answer : string)
| ClearSecurityQuestion.

Definition apply_change (P : Platform) (c : Change) (ls : gmap string string)
  : gmap string string :=
  match c with
  | SetPassword scope draw password => setPassword P draw scope password ls
  | ClearProtection scope => clearProtection scope ls
  | SetNoteProtection noteId draw protection password =>
      setNoteProtection P draw noteId protection password ls
  | SetHiddenNotesBiometric enabled => setHiddenNotesBiometric enabled ls
  | SetSecurityQuestion draw question answer =>
      setSecurityQuestion P draw question answer ls
  | ClearSecurityQuestion => clearSecurityQuestion ls
  end.

(** The scope a change belongs to; [None] for the security question. *)
Definition scope_of (c : Change) : option Scope :=
  match c with
  | SetPassword scope _ _ => Some scope
  | ClearProtection scope => Some scope
  | SetNoteProtection noteId _ _ _ => Some (OneNote noteId)
  | SetHiddenNotesBiometric _ => Some HiddenNotes
  | SetSecurityQuestion _ _ _ => None
  | ClearSecurityQuestion => None
  end.

(** The keys of [localStorage] that belong to a scope, and those of the
    security question. *)
Definition scope_keys (scope : Scope) : list string :=
  match scope with
  | HiddenNotes =>
      [HIDDEN_NOTES_PASSWORD_KEY; HIDDEN_NOTES_SALT_KEY;
       HIDDEN_NOTES_USE_BIOMETRIC_KEY]
  | OneNote noteId =>
      [getNoteProtectionKey noteId; getNotePasswordKey noteId;
       getNoteSaltKey noteId]
  end.

Definition security_keys : list string :=
  [SECURITY_QUESTION_KEY; SECURITY_ANSWER_KEY; SECURITY_ANSWER_SALT_KEY].

Definition keys_of_change (c : Change) : list string :=
  match scope_of c with
  | Some scope => scope_keys scope
  | None => security_keys
  end.

(** The value of a hexadecimal digit, and the byte that two digits at
    the head of a string write. *)
Definition hex_value (c : ascii) : N :=
  let n := N_of_ascii c in
  if (n <? 58)%N then (n - 48)%N else (n - 87)%N.

Definition unhex2 (s : string) : option Byte.byte :=
  match s with
  | String a (String b _) => Byte.of_N (16 * hex_value a + hex_value b)
  | _ => None
  end.

(** The base-31 polynomial of the character codes, without wrap-around. *)
Fixpoint poly31 (acc : Z) (s : string) : Z :=
  match s with
  | EmptyString => acc
  | String c rest => poly31 (acc * 31 + JS.charCode c)%Z rest
  end.

(** A device with Web Crypto; the stand-in for the key derivation
    repeats the length of the password. *)
Definition secure_page : Platform :=
  {| isNativePlatform := false;
     verifyIdentity := fun _ => false;
     t := fun key => key;
     subtle := subtle unlocked_device;
     getRandomValues := getRandomValues unlocked_device |}.

End ProtectionOps.

(** ** Task order: src/src/utils/taskOrderStorage.ts *)

Module TaskOrder.

Section Tasks.

(** [T extends { id: string }] *)
Variable T : Type.
Variable id : T -> string.

(** A [Map] with string keys: its entries in insertion order, one entry
    for a key. *)
Definition JSMap : Type := list (string * T).

(** [map.set(k, v)]: a key that is present keeps its place. *)
Fixpoint map_set (k : string) (v : T) (m : JSMap) : JSMap :=
  match m with
  | [] => [(k, v)]
  | (k', v') :: m' =>
      if String.eqb k' k then (k, v) :: m' else (k', v') :: map_set k v m'
  end.

Fixpoint map_get (k : string) (m : JSMap) : option T :=
  match m with
  | [] => None
  | (k', v') :: m' => if String.eqb k' k then Some v' else map_get k m'
  end.

Definition map_delete (k : string) (m : JSMap) : JSMap :=
  List.filter (fun e => negb (String.eqb (fst e) k)) m.

Definition map_values (m : JSMap) : list T := map snd m.

Definition map_keys (m : JSMap) : list string := map fst m.

(** [new Map(entries)] *)
Definition new_Map (entries : list (string * T)) : JSMap :=
  fold_left (fun m e => map_set (fst e) (snd e) m) entries [].

(** The first loop of [applyTaskOrder]: the tasks found under the saved
    ids are pushed in that order and deleted from the map.  A task is an
    object, so [if (task)] holds exactly when the id is in the map. *)
Fixpoint in_saved_order (savedOrder : list string) (orderedTasks : list T)
  (taskMap : JSMap) : list T * JSMap :=
  match savedOrder with
  | [] => (orderedTasks, taskMap)
  | taskId :: rest =>
      match map_get taskId taskMap with
      | Some task =>
          in_saved_order rest (orderedTasks ++ [task])
            (map_delete taskId taskMap)
      | None => in_saved_order rest orderedTasks taskMap
      end
  end.

(** [applyTaskOrder(tasks, sectionId)]; [getSectionOrder] is what
    [getSectionOrder(sectionId)] reads from the saved order. *)
Definition applyTaskOrder (getSectionOrder : string -> list string)
  (tasks : list T) (sectionId : string) : list T :=
  let savedOrder := getSectionOrder sectionId in
  if Nat.eqb (length savedOrder) 0 then tasks
  else
    let taskMap := new_Map (map (fun t => (id t, t)) tasks) in
    let '(orderedTasks, taskMap') := in_saved_order savedOrder [] taskMap in
    orderedTasks ++ map_values taskMap'.

(** The entry of a task, and the step of [new Map]. *)
Definition entry (t : T) : string * T := (id t, t).

Definition set_entry (m : JSMap) (e : string * T) : JSMap :=
  map_set (fst e) (snd e) m.

(** Every entry has the id of its task as key. *)
Definition keyed_by_id (m : JSMap) : Prop :=
  List.Forall (fun e => id (snd e) = fst e) m.

(** Is the id among those of the list? *)
Definition mem (k : string) (l : list string) : bool :=
  existsb (String.eqb k) l.

(** [t] is the last task of [tasks] with its id. *)
Definition last_with_id (t : T) (tasks : list T) : Prop :=
  exists l1 l2, tasks = l1 ++ t :: l2 /\ ~ In (id t) (map id l2).

End Tasks.

Arguments map_set {T}.
Arguments map_get {T}.
Arguments map_delete {T}.
Arguments map_values {T}.
Arguments map_keys {T}.
Arguments new_Map {T}.
Arguments in_saved_order {T}.
Arguments applyTaskOrder {T}.
Arguments last_with_id {T}.
Arguments entry {T}.
Arguments set_entry {T}.
Arguments keyed_by_id {T}.

(** Tasks for the examples: an id and a title. *)
Record Task := { task_id : string; title : string }.

End TaskOrder.

(** ** Notes grid: src/src/components/MasonryNotesGrid.tsx *)

Module Masonry.

Section Columns.

Variable Note : Type.

(** The [forEach] that splits the notes into two columns; [index] is the
    index of the first note of [notes]. *)
Fixpoint split_columns (index : nat) (notes leftColumn rightColumn : list Note)
  : list Note * list Note :=
  match notes with
  | [] => (leftColumn, rightColumn)
  | note :: rest =>
      if Nat.eqb (index mod 2) 0
      then split_columns (S index) rest (leftColumn ++ [note]) rightColumn
      else split_columns (S index) rest leftColumn (rightColumn ++ [note])
  end.

Definition columns (notes : list Note) : list Note * list Note :=
  split_columns 0 notes [] [].

(** Every other element of a list, with or without the first. *)
Fixpoint every_other (take : bool) (l : list Note) : list Note :=
  match l with
  | [] => []
  | x :: rest =>
      if take then x :: every_other false rest else every_other true rest
  end.

End Columns.

Arguments split_columns {Note}.
Arguments columns {Note}.
Arguments every_other {Note}.

(** [truncateText(text, maxLength)] for an integer [maxLength]. *)
Definition truncateText (text : string) (maxLength : Z) : string :=
  if (Z.of_nat (String.length text) <=? maxLength)%Z then text
  else (JSString.trim (JS.slice text 0 maxLength) ++ "...")%string.

End Masonry.

(** * Properties *)

(** ** Sample evaluations *)

Example toISOString_epoch :
  JSDate.toISOString (JSDate.Instant 0) = Some "1970-01-01T00:00:00.000Z"%string.
Proof. reflexivity. Qed.

Example toISOString_before_epoch :
  JSDate.toISOString (JSDate.Instant (-1))
  = Some "1969-12-31T23:59:59.999Z"%string.
Proof. reflexivity. Qed.

Example toISOString_latest :
  JSDate.toISOString (JSDate.Instant 8640000000000000)
  = Some "+275760-09-13T00:00:00.000Z"%string.
Proof. reflexivity. Qed.

Example toISOString_year_zero_minus_one :
  JSDate.toISOString (JSDate.Instant (-62167219200001))
  = Some "-000001-12-31T23:59:59.999Z"%string.
Proof. reflexivity. Qed.

Example parse_leap_day :
  JSDate.parse "2024-02-29T23:59:59.999Z" = JSDate.Instant 1709251199999.
Proof. vm_compute. reflexivity. Qed.

Example parse_not_a_day :
  JSDate.parse "2023-02-30T22:13:20.000Z" = JSDate.InvalidDate.
Proof. vm_compute. reflexivity. Qed.

Example hashPassword_abc : Protection.hashPassword "abc" = "22ci3"%string.
Proof. reflexivity. Qed.

Example fallbackHash_collision :
  Protection.fallbackHash "Aa" = Protection.fallbackHash "BB".
Proof. reflexivity. Qed.

Example toString36_min_int32 :
  JS.toString36 (-2147483648) = "-zik0zk"%string.
Proof. reflexivity. Qed.

(** The scenario of the specification, where the fallback hash is in
    use. *)
Example scenario_orange17 :
  fst (Protection.authenticate Protection.insecure_page (Protection.OneNote "n1")
         (Some "orange17"%string)
         (Protection.setPassword Protection.insecure_page 0
            (Protection.OneNote "n1") "orange17" ∅)) = true
  /\ fst (Protection.authenticate Protection.insecure_page (Protection.OneNote "n1")
            (Some "wrong"%string)
            (Protection.setPassword Protection.insecure_page 0
               (Protection.OneNote "n1") "orange17" ∅)) = false
  /\ fst (Protection.authenticate Protection.insecure_page (Protection.OneNote "n1")
            None
            (Protection.clearProtection (Protection.OneNote "n1")
               (Protection.setPassword Protection.insecure_page 0
                  (Protection.OneNote "n1") "orange17" ∅))) = true.
Proof. repeat split; vm_compute; reflexivity. Qed.

(** A legacy note is moved to the database, the flag is set and the
    legacy entry is removed. *)
Example migration_moves_legacy_note :
  Store.migrateNotesToIndexedDB Store.legacy_host Store.legacy_world
  = (Store.Fulfilled true,
     {| Store.db := true;
        Store.store :=
          [("7"%string,
            {| Store.id := "7"; Store.content := "kept"; Store.title := None;
               Store.type := None; Store.color := None; Store.folderId := None;
               Store.createdAt := Store.VString "2023-11-14T22:13:20.000Z";
               Store.updatedAt := Store.VString "2023-11-14T22:13:20.000Z";
               Store.archivedAt := None; Store.deletedAt := None;
               Store.reminderTime := None;
               Store.voiceRecordings := Some [] |})];
        Store.localStorage := {[ Store.MIGRATED_KEY := "true"%string ]} |}).
Proof. vm_compute. reflexivity. Qed.

Example split_abcdefg :
  Chunk.splitLargeContent "abcdefg" 3 = Some ["abc"; "def"; "g"]%string.
Proof. reflexivity. Qed.

Example split_exact :
  Chunk.splitLargeContent "abcdef" 3 = Some ["abc"; "def"]%string.
Proof. reflexivity. Qed.

Example split_zero_runs_on :
  Chunk.splitLargeContent_fuel 50 "abc" 0 = None.
Proof. reflexivity. Qed.

(** ** Strings *)

Section StringFacts.

Lemma append_cons (c : ascii) (s1 s2 : string) :
  (String c s1 ++ s2)%string = String c (s1 ++ s2)%string.
Proof. reflexivity. Qed.

Lemma substring_zero_length (s : string) (n : nat) :
  String.substring n 0 s = EmptyString.
Proof.
  revert n. induction s as [|c s IH]; intros [|n]; simpl; auto.
Qed.

Lemma substring_whole (s : string) :
  String.substring 0 (String.length s) s = s.
Proof.
  induction s as [|c s IH]; simpl; [reflexivity | now rewrite IH].
Qed.

Lemma substring_past_end (s : string) (n m : nat) :
  String.length s <= n -> String.substring n m s = EmptyString.
Proof.
  revert n m. induction s as [|c s IH]; intros n m Hn.
  - destruct n, m; reflexivity.
  - destruct n as [|n]; simpl in Hn; [lia|].
    simpl. apply IH. lia.
Qed.

Lemma substring_split (s : string) (n m r : nat) :
  String.substring n (m + r) s
  = (String.substring n m s ++ String.substring (n + m) r s)%string.
Proof.
  revert n m. induction s as [|c s IH]; intros n m.
  - destruct n, m, r; reflexivity.
  - destruct n as [|n].
    + destruct m as [|m]; simpl.
      * reflexivity.
      * rewrite append_cons. f_equal. apply (IH 0%nat m).
    + simpl. apply IH.
Qed.

Lemma substring_length (s : string) (n m : nat) :
  String.length (String.substring n m s) = Nat.min m (String.length s - n).
Proof.
  revert n m. induction s as [|c s IH]; intros n m.
  - destruct n, m; reflexivity.
  - destruct n as [|n].
    + destruct m as [|m]; simpl; [reflexivity|].
      f_equal. rewrite (IH 0 m). f_equal. lia.
    + simpl. apply IH.
Qed.

Lemma append_empty_r (s : string) : (s ++ EmptyString)%string = s.
Proof.
  induction s as [|c s IH]; [reflexivity | now rewrite append_cons, IH].
Qed.

Lemma concat_empty_cons (x : string) (xs : list string) :
  String.concat EmptyString (x :: xs)
  = (x ++ String.concat EmptyString xs)%string.
Proof.
  destruct xs as [|y ys]; simpl; [now rewrite append_empty_r | reflexivity].
Qed.

End StringFacts.

(** ** [splitLargeContent] *)

Module ChunkFacts.

Import Chunk.

Local Open Scope Z_scope.

Local Abbreviation len s := (Z.of_nat (String.length s)).

(** The chunk cut at an index inside the content. *)
Lemma slice_chunk (content : string) (s k : Z) :
  0 <= s < len content -> 0 < k ->
  JS.slice content s (s + k)
  = String.substring (Z.to_nat s) (Z.to_nat (Z.min k (len content - s))) content.
Proof.
  intros Hs Hk. unfold JS.slice, JS.rel_index.
  destruct (Z.ltb_spec s 0) as [?|_]; [lia|].
  destruct (Z.ltb_spec (s + k) 0) as [?|_]; [lia|].
  f_equal; f_equal; lia.
Qed.

Lemma chunked_lookup (k : Z) (l : list string) :
  chunked k l ->
  forall (i : nat) (x : string), l !! i = Some x ->
    1 <= len x <= k /\ ((S i < length l)%nat -> len x = k).
Proof.
  induction 1 as [|x Hx|x y l Hx Hl IH]; intros i z Hi.
  - discriminate.
  - destruct i; [|discriminate]. injection Hi as <-. simpl. split; [lia|lia].
  - destruct i as [|i].
    + injection Hi as <-. split; [|auto].
      destruct (IH 0%nat y eq_refl) as [? _]. lia.
    + destruct (IH i z Hi) as [H1 H2]. split; [exact H1|].
      simpl in *. intros ?. apply H2. lia.
Qed.

(** What the loop returns when started at any index, with enough fuel. *)
Lemma loop_spec (content : string) (k : Z) (Hk : 0 < k) :
  forall (fuel : nat) (st : SplitState),
    0 <= start st ->
    len content - start st <= Z.of_nat fuel ->
    exists rest,
      loop fuel content k st = Some (chunks st ++ rest)
      /\ String.concat EmptyString rest
         = String.substring (Z.to_nat (start st))
             (String.length content - Z.to_nat (start st)) content
      /\ chunked k rest
      /\ (rest <> [] -> start st < len content).
Proof.
  induction fuel as [|fuel IH]; intros st H0 Hfuel.
  - exists []. unfold loop, guard.
    destruct (Z.ltb_spec (start st) (len content)) as [?|Hge]; [lia|].
    rewrite app_nil_r. repeat split; [|constructor|congruence].
    simpl. replace (String.length content - Z.to_nat (start st))%nat with 0%nat by lia.
    now rewrite substring_zero_length.
  - simpl. unfold guard.
    destruct (Z.ltb_spec (start st) (len content)) as [Hlt|Hge].
    + destruct (IH (body content k st)) as (rest & Hloop & Hcat & Hch & Hne).
      { simpl. lia. } { simpl. lia. }
      simpl in Hloop, Hcat, Hne.
      exists (JS.slice content (start st) (start st + k) :: rest).
      rewrite Hloop, <- app_assoc.
      split; [reflexivity|]. rewrite concat_empty_cons, Hcat.
      rewrite slice_chunk by lia.
      assert (Hlen : len (String.substring (Z.to_nat (start st))
                (Z.to_nat (Z.min k (len content - start st))) content)
              = Z.min k (len content - start st)).
      { rewrite substring_length. lia. }
      split; [|split; [|intros _; exact Hlt]].
      * destruct (Z.le_gt_cases k (len content - start st)) as [Hin|Hout].
        -- replace (String.length content - Z.to_nat (start st))%nat
             with (Z.to_nat k + (String.length content - Z.to_nat (start st + k)))%nat
             by lia.
           rewrite substring_split. f_equal.
           ++ f_equal. lia.
           ++ f_equal. lia.
        -- rewrite (substring_past_end content (Z.to_nat (start st + k))) by lia.
           rewrite append_empty_r. f_equal. lia.
      * destruct rest as [|y rest].
        -- constructor. lia.
        -- constructor; [|exact Hch].
           assert (start st + k < len content) by (apply Hne; congruence).
           lia.
    + exists []. rewrite app_nil_r. repeat split; [|constructor|congruence].
      simpl. replace (String.length content - Z.to_nat (start st))%nat with 0%nat by lia.
      now rewrite substring_zero_length.
Qed.

(** More fuel does not change a result. *)
Lemma loop_more_fuel (content : string) (k : Z) :
  forall (fuel fuel' : nat) (st : SplitState) (r : list string),
    loop fuel content k st = Some r -> (fuel <= fuel')%nat ->
    loop fuel' content k st = Some r.
Proof.
  induction fuel as [|fuel IH]; intros fuel' st r Hr Hle.
  - destruct fuel'; simpl in *; destruct (guard content st); congruence.
  - destruct fuel' as [|fuel']; [lia|]. simpl in *.
    destruct (guard content st); [|exact Hr].
    apply IH with (1 := Hr). lia.
Qed.

(** With a chunk size that is not positive the index never moves up. *)
Lemma iterate_stuck (content : string) (k : Z) (Hk : k <= 0) :
  forall (n : nat) (st : SplitState),
    start st <= 0 -> start (iterate n content k st) <= 0.
Proof.
  induction n as [|n IH]; intros st Hst; simpl; [exact Hst|].
  apply IH. simpl. lia.
Qed.

Lemma loop_stuck (content : string) (k : Z) (Hk : k <= 0) :
  content <> EmptyString ->
  forall (fuel : nat) (st : SplitState),
    start st <= 0 -> loop fuel content k st = None.
Proof.
  intros Hne. assert (0 < len content) by (destruct content; [congruence|simpl; lia]).
  induction fuel as [|fuel IH]; intros st Hst; simpl; unfold guard;
    (destruct (Z.ltb_spec (start st) (len content)); [|lia]).
  - reflexivity.
  - apply IH. simpl. lia.
Qed.

End ChunkFacts.

(** C9.  For every content and every chunk size [k > 0],
    [splitLargeContent] returns a list whose concatenation is the
    content; every chunk has between 1 and [k] characters, and every chunk
    but the last has exactly [k]. *)
Theorem split_concat_and_lengths (content : string) (k : Z) :
  (0 < k)%Z ->
  exists chunks : list string,
    Chunk.splitLargeContent content k = Some chunks
    /\ String.concat EmptyString chunks = content
    /\ forall (i : nat) (x : string), chunks !! i = Some x ->
         (1 <= Z.of_nat (String.length x) <= k)%Z
         /\ ((S i < length chunks)%nat -> Z.of_nat (String.length x) = k).
Proof.
  intros Hk.
  destruct (ChunkFacts.loop_spec content k Hk (String.length content) Chunk.init)
    as (rest & Hloop & Hcat & Hch & _); simpl; [lia|lia|].
  exists rest. split; [exact Hloop|]. split.
  - rewrite Hcat. simpl. rewrite Nat.sub_0_r. apply substring_whole.
  - apply ChunkFacts.chunked_lookup. exact Hch.
Qed.

Lemma split_concat_and_lengths_witness :
  exists chunks : list string,
    Chunk.splitLargeContent "abcdefg" 3 = Some chunks
    /\ String.concat EmptyString chunks = "abcdefg"%string
    /\ forall (i : nat) (x : string), chunks !! i = Some x ->
         (1 <= Z.of_nat (String.length x) <= 3)%Z
         /\ ((S i < length chunks)%nat -> Z.of_nat (String.length x) = 3%Z).
Proof. apply (split_concat_and_lengths "abcdefg" 3). lia. Defined.

(** C10.  [splitLargeContent] terminates exactly when the content is
    empty or the chunk size is positive.  With a positive chunk size every
    iteration lowers [content.length - start] by the chunk size, and as
    many iterations as the content has characters suffice.  The empty
    content gives the empty list for every chunk size.  With a chunk size
    that is not positive and a content that is not empty, the index never
    gets above zero, the guard holds after any number of iterations, and
    no number of iterations ends the loop. *)
Theorem split_terminates_iff_positive (content : string) (k : Z) :
  ((exists fuel, Chunk.splitLargeContent_fuel fuel content k <> None)
   <-> (content = EmptyString \/ (0 < k)%Z))
  /\ (forall st, Chunk.guard content st = true ->
        Chunk.measure content (Chunk.body content k st)
        = (Chunk.measure content st - k)%Z
        /\ (0 < Chunk.measure content st)%Z)
  /\ ((0 < k)%Z ->
      forall fuel, (String.length content <= fuel)%nat ->
        Chunk.splitLargeContent_fuel fuel content k
        = Chunk.splitLargeContent content k
        /\ is_Some (Chunk.splitLargeContent content k))
  /\ (forall fuel, Chunk.splitLargeContent_fuel fuel EmptyString k = Some [])
  /\ ((k <= 0)%Z -> content <> EmptyString ->
      forall n,
        Chunk.guard content (Chunk.iterate n content k Chunk.init) = true
        /\ (Chunk.start (Chunk.iterate n content k Chunk.init) <= 0)%Z
        /\ Chunk.splitLargeContent_fuel n content k = None).
Proof.
  assert (Hpos : (0 < k)%Z ->
    exists r, Chunk.splitLargeContent content k = Some r).
  { intros Hk.
    destruct (ChunkFacts.loop_spec content k Hk (String.length content) Chunk.init)
      as (rest & Hloop & _); simpl; [lia|lia|]. eauto. }
  assert (Hempty : forall fuel,
    Chunk.splitLargeContent_fuel fuel EmptyString k = Some []).
  { intros [|fuel]; reflexivity. }
  split; [split|split; [|split; [|split]]].
  - intros [fuel Hfuel].
    destruct (Z.lt_ge_cases 0 k) as [?|Hk]; [now right|]. left.
    destruct content as [|c s]; [reflexivity|]. exfalso. apply Hfuel.
    apply ChunkFacts.loop_stuck; [lia|congruence|simpl; lia].
  - intros [->|Hk].
    + exists 0%nat. rewrite Hempty. congruence.
    + destruct (Hpos Hk) as [r Hr]. exists (String.length content).
      unfold Chunk.splitLargeContent in Hr. rewrite Hr. congruence.
  - intros st Hg. unfold Chunk.measure, Chunk.guard in *. simpl.
    apply Z.ltb_lt in Hg. lia.
  - intros Hk fuel Hfuel. destruct (Hpos Hk) as [r Hr]. rewrite Hr.
    split; [|eauto]. unfold Chunk.splitLargeContent in Hr.
    eapply ChunkFacts.loop_more_fuel; eauto.
  - exact Hempty.
  - intros Hk Hne n.
    assert (Hst : (Chunk.start (Chunk.iterate n content k Chunk.init) <= 0)%Z).
    { apply ChunkFacts.iterate_stuck; [exact Hk|simpl; lia]. }
    split; [|split; [exact Hst|]].
    + unfold Chunk.guard. apply Z.ltb_lt.
      destruct content; [congruence|simpl String.length; lia].
    + apply ChunkFacts.loop_stuck; [exact Hk|exact Hne|simpl; lia].
Qed.

(** ** Protection manager *)

Module ProtectionFacts.

Import Protection.

Lemma truthy_append_l (s1 s2 : string) :
  JS.truthy s1 = true -> JS.truthy (s1 ++ s2) = true.
Proof. destruct s1; [discriminate | reflexivity]. Qed.

Lemma truthy_toString36_digits (fuel : nat) :
  forall (n : N) (acc : string),
    JS.truthy (JS.toString36_digits fuel n acc) = true.
Proof.
  induction fuel as [|fuel IH]; intros n acc; simpl; [reflexivity|].
  destruct (n / 36 =? 0)%N; [reflexivity | apply IH].
Qed.

Lemma truthy_toString36 (z : Z) : JS.truthy (JS.toString36 z) = true.
Proof.
  unfold JS.toString36. destruct (z <? 0)%Z; [reflexivity|].
  apply truthy_toString36_digits.
Qed.

Lemma truthy_hashPassword (password : string) :
  JS.truthy (hashPassword password) = true.
Proof. apply truthy_append_l, truthy_toString36. Qed.

Lemma truthy_hashPasswordAsync (P : Platform) (password salt : string) :
  JS.truthy (hashPasswordAsync P password salt) = true.
Proof. unfold hashPasswordAsync. destruct (subtle P); reflexivity. Qed.

Lemma hashPasswordSecure_fresh (P : Platform) (draw : nat) (password : string) :
  hashPasswordSecure P draw password None
  = (hashPasswordAsync P password (generateSalt P draw), generateSalt P draw).
Proof. reflexivity. Qed.

Lemma verifyPassword_salted (P : Platform) (password h salt : string) :
  JS.truthy salt = true ->
  verifyPassword P password h (Some salt)
  = String.eqb (hashPasswordAsync P password salt) h.
Proof.
  intros Hs. unfold verifyPassword, hashPasswordSecure. simpl. now rewrite Hs.
Qed.

Lemma parse_stringify (p : NoteProtection) :
  JSON_parse_protection (JSON_stringify_protection p) = Some p.
Proof. destruct p as [[] []]; reflexivity. Qed.

Lemma truthy_stringify (p : NoteProtection) :
  JS.truthy (JSON_stringify_protection p) = true.
Proof. reflexivity. Qed.

(** The three keys of a note differ from one another. *)
Lemma note_keys_distinct (noteId : string) :
  getNoteProtectionKey noteId <> getNotePasswordKey noteId
  /\ getNoteProtectionKey noteId <> getNoteSaltKey noteId
  /\ getNotePasswordKey noteId <> getNoteSaltKey noteId.
Proof. repeat split; discriminate. Qed.

Lemma hidden_keys_distinct :
  HIDDEN_NOTES_PASSWORD_KEY <> HIDDEN_NOTES_SALT_KEY
  /\ HIDDEN_NOTES_PASSWORD_KEY <> HIDDEN_NOTES_USE_BIOMETRIC_KEY
  /\ HIDDEN_NOTES_SALT_KEY <> HIDDEN_NOTES_USE_BIOMETRIC_KEY.
Proof. repeat split; discriminate. Qed.

(** What is stored for a scope once [setPassword] has run. *)
Lemma setPassword_stored (P : Platform) (draw : nat) (scope : Scope)
  (x : string) (ls : gmap string string) :
  JS.truthy x = true ->
  let ls' := setPassword P draw scope x ls in
  stored_hash scope ls' = Some (hashPasswordAsync P x (generateSalt P draw))
  /\ stored_salt scope ls' = Some (generateSalt P draw)
  /\ hasPassword (protection_of scope ls') = true
  /\ useBiometric (protection_of scope ls')
     = match scope with
       | HiddenNotes => useBiometric (getHiddenNotesSettings ls)
       | OneNote _ => false
       end.
Proof.
  intros Hx.
  destruct scope as [|noteId];
    cbv zeta; unfold setPassword, stored_hash, stored_salt, protection_of.
  - unfold setHiddenNotesPassword. rewrite hashPasswordSecure_fresh.
    unfold getHiddenNotesSettings. cbn [hasPassword useBiometric].
    destruct hidden_keys_distinct as (H1 & H2 & H3).
    rewrite !lookup_insert_eq.
    rewrite (lookup_insert_ne _ HIDDEN_NOTES_SALT_KEY HIDDEN_NOTES_PASSWORD_KEY) by congruence.
    rewrite lookup_insert_eq.
    rewrite !(lookup_insert_ne _ _ HIDDEN_NOTES_USE_BIOMETRIC_KEY) by congruence.
    repeat split. simpl. apply truthy_hashPasswordAsync.
  - unfold setNoteProtection. cbn [truthy_item default]. rewrite Hx, hashPasswordSecure_fresh.
    destruct (note_keys_distinct noteId) as (H1 & H2 & H3).
    unfold getNoteProtection.
    rewrite lookup_insert_eq.
    rewrite (lookup_insert_ne _ (getNoteSaltKey noteId) (getNotePasswordKey noteId)) by congruence.
    rewrite lookup_insert_eq.
    rewrite !(lookup_insert_ne _ _ (getNoteProtectionKey noteId)) by congruence.
    rewrite lookup_insert_eq, truthy_stringify, parse_stringify.
    repeat split.
Qed.

Lemma verify_of_stored (P : Platform) (scope : Scope) (p h salt : string)
  (ls : gmap string string) :
  stored_hash scope ls = Some h -> JS.truthy h = true ->
  stored_salt scope ls = Some salt -> JS.truthy salt = true ->
  verify_of P scope p ls = String.eqb (hashPasswordAsync P p salt) h.
Proof.
  intros Hh Hth Hs Hts.
  destruct scope; simpl in *;
    unfold verifyHiddenNotesPassword, verifyNotePassword;
    rewrite Hh, Hth, Hs; unfold salt_or_undefined; simpl; rewrite Hts;
    now apply verifyPassword_salted.
Qed.

(** The shape shared by the two [authenticateFor...] functions. *)
Lemma authenticate_unfold (P : Platform) (scope : Scope)
  (password : option string) (ls : gmap string string) :
  authenticate P scope password ls
  = let settings := protection_of scope ls in
    let reason := reason_of P scope in
    if negb (hasPassword settings) && negb (useBiometric settings)
    then (true, [])
    else
      let biometricResult :=
        if useBiometric settings
        then Some (authenticateWithBiometric P (Some reason)) else None in
      let log :=
        match biometricResult with
        | Some r => [BiometricAttempt reason r]
        | None => []
        end in
      if default false biometricResult then (true, log)
      else if truthy_item password && hasPassword settings
           then (verify_of P scope (default EmptyString password) ls,
                 log ++ [PasswordCheck (default EmptyString password)])
           else (false, log).
Proof. destruct scope; reflexivity. Qed.

(** After [clearProtection] nothing protects the scope. *)
Lemma clearProtection_unprotected (scope : Scope) (ls : gmap string string) :
  protection_of scope (clearProtection scope ls) = no_protection.
Proof.
  destruct scope as [|noteId]; simpl.
  - unfold getHiddenNotesSettings, clearHiddenNotesProtection.
    destruct hidden_keys_distinct as (H1 & H2 & H3).
    rewrite lookup_delete_eq.
    rewrite (lookup_delete_ne _ HIDDEN_NOTES_USE_BIOMETRIC_KEY) by congruence.
    rewrite (lookup_delete_ne _ HIDDEN_NOTES_SALT_KEY) by congruence.
    now rewrite lookup_delete_eq.
  - unfold getNoteProtection, removeNoteProtection.
    destruct (note_keys_distinct noteId) as (H1 & H2 & H3).
    rewrite (lookup_delete_ne _ (getNoteSaltKey noteId)) by congruence.
    rewrite (lookup_delete_ne _ (getNotePasswordKey noteId)) by congruence.
    now rewrite lookup_delete_eq.
Qed.

(** The hidden-notes area with no hash and no biometric flag is open to
    every password, and to none. *)
Lemma hidden_notes_unprotected (P : Platform) (password : option string)
  (ls : gmap string string) :
  ls !! HIDDEN_NOTES_PASSWORD_KEY = None ->
  useBiometric (getHiddenNotesSettings ls) = false ->
  authenticateForHiddenNotes P password ls = (true, []).
Proof.
  intros Hh Hb. unfold authenticateForHiddenNotes.
  rewrite Hb. unfold getHiddenNotesSettings at 1. simpl. now rewrite Hh.
Qed.

End ProtectionFacts.

Import Protection ProtectionFacts.

(** C2 (the code departs from the claim).  A note whose protection record
    announces a password while no hash is stored is closed to every
    password: [setNoteProtection] called without a password on a record
    with [hasPassword] leaves such a state, in which the scope has no
    stored hash and no biometric check, and [authenticateForNote] answers
    [false] whatever password is given, and when none is given. *)
Theorem note_without_hash_is_locked (P : Platform) (draw : nat)
  (noteId : string) (password : option string) :
  let ls := setNoteProtection P draw noteId password_only None ∅ in
  stored_hash (OneNote noteId) ls = None
  /\ useBiometric (protection_of (OneNote noteId) ls) = false
  /\ authenticateForNote P noteId password ls
     = match password with
       | Some p => if JS.truthy p then (false, [PasswordCheck p]) else (false, [])
       | None => (false, [])
       end.
Proof.
  cbv zeta. unfold setNoteProtection, password_only.
  cbn [truthy_item hasPassword negb stored_hash protection_of].
  destruct (note_keys_distinct noteId) as (H1 & H2 & H3).
  assert (Hp : getNoteProtection noteId
                 (<[getNoteProtectionKey noteId :=
                    JSON_stringify_protection
                      {| hasPassword := true; useBiometric := false |}]> ∅)
               = {| hasPassword := true; useBiometric := false |}).
  { unfold getNoteProtection. now rewrite lookup_insert_eq. }
  split; [|split].
  - rewrite lookup_insert_ne by congruence. apply lookup_empty.
  - now rewrite Hp.
  - unfold authenticateForNote. rewrite Hp.
    cbn [hasPassword useBiometric negb andb default app].
    unfold verifyNotePassword.
    rewrite lookup_insert_ne by congruence. rewrite lookup_empty.
    destruct password as [p|]; [|reflexivity].
    cbn [truthy_item default]. destruct (JS.truthy p); reflexivity.
Qed.

(** C3, as the specification states it, fails: the empty password is
    stored by [setHiddenNotesPassword] but never accepted, and where the
    fallback hash is in use two different passwords can have the same
    hash. *)
Lemma credential_lifecycle_counterexample :
  fst (authenticate insecure_page HiddenNotes (Some EmptyString)
         (setPassword insecure_page 0 HiddenNotes EmptyString ∅)) = false
  /\ useBiometric
       (protection_of HiddenNotes (setPassword insecure_page 0 HiddenNotes "Aa" ∅))
     = false
  /\ "Aa"%string <> "BB"%string
  /\ fst (authenticate insecure_page HiddenNotes (Some "BB"%string)
            (setPassword insecure_page 0 HiddenNotes "Aa" ∅)) = true.
Proof.
  split; [vm_compute; reflexivity|].
  split; [vm_compute; reflexivity|].
  split; [discriminate | vm_compute; reflexivity].
Qed.

(** C3, amended.  For every scope with biometric disabled and every
    password [x] that is not empty: after [setPassword(scope, x)],
    [authenticate(scope, x)] is true; [authenticate(scope, y)] is false
    for every [y] whose hash under the stored salt differs from that of
    [x], and when no password is given; and after [clearProtection(scope)]
    every call of [authenticate] is true. *)
Theorem credential_lifecycle (P : Platform) (draw : nat) (scope : Scope)
  (x : string) (ls : gmap string string) :
  JS.truthy x = true ->
  useBiometric (protection_of scope (setPassword P draw scope x ls)) = false ->
  fst (authenticate P scope (Some x) (setPassword P draw scope x ls)) = true
  /\ (forall y : string,
        hashPasswordAsync P y (generateSalt P draw)
        <> hashPasswordAsync P x (generateSalt P draw) ->
        fst (authenticate P scope (Some y) (setPassword P draw scope x ls)) = false)
  /\ fst (authenticate P scope None (setPassword P draw scope x ls)) = false
  /\ (forall p : option string,
        authenticate P scope p (clearProtection scope (setPassword P draw scope x ls))
        = (true, [])).
Proof.
  intros Hx Hbio.
  destruct (setPassword_stored P draw scope x ls Hx) as (Hh & Hs & Hp & _).
  assert (Hv : forall p, verify_of P scope p (setPassword P draw scope x ls)
    = String.eqb (hashPasswordAsync P p (generateSalt P draw))
        (hashPasswordAsync P x (generateSalt P draw))).
  { intros p. apply verify_of_stored; auto using truthy_hashPasswordAsync. }
  split; [|split; [|split]].
  - rewrite authenticate_unfold. cbv zeta. rewrite Hp, Hbio.
    cbn [negb andb default truthy_item]. rewrite Hx. cbn [andb fst].
    rewrite Hv. apply String.eqb_refl.
  - intros y Hy. rewrite authenticate_unfold. cbv zeta. rewrite Hp, Hbio.
    cbn [negb andb default truthy_item].
    destruct (JS.truthy y); [|reflexivity]. cbn [andb fst].
    rewrite Hv. now apply String.eqb_neq.
  - rewrite authenticate_unfold. cbv zeta. rewrite Hp, Hbio. reflexivity.
  - intros p. rewrite authenticate_unfold. cbv zeta.
    now rewrite clearProtection_unprotected.
Qed.

Lemma credential_lifecycle_witness :
  JS.truthy "orange17" = true
  /\ useBiometric
       (protection_of (OneNote "n1")
          (setPassword insecure_page 0 (OneNote "n1") "orange17" ∅)) = false
  /\ fst (authenticate insecure_page (OneNote "n1") (Some "orange17"%string)
            (setPassword insecure_page 0 (OneNote "n1") "orange17" ∅)) = true
  /\ (forall y : string,
        hashPasswordAsync insecure_page y (generateSalt insecure_page 0)
        <> hashPasswordAsync insecure_page "orange17" (generateSalt insecure_page 0) ->
        fst (authenticate insecure_page (OneNote "n1") (Some y)
               (setPassword insecure_page 0 (OneNote "n1") "orange17" ∅)) = false)
  /\ fst (authenticate insecure_page (OneNote "n1") None
            (setPassword insecure_page 0 (OneNote "n1") "orange17" ∅)) = false
  /\ (forall p : option string,
        authenticate insecure_page (OneNote "n1") p
          (clearProtection (OneNote "n1")
             (setPassword insecure_page 0 (OneNote "n1") "orange17" ∅))
        = (true, [])).
Proof.
  split; [reflexivity|]. split; [vm_compute; reflexivity|].
  apply (credential_lifecycle insecure_page 0 (OneNote "n1") "orange17" ∅).
  - reflexivity.
  - vm_compute; reflexivity.
Defined.

(** C6.  When biometric is enabled for a scope (whether or not a hash is
    stored with it) and the biometric check answers [true],
    [authenticate] answers [true] for every password argument and for
    none, and the only call made is the biometric one.  In every run, a
    password check is made only with biometric disabled, or after a
    biometric check that answered [false]. *)
Theorem biometric_precedence (P : Platform) (scope : Scope)
  (ls : gmap string string) :
  (useBiometric (protection_of scope ls) = true ->
   authenticateWithBiometric P (Some (reason_of P scope)) = true ->
   forall password : option string,
     authenticate P scope password ls
     = (true, [BiometricAttempt (reason_of P scope) true]))
  /\ (forall (password : option string) (p : string),
        In (PasswordCheck p) (snd (authenticate P scope password ls)) ->
        (useBiometric (protection_of scope ls) = false
         /\ snd (authenticate P scope password ls) = [PasswordCheck p])
        \/ (useBiometric (protection_of scope ls) = true
            /\ authenticateWithBiometric P (Some (reason_of P scope)) = false
            /\ snd (authenticate P scope password ls)
               = [BiometricAttempt (reason_of P scope) false; PasswordCheck p])).
Proof.
  split.
  - intros Hb Hgate password. rewrite authenticate_unfold. cbv zeta.
    rewrite Hb, Hgate, andb_false_r. reflexivity.
  - intros password p. rewrite authenticate_unfold. cbv zeta.
    destruct (hasPassword (protection_of scope ls)),
             (useBiometric (protection_of scope ls)),
             (authenticateWithBiometric P (Some (reason_of P scope))),
             password as [q|]; simpl;
      try destruct (JS.truthy q); simpl;
      intros Hin; try tauto;
      repeat match goal with
             | H : _ \/ _ |- _ => destruct H
             | H : False |- _ => destruct H
             | H : BiometricAttempt _ _ = PasswordCheck _ |- _ => discriminate H
             | H : PasswordCheck _ = PasswordCheck _ |- _ => injection H as ->
             end; auto.
Qed.

Lemma biometric_precedence_witness :
  useBiometric
    (protection_of HiddenNotes
       (setHiddenNotesBiometric true
          (setPassword unlocked_device 0 HiddenNotes "orange17" ∅))) = true
  /\ is_Some
       (stored_hash HiddenNotes
          (setHiddenNotesBiometric true
             (setPassword unlocked_device 0 HiddenNotes "orange17" ∅)))
  /\ forall password : option string,
       authenticate unlocked_device HiddenNotes password
         (setHiddenNotesBiometric true
            (setPassword unlocked_device 0 HiddenNotes "orange17" ∅))
       = (true, [BiometricAttempt (reason_of unlocked_device HiddenNotes) true]).
Proof.
  split; [vm_compute; reflexivity|]. split; [vm_compute; eauto|].
  apply (proj1 (biometric_precedence unlocked_device HiddenNotes
                  (setHiddenNotesBiometric true
                     (setPassword unlocked_device 0 HiddenNotes "orange17" ∅)))).
  - vm_compute; reflexivity.
  - reflexivity.
Defined.

(** C7.  [verifyPassword] with a salt (a string that is not empty)
    compares the salted hash of the password with the stored hash; with
    no salt (or the empty string) it answers [true] exactly when the
    legacy hash [hashPassword] of the password is the stored hash.  Hence
    a hash made by [hashPassword] and stored without a salt is verified by
    the same password, by [verifyPassword] and by the checks of both
    scopes. *)
Theorem verifyPassword_salted_or_legacy (P : Platform) (p h : string) :
  (forall salt : string, JS.truthy salt = true ->
     verifyPassword P p h (Some salt)
     = String.eqb (hashPasswordAsync P p salt) h)
  /\ (verifyPassword P p h None = true <-> hashPassword p = h)
  /\ verifyPassword P p h (Some EmptyString) = verifyPassword P p h None
  /\ verifyPassword P p (hashPassword p) None = true
  /\ (forall (scope : Scope) (ls : gmap string string),
        stored_hash scope ls = Some (hashPassword p) ->
        stored_salt scope ls = None ->
        verify_of P scope p ls = true).
Proof.
  split; [|split; [|split; [|split]]].
  - intros salt Hs. now apply verifyPassword_salted.
  - unfold verifyPassword. cbn [truthy_item]. apply String.eqb_eq.
  - reflexivity.
  - unfold verifyPassword. cbn [truthy_item]. apply String.eqb_refl.
  - intros scope ls Hh Hs.
    destruct scope; cbn [verify_of stored_hash stored_salt] in *;
      unfold verifyHiddenNotesPassword, verifyNotePassword;
      rewrite Hh, Hs, truthy_hashPassword;
      unfold salt_or_undefined, verifyPassword; cbn [truthy_item];
      apply String.eqb_refl.
Qed.

Lemma verifyPassword_salted_or_legacy_witness :
  verifyPassword insecure_page "orange17" "fallback_1mxpcpq" (Some "00"%string)
  = String.eqb (hashPasswordAsync insecure_page "orange17" "00") "fallback_1mxpcpq"
  /\ verify_of insecure_page HiddenNotes "orange17"
       (<[HIDDEN_NOTES_PASSWORD_KEY := hashPassword "orange17"]> ∅) = true.
Proof.
  split.
  - apply (proj1 (verifyPassword_salted_or_legacy insecure_page "orange17"
                    "fallback_1mxpcpq")). reflexivity.
  - apply (proj2 (proj2 (proj2 (proj2
      (verifyPassword_salted_or_legacy insecure_page "orange17" EmptyString))))
      HiddenNotes).
    + vm_compute; reflexivity.
    + vm_compute; reflexivity.
Defined.

(** ** Write scheduler *)

Module SchedulerFacts.

Import Store Scheduler.

Local Open Scope Z_scope.

Lemma init_one_pending (w : World) : one_pending (init w).
Proof. now left. Qed.

Lemma clearTimeout_own (t : Timer) : clearTimeout (handle t) [t] = [].
Proof. unfold clearTimeout. simpl. now rewrite Nat.eqb_refl. Qed.

(** A delay in the range of [setTimeout] is the time the timer waits. *)
Lemma timeout_in_range (delay : option Z) :
  in_range delay -> timeout_of delay = delay_or_default delay.
Proof.
  unfold in_range, timeout_of, JS.toInt32. intros Hd.
  rewrite Z.mod_small by lia.
  destruct (Z.ltb_spec (delay_or_default delay) 2147483648); lia.
Qed.

(** A call leaves its own timer alone in the queue. *)
Lemma call_arms (notes : list Note) (delay : option Z) (s : State) :
  one_pending s ->
  armed (debouncedSaveNotes notes delay s) notes (timeout_of delay)
    (saves s) (world s).
Proof.
  intros Hs. unfold debouncedSaveNotes.
  assert (Hkept : match saveTimeout s with
                  | Some h => clearTimeout h (timers s)
                  | None => timers s
                  end = []).
  { destruct Hs as [Hnil|(t & Ht & Hh)].
    - rewrite Hnil. now destruct (saveTimeout s).
    - rewrite Ht, Hh. apply clearTimeout_own. }
  rewrite Hkept. eexists. simpl. repeat split.
Qed.

Lemma armed_one_pending (s : State) notes remaining written w :
  armed s notes remaining written w -> one_pending s.
Proof. intros (t & Ht & Hh & _). right. eauto. Qed.

Lemma idle_one_pending (s : State) written w :
  idle s written w -> one_pending s.
Proof. intros (Ht & _). now left. Qed.

(** While time passes, the timer comes closer and nothing else changes. *)
Lemma wait_armed (dt : Z) (s : State) notes remaining written w :
  armed s notes remaining written w ->
  armed (wait dt s) notes (remaining - Z.max 0 dt) written w.
Proof.
  intros (t & Ht & Hh & Hn & Hd & Hw & Hworld).
  exists t. cbn [wait timers saveTimeout now saves world].
  repeat split; auto. lia.
Qed.

Lemma wait_idle (dt : Z) (s : State) written w :
  idle s written w -> idle (wait dt s) written w.
Proof. intros H. exact H. Qed.

(** A turn of the event loop before the timer is due runs nothing. *)
Lemma run_due_early (H : Host) (s : State) notes remaining written w :
  armed s notes remaining written w -> 0 < remaining ->
  armed (run_due H s) notes remaining written w.
Proof.
  intros (t & Ht & Hh & Hn & Hd & Hw & Hworld) Hr.
  unfold run_due. rewrite Ht. cbn [List.filter].
  destruct (Z.leb_spec (due t) (now s)) as [Hle|Hgt]; [lia|].
  exists t. cbn [negb by_due fold_left timers saveTimeout now saves world].
  repeat split; auto.
Qed.

(** A turn of the event loop when the timer is due runs its callback,
    once. *)
Lemma run_due_fires (H : Host) (s : State) notes remaining written w :
  armed s notes remaining written w -> remaining <= 0 ->
  idle (run_due H s) (written ++ [notes]) (snd (saveNotesToDB H notes w)).
Proof.
  intros (t & Ht & Hh & Hn & Hd & Hw & Hworld) Hr.
  unfold run_due, idle. rewrite Ht. cbn [List.filter].
  destruct (Z.leb_spec (due t) (now s)) as [Hle|Hgt]; [|lia].
  cbn [negb by_due fold_left insert_by_due fire timers saves world snapshot].
  now rewrite Hn, Hw, Hworld.
Qed.

(** With no timer pending, a turn of the event loop writes nothing. *)
Lemma run_due_idle (H : Host) (s : State) written w :
  idle s written w -> idle (run_due H s) written w.
Proof.
  intros (Ht & Hs & Hw). unfold run_due, idle. rewrite Ht. simpl. auto.
Qed.

Lemma run_due_one_pending (H : Host) (s : State) :
  one_pending s -> one_pending (run_due H s).
Proof.
  intros [Hnil|(t & Ht & Hh)].
  - eapply idle_one_pending, run_due_idle. now split.
  - assert (Ha : armed s (snapshot t) (due t - now s) (saves s) (world s)).
    { exists t. repeat split; auto. lia. }
    destruct (Z.lt_ge_cases 0 (due t - now s)) as [Hr|Hr].
    + exact (armed_one_pending _ _ _ _ _ (run_due_early H s _ _ _ _ Ha Hr)).
    + exact (idle_one_pending _ _ _ (run_due_fires H s _ _ _ _ Ha Hr)).
Qed.

Lemma step_one_pending (H : Host) (e : Step) (s : State) :
  one_pending s -> one_pending (step H s e).
Proof.
  intros Hs. destruct e as [notes delay|dt|]; cbn [step].
  - eapply armed_one_pending, call_arms, Hs.
  - exact Hs.
  - apply run_due_one_pending, Hs.
Qed.

(** The invariant holds after any sequence of calls, waits and turns of
    the event loop. *)
Lemma steps_one_pending (H : Host) (steps : list Step) :
  forall s : State, one_pending s -> one_pending (run_steps H steps s).
Proof.
  unfold run_steps.
  induction steps as [|e steps IH]; intros s Hs; simpl; [exact Hs|].
  apply IH, step_one_pending, Hs.
Qed.

Lemma run_steps_app (H : Host) (l1 l2 : list Step) (s : State) :
  run_steps H (l1 ++ l2) s = run_steps H l2 (run_steps H l1 s).
Proof. apply fold_left_app. Qed.

(** A burst of calls, each within the quiet interval of the one before,
    leaves the timer of the last call pending and writes nothing. *)
Lemma burst_arms_last (H : Host) (steps : list Step) :
  forall (s : State) notes remaining written w,
    armed s notes remaining written w ->
    within_quiet remaining steps ->
    armed (run_steps H steps s) (last_notes notes steps)
      (remaining_after remaining steps) written w.
Proof.
  unfold run_steps.
  induction steps as [|e steps IH]; intros s notes remaining written w Ha Hq;
    [exact Ha|].
  destruct e as [notes' delay|dt|]; cbn [within_quiet] in Hq;
    destruct Hq as [Hnow Hq];
    cbn [fold_left step last_notes remaining_after].
  - apply IH; [|exact Hq].
    pose proof (call_arms notes' delay s (armed_one_pending _ _ _ _ _ Ha))
      as Hc.
    rewrite (timeout_in_range delay Hnow) in Hc.
    destruct Ha as (t & _ & _ & _ & _ & Hw & Hworld).
    now rewrite Hw, Hworld in Hc.
  - rewrite Z.max_r by lia. apply IH; [|exact Hq].
    pose proof (wait_armed dt s _ _ _ _ Ha) as Ha'.
    now rewrite Z.max_r in Ha' by lia.
  - apply IH; [|exact Hq]. now apply run_due_early.
Qed.

(** Without a call, nothing is written once no timer is pending. *)
Lemma idle_stays (H : Host) (steps : list Step) :
  forall (s : State) written w,
    idle s written w -> no_call steps = true ->
    idle (run_steps H steps s) written w.
Proof.
  unfold run_steps.
  induction steps as [|e steps IH]; intros s written w Hi Hn; [exact Hi|].
  cbn [no_call forallb] in Hn. apply andb_true_iff in Hn as [He Hn].
  destruct e as [notes delay|dt|]; [discriminate He| |];
    cbn [fold_left step]; apply IH; auto.
  now apply run_due_idle.
Qed.

(** Without a further call, the pending timer runs at the first turn of
    the event loop that finds it due, and only then. *)
Lemma armed_then (H : Host) (steps : list Step) :
  forall (s : State) notes remaining written w,
    armed s notes remaining written w -> no_call steps = true ->
    if fired remaining steps
    then idle (run_steps H steps s) (written ++ [notes])
           (snd (saveNotesToDB H notes w))
    else armed (run_steps H steps s) notes
           (remaining_after remaining steps) written w.
Proof.
  unfold run_steps.
  induction steps as [|e steps IH]; intros s notes remaining written w Ha Hn;
    [exact Ha|].
  cbn [no_call forallb] in Hn. apply andb_true_iff in Hn as [He Hn].
  destruct e as [notes' delay|dt|]; [discriminate He| |];
    cbn [fold_left step fired remaining_after].
  - apply IH; [|exact Hn]. now apply wait_armed.
  - destruct (Z.leb_spec remaining 0) as [Hle|Hgt]; cbn [orb].
    + apply (idle_stays H steps); [|exact Hn].
      exact (run_due_fires H s _ _ _ _ Ha Hle).
    + apply IH; [|exact Hn]. now apply run_due_early.
Qed.

(** A delay of 2^31 milliseconds is not kept: the timer is due at once,
    and a call that comes 100 ms later is written as well. *)
Example delay_out_of_range_is_zero :
  timeout_of (Some 2147483648) = 0
  /\ saves (run_steps working_host
              [ DoCall [sample_note "1" "first draft" 0] (Some 2147483648);
                DoWait 100; DoRun;
                DoCall [sample_note "1" "second draft" 0] None;
                DoWait 500; DoRun ]
              (init empty_world))
     = [[sample_note "1" "first draft" 0];
        [sample_note "1" "second draft" 0]].
Proof. split; reflexivity. Qed.

(** Two calls in one task, with no delay: the first timer is cleared
    before the event loop comes to it, and only the second call is
    written. *)
Example calls_in_one_task_coalesce :
  saves (run_steps working_host
           [ DoCall [sample_note "1" "first draft" 0] (Some 0);
             DoCall [sample_note "1" "second draft" 0] (Some 0);
             DoRun ]
           (init empty_world))
  = [[sample_note "1" "second draft" 0]].
Proof. reflexivity. Qed.

End SchedulerFacts.

(** C8.  Take calls of [debouncedSaveNotes] with delays that [setTimeout]
    keeps (from 0 to below 2^31 ms; 500 ms by default), each coming
    before the delay of the call before it has passed, whatever turns the
    event loop takes in between.  They write nothing while they last and
    leave exactly one timer pending, that of the last call.  Without a
    further call, [saveNotesToDB] is called at the first turn of the event
    loop after the delay of the last call has passed, with the notes of
    the last call, and never before or again: exactly one write.  After
    any sequence of calls, waits and turns of the event loop at most one
    timer is pending, and after a call the only pending timer is the one
    this call has set. *)
Theorem debounce_coalesces (H : Store.Host) (w : Store.World)
  (notes : list Store.Note) (delay : option Z)
  (steps : list Scheduler.Step) :
  Scheduler.in_range delay ->
  Scheduler.within_quiet (Scheduler.delay_or_default delay) steps ->
  let s :=
    Scheduler.run_steps H (Scheduler.DoCall notes delay :: steps)
      (Scheduler.init w) in
  let final := Scheduler.last_notes notes steps in
  let remaining :=
    Scheduler.remaining_after (Scheduler.delay_or_default delay) steps in
  Scheduler.saves s = []
  /\ (exists t,
        Scheduler.timers s = [t] /\ Scheduler.snapshot t = final
        /\ Scheduler.saveTimeout s = Some (Scheduler.handle t)
        /\ Scheduler.due t = (Scheduler.now s + remaining)%Z)
  /\ (forall later : list Scheduler.Step,
        Scheduler.no_call later = true ->
        let s' := Scheduler.run_steps H later s in
        if Scheduler.fired remaining later
        then Scheduler.saves s' = [final]
             /\ Scheduler.timers s' = []
             /\ Scheduler.world s' = snd (Store.saveNotesToDB H final w)
        else Scheduler.saves s' = []
             /\ length (Scheduler.timers s') = 1%nat
             /\ Scheduler.world s' = w)
  /\ (forall trace : list Scheduler.Step,
        let s' := Scheduler.run_steps H trace (Scheduler.init w) in
        (length (Scheduler.timers s') <= 1)%nat
        /\ forall notes' delay',
             exists t,
               Scheduler.timers
                 (Scheduler.debouncedSaveNotes notes' delay' s') = [t]
               /\ Scheduler.snapshot t = notes'
               /\ Scheduler.saveTimeout
                    (Scheduler.debouncedSaveNotes notes' delay' s')
                  = Some (Scheduler.handle t)).
Proof.
  intros Hd Hq s final remaining.
  assert (Harmed : Scheduler.armed s final remaining [] w).
  { subst s final remaining. unfold Scheduler.run_steps.
    cbn [fold_left Scheduler.step].
    apply (SchedulerFacts.burst_arms_last H steps); [|exact Hq].
    rewrite <- (SchedulerFacts.timeout_in_range delay Hd).
    exact (SchedulerFacts.call_arms notes delay (Scheduler.init w)
             (SchedulerFacts.init_one_pending w)). }
  split; [|split; [|split]].
  - now destruct Harmed as (t & _ & _ & _ & _ & Hw & _).
  - destruct Harmed as (t & Ht & Hh & Hn & Hdue & _). eauto.
  - intros later Hn s'.
    pose proof (SchedulerFacts.armed_then H later s _ _ _ _ Harmed Hn) as Hl.
    fold s' in Hl. destruct (Scheduler.fired remaining later).
    + destruct Hl as (Ht & Hs & Hw). auto.
    + destruct Hl as (t & Ht & _ & _ & _ & Hs & Hw). rewrite Ht. auto.
  - intros trace s'.
    assert (Hone : Scheduler.one_pending s').
    { apply SchedulerFacts.steps_one_pending, SchedulerFacts.init_one_pending. }
    split.
    + destruct Hone as [Hnil|(t & Ht & _)]; [rewrite Hnil|rewrite Ht]; simpl; lia.
    + intros notes' delay'.
      destruct (SchedulerFacts.call_arms notes' delay' s' Hone)
        as (t & Ht & Hh & Hn & _). eauto.
Qed.

Lemma debounce_coalesces_witness :
  Scheduler.in_range None
  /\ Scheduler.within_quiet 500
       [ Scheduler.DoWait 100;
         Scheduler.DoCall [Store.sample_note "1" "first draft" 0] None;
         Scheduler.DoWait 499; Scheduler.DoRun;
         Scheduler.DoCall [Store.sample_note "1" "second draft" 0]
           (Some 200%Z) ]
  /\ Scheduler.saves
       (Scheduler.run_steps Store.working_host
          [ Scheduler.DoWait 150; Scheduler.DoRun;
            Scheduler.DoWait 50; Scheduler.DoRun; Scheduler.DoRun ]
          (Scheduler.run_steps Store.working_host
             [ Scheduler.DoCall [] None;
               Scheduler.DoWait 100;
               Scheduler.DoCall [Store.sample_note "1" "first draft" 0] None;
               Scheduler.DoWait 499; Scheduler.DoRun;
               Scheduler.DoCall [Store.sample_note "1" "second draft" 0]
                 (Some 200%Z) ]
             (Scheduler.init Store.empty_world)))
     = [[Store.sample_note "1" "second draft" 0]].
Proof.
  assert (Hd : Scheduler.in_range None)
    by (unfold Scheduler.in_range, Scheduler.delay_or_default,
          Scheduler.default_delay; simpl; lia).
  assert (Hq : Scheduler.within_quiet 500
    [ Scheduler.DoWait 100;
      Scheduler.DoCall [Store.sample_note "1" "first draft" 0] None;
      Scheduler.DoWait 499; Scheduler.DoRun;
      Scheduler.DoCall [Store.sample_note "1" "second draft" 0]
        (Some 200%Z) ]).
  { cbn [Scheduler.within_quiet].
    unfold Scheduler.in_range, Scheduler.delay_or_default,
      Scheduler.default_delay. simpl. lia. }
  split; [exact Hd|]. split; [exact Hq|].
  destruct (debounce_coalesces Store.working_host Store.empty_world [] None
              _ Hd Hq) as (_ & _ & Hlater & _).
  exact (proj1 (Hlater [ Scheduler.DoWait 150; Scheduler.DoRun;
                         Scheduler.DoWait 50; Scheduler.DoRun;
                         Scheduler.DoRun ] eq_refl)).
Defined.

(** ** Dates *)

Module JSDateFacts.

Import JSDate.

Local Open Scope Z_scope.

Local Ltac lia_div := Z.to_euclidean_division_equations; lia.

(** Within an era of 400 years, the year and the day of the year. *)
Lemma era_year_bounds (doe : Z) :
  0 <= doe < 146097 ->
  let yoe := (doe - doe / 1460 + doe / 36524 - doe / 146096) / 365 in
  0 <= yoe <= 399 /\ 0 <= doe - (365 * yoe + yoe / 4 - yoe / 100) <= 365.
Proof. intros H yoe. subst yoe. lia_div. Qed.

(** Within a year starting on 1 March, the month and the day. *)
Lemma month_day_bounds (doy : Z) :
  0 <= doy <= 365 ->
  let mp := (5 * doy + 2) / 153 in
  0 <= mp <= 11 /\ 1 <= doy - (153 * mp + 2) / 5 + 1 <= 31.
Proof. intros H mp. subst mp. lia_div. Qed.

(** [days_from_civil] inverts [civil_from_days], whose month, day and
    year are in range. *)
Lemma civil_roundtrip (z : Z) :
  forall y m d : Z,
    civil_from_days z = (y, m, d) ->
    days_from_civil y m d = z
    /\ 1 <= m <= 12 /\ 1 <= d <= 31
    /\ (z + 719468) / 146097 * 400 <= y <= (z + 719468) / 146097 * 400 + 400.
Proof.
  intros y m d. unfold civil_from_days.
  set (era := (z + 719468) / 146097).
  set (doe := z + 719468 - era * 146097).
  assert (Hdoe : 0 <= doe < 146097) by (subst doe era; lia_div).
  destruct (era_year_bounds doe Hdoe) as [Hyoe Hdoy].
  set (yoe := (doe - doe / 1460 + doe / 36524 - doe / 146096) / 365) in *.
  set (doy := doe - (365 * yoe + yoe / 4 - yoe / 100)) in *.
  destruct (month_day_bounds doy Hdoy) as [Hmp Hd].
  set (mp := (5 * doy + 2) / 153) in *.
  cbv zeta. intros E. injection E as Ey Em Ed.
  assert (Hm : 1 <= m <= 12 /\ (if 2 <? m then m - 3 else m + 9) = mp).
  { subst m. destruct (Z.ltb_spec mp 10);
      [destruct (Z.ltb_spec 2 (mp + 3)) | destruct (Z.ltb_spec 2 (mp - 9))]; lia. }
  destruct Hm as [Hm Hmp'].
  assert (Hy : (if m <=? 2 then y - 1 else y) = yoe + era * 400).
  { subst y. rewrite Em. destruct (m <=? 2); lia. }
  split; [|split; [exact Hm|split; [lia|]]].
  - unfold days_from_civil. rewrite Hy, Hmp'.
    replace ((yoe + era * 400) / 400) with era by lia_div.
    replace (yoe + era * 400 - era * 400) with yoe by lia.
    subst d. fold doy. subst doy doe. lia.
  - subst y. rewrite Em. destruct (m <=? 2); lia.
Qed.

(** *** Decimal digits *)

Lemma dval_dchar (n : Z) : dval (dchar n) = Some (n mod 10).
Proof.
  unfold dval, dchar.
  assert (H : 0 <= n mod 10 < 10) by (apply Z.mod_pos_bound; lia).
  rewrite N_ascii_embedding by lia.
  rewrite Z2N.id by lia.
  replace (48 + n mod 10 - 48) with (n mod 10) by lia.
  destruct (Z.leb_spec 0 (n mod 10)); [|lia].
  destruct (Z.leb_spec (n mod 10) 9); [reflexivity|lia].
Qed.

Lemma number_from_dchar (acc n : Z) (cs : list ascii) :
  number_from acc (dchar n :: cs) = number_from (acc * 10 + n mod 10) cs.
Proof. simpl. now rewrite dval_dchar. Qed.

Lemma number_digits2 (n : Z) :
  0 <= n < 100 -> number [dchar (n / 10); dchar n] = Some n.
Proof.
  intros H. unfold number. rewrite !number_from_dchar. simpl.
  f_equal. lia_div.
Qed.

Lemma number_digits3 (n : Z) :
  0 <= n < 1000 -> number [dchar (n / 100); dchar (n / 10); dchar n] = Some n.
Proof.
  intros H. unfold number. rewrite !number_from_dchar. simpl.
  f_equal. lia_div.
Qed.

Lemma number_digits4 (n : Z) :
  0 <= n < 10000 ->
  number [dchar (n / 1000); dchar (n / 100); dchar (n / 10); dchar n] = Some n.
Proof.
  intros H. unfold number. rewrite !number_from_dchar. simpl.
  f_equal. lia_div.
Qed.

Lemma number_digits6 (n : Z) :
  0 <= n < 1000000 ->
  number [dchar (n / 100000); dchar (n / 10000); dchar (n / 1000);
          dchar (n / 100); dchar (n / 10); dchar n] = Some n.
Proof.
  intros H. unfold number. rewrite !number_from_dchar. simpl.
  f_equal. lia_div.
Qed.

(** A digit is not a sign. *)
Lemma dchar_not_sign (n : Z) :
  Ascii.eqb (dchar n) "+" = false /\ Ascii.eqb (dchar n) "-" = false.
Proof.
  assert (H : 0 <= n mod 10 < 10) by (apply Z.mod_pos_bound; lia).
  assert (Hn : N_of_ascii (dchar n) = Z.to_N (48 + n mod 10)).
  { unfold dchar. apply N_ascii_embedding. lia. }
  split; apply Ascii.eqb_neq; intros E; rewrite E in Hn; simpl in Hn; lia.
Qed.

(** The time of day is rebuilt from its four fields. *)
Lemma time_of_day_fields (ms : Z) :
  0 <= ms < msPerDay ->
  0 <= ms / 3600000 < 100
  /\ 0 <= ms / 60000 mod 60 < 100
  /\ 0 <= ms / 1000 mod 60 < 100
  /\ 0 <= ms mod 1000 < 1000
  /\ ms / 3600000 * 3600000 + ms / 60000 mod 60 * 60000
     + ms / 1000 mod 60 * 1000 + ms mod 1000 = ms.
Proof. unfold msPerDay. intros H. lia_div. Qed.

Local Arguments dchar : simpl never.
Local Arguments number : simpl never.
Local Arguments days_from_civil : simpl never.
Local Arguments Z.mul : simpl never.
Local Arguments Z.add : simpl never.
Local Arguments Z.div : simpl never.
Local Arguments Z.modulo : simpl never.
Local Arguments Z.opp : simpl never.

Lemma parse_after_year_iso (y m d ms : Z) :
  1 <= m <= 12 -> 1 <= d <= 31 -> 0 <= ms < msPerDay ->
  parse_after_year y
    ("-"%char :: digits2 m
     ++ "-"%char :: digits2 d
     ++ "T"%char :: digits2 (ms / 3600000)
     ++ ":"%char :: digits2 (ms / 60000 mod 60)
     ++ ":"%char :: digits2 (ms / 1000 mod 60)
     ++ "."%char :: digits3 (ms mod 1000)
     ++ ["Z"%char])
  = Some (days_from_civil y m d * msPerDay + ms).
Proof.
  intros Hm Hd Hms.
  destruct (time_of_day_fields ms Hms) as (Hh & Hmi & Hs & Hml & Hsum).
  unfold digits3, digits2. cbn [app parse_after_year Ascii.eqb Bool.eqb andb].
  rewrite !number_digits2, number_digits3 by lia.
  f_equal. lia.
Qed.

(** Reading the text of a valid time value gives the time value back. *)
Lemma parse_fields_iso (t : Z) :
  valid_time t = true -> parse_fields (iso_chars t) = Some t.
Proof.
  unfold valid_time, maxTime. intros Hv.
  apply andb_true_iff in Hv. destruct Hv as [Hlo Hhi].
  apply Z.leb_le in Hlo, Hhi.
  unfold iso_chars.
  destruct (civil_from_days (t / msPerDay)) as [[y m] d] eqn:E.
  destruct (civil_roundtrip _ _ _ _ E) as (Hdays & Hm & Hd & Hy).
  assert (Hms : 0 <= t mod msPerDay < msPerDay)
    by (apply Z.mod_pos_bound; reflexivity).
  assert (Ht : t / msPerDay * msPerDay + t mod msPerDay = t)
    by (unfold msPerDay; lia_div).
  assert (Hyear : -1000000 < y < 1000000) by (unfold msPerDay in Hy; lia_div).
  assert (Hrest := parse_after_year_iso y m d (t mod msPerDay) Hm Hd Hms).
  rewrite Hdays, Ht in Hrest.
  unfold year_chars.
  destruct ((0 <=? y) && (y <=? 9999)) eqn:Hrange.
  - apply andb_true_iff in Hrange. destruct Hrange as [H0 H9].
    apply Z.leb_le in H0, H9.
    unfold digits4, digits3, digits2 at 1.
    cbn [app parse_fields].
    destruct (dchar_not_sign (y / 1000)) as [-> ->]. cbn [orb].
    rewrite number_digits4 by lia. exact Hrest.
  - assert (Hout : y < 0 \/ 9999 < y).
    { apply andb_false_iff in Hrange.
      destruct Hrange as [H|H]; apply Z.leb_gt in H; lia. }
    unfold digits6, digits4, digits3, digits2 at 1.
    cbn [app parse_fields].
    destruct (Z.ltb_spec y 0) as [Hneg|Hpos];
      cbn [Ascii.eqb Bool.eqb andb orb];
      rewrite number_digits6 by lia.
    + replace (- Z.abs y) with y by lia. exact Hrest.
    + replace (Z.abs y) with y by lia. exact Hrest.
Qed.

(** [new Date(date.toISOString())] is the same instant. *)
Lemma parse_toISOString (d : Date) (text : string) :
  toISOString d = Some text -> parse text = d.
Proof.
  destruct d as [t|]; [|discriminate]. simpl.
  destruct (valid_time t) eqn:Hv; [|discriminate].
  intros E. injection E as <-.
  unfold parse. rewrite list_ascii_of_string_of_list_ascii.
  rewrite parse_fields_iso by exact Hv.
  simpl. rewrite Hv. now rewrite String.eqb_refl.
Qed.

Lemma truthy_toISOString (d : Date) (text : string) :
  toISOString d = Some text -> JS.truthy text = true.
Proof.
  destruct d as [t|]; [|discriminate]. simpl.
  destruct (valid_time t); [|discriminate].
  intros E. injection E as <-.
  unfold iso_chars. destruct (civil_from_days (t / msPerDay)) as [[y m] d].
  unfold year_chars. destruct ((0 <=? y) && (y <=? 9999)); reflexivity.
Qed.

End JSDateFacts.

(** ** Record store *)

Module StoreFacts.

Import JSDate JSDateFacts Store.

(** *** Serialising and reviving one note *)

Lemma valid_date_roundtrip (v : TimeValue) :
  is_valid_date v = true ->
  exists text,
    toISOString_of v = Some text
    /\ JS.truthy text = true
    /\ VDate (new_Date (VString text)) = v.
Proof.
  destruct v as [[t|]|s]; try discriminate. intros Hv.
  cbn [is_valid_date] in Hv.
  assert (E : toISOString (Instant t)
              = Some (string_of_list_ascii (iso_chars t))).
  { simpl. now rewrite Hv. }
  exists (string_of_list_ascii (iso_chars t)).
  cbn [toISOString_of new_Date].
  split; [exact E|]. split.
  - exact (truthy_toISOString _ _ E).
  - f_equal. exact (parse_toISOString _ _ E).
Qed.

Lemma optional_roundtrip (v : option TimeValue) :
  is_valid_optional v = true ->
  exists v', opt_toISOString v = Some v' /\ revive_optional v' = v.
Proof.
  destruct v as [x|]; simpl; intros Hv.
  - destruct (valid_date_roundtrip x Hv) as (text & E & Ht & Hr).
    exists (Some (VString text)). rewrite E. simpl. rewrite Ht.
    split; [reflexivity | now f_equal].
  - exists None. split; reflexivity.
Qed.

Lemma mapM_cons_Some {A B : Type} (f : A -> option B) (x : A) (l : list A)
  (y : B) (k : list B) :
  f x = Some y -> mapM f l = Some k -> mapM f (x :: l) = Some (y :: k).
Proof.
  intros Ex El. apply mapM_Some. constructor; [exact Ex|].
  now apply mapM_Some.
Qed.

Lemma recording_roundtrip (r : VoiceRecording) :
  is_valid_date (timestamp r) = true ->
  exists r', serialize_recording r = Some r' /\ revive_recording r' = r.
Proof.
  intros Hr. destruct (valid_date_roundtrip _ Hr) as (text & Et & _ & Hrev).
  exists {| audio := audio r; timestamp := VString text |}.
  unfold serialize_recording, revive_recording. rewrite Et.
  split; [reflexivity|]. cbn [audio timestamp]. rewrite Hrev. now destruct r.
Qed.

Lemma recordings_roundtrip (rs : list VoiceRecording) :
  forallb (fun r => is_valid_date (timestamp r)) rs = true ->
  exists rs', mapM serialize_recording rs = Some rs'
              /\ map revive_recording rs' = rs.
Proof.
  induction rs as [|r rs IH]; cbn [forallb]; intros Hv.
  - exists []. split; reflexivity.
  - apply andb_true_iff in Hv. destruct Hv as [Hr Hrs].
    destruct (IH Hrs) as (rs' & E & Hmap).
    destruct (recording_roundtrip r Hr) as (r' & Er & Hrev).
    exists (r' :: rs'). split; [now apply mapM_cons_Some|].
    cbn [map]. now rewrite Hrev, Hmap.
Qed.

(** The record stored for a well-typed note revives to the note. *)
Lemma serialize_revive (note : Note) :
  well_typed note = true ->
  exists record,
    serialize note = Some record
    /\ revive record = note
    /\ id record = id note.
Proof.
  unfold well_typed. intros Hw.
  repeat (apply andb_true_iff in Hw; destruct Hw as [Hw ?]).
  destruct note as [i c ti ty co f cr up ar de re vr]; simpl in *.
  destruct vr as [rs|]; [|discriminate].
  destruct (valid_date_roundtrip cr Hw) as (tc & Ec & _ & Hc).
  destruct (valid_date_roundtrip up H3) as (tu & Eu & _ & Hu).
  destruct (optional_roundtrip ar H2) as (a' & Ea & Ha).
  destruct (optional_roundtrip de H1) as (d' & Ed & Hd).
  destruct (optional_roundtrip re H0) as (r' & Er & Hr).
  destruct (recordings_roundtrip rs H) as (rs' & Ers & Hrs).
  eexists. unfold serialize.
  cbn [id content title type color folderId createdAt updatedAt archivedAt
       deletedAt reminderTime voiceRecordings].
  rewrite Ec, Eu, Ea, Ed, Er, Ers. cbn [mbind option_bind].
  split; [reflexivity|]. split; [|reflexivity].
  unfold revive, revive_recordings.
  cbn [id content title type color folderId createdAt updatedAt archivedAt
       deletedAt reminderTime voiceRecordings].
  now rewrite Hc, Hu, Ha, Hd, Hr, Hrs.
Qed.

(** *** The order of the keys *)

Lemma key_lt_trans (a b c : string) : key_lt a b -> key_lt b c -> key_lt a c.
Proof.
  unfold key_lt. intros H1 H2.
  apply String_as_OT.cmp_lt in H1, H2. apply String_as_OT.cmp_lt.
  exact (String_as_OT.lt_trans _ _ _ H1 H2).
Qed.

Lemma compare_Gt_lt (a b : string) : String.compare a b = Gt -> key_lt b a.
Proof.
  unfold key_lt. intros H. rewrite String.compare_antisym, H. reflexivity.
Qed.


(** *** [put] *)

Lemma put_fresh_perm (k : string) (r : Note) (s : ObjectStore) :
  ~ In k (keys s) -> Permutation (put k r s) ((k, r) :: s).
Proof.
  induction s as [|[k' r'] s IH]; simpl; intros Hk; [reflexivity|].
  destruct (String.compare k k') eqn:E.
  - apply String.compare_eq_iff in E. subst k'. exfalso. apply Hk. now left.
  - reflexivity.
  - rewrite IH by (intros Hin; apply Hk; now right). apply perm_swap.
Qed.

Lemma put_sorted (k : string) (r : Note) (s : ObjectStore) :
  Sorted key_lt (keys s) -> Sorted key_lt (keys (put k r s)).
Proof.
  induction s as [|[k' r'] s IH]; simpl; intros Hs.
  - repeat constructor.
  - apply Sorted_inv in Hs. destruct Hs as [Hs Hhd].
    destruct (String.compare k k') eqn:E; simpl.
    + apply String.compare_eq_iff in E. subst k'. now constructor.
    + constructor; [now constructor | now constructor].
    + constructor; [now apply IH|].
      apply compare_Gt_lt in E.
      destruct s as [|[k'' r''] s]; simpl.
      * now constructor.
      * apply HdRel_inv in Hhd.
        destruct (String.compare k k''); simpl; now constructor.
Qed.

Lemma put_keyed (r : Note) (s : ObjectStore) :
  keyed s -> keyed (put (id r) r s).
Proof.
  unfold keyed. induction s as [|[k' r'] s IH]; simpl; intros Hs.
  - now repeat constructor.
  - inversion Hs as [|? ? Hh Ht]; subst.
    destruct (String.compare (id r) k'); repeat constructor; auto.
Qed.


(** *** [put_all] on well-typed notes *)

Lemma put_all_well_typed (notes : list Note) :
  Forall (fun n => well_typed n = true) notes ->
  exists records,
    records_of notes = Some records
    /\ map revive records = notes
    /\ map id records = map id notes
    /\ forall s,
         put_all notes s
         = Some (fold_left (fun s r => put (id r) r s) records s).
Proof.
  induction 1 as [|n notes Hn Hns (records & E & Hrev & Hid & Hput)].
  - exists []. repeat split.
  - destruct (serialize_revive n Hn) as (r & Er & Hr & Hi).
    exists (r :: records). unfold records_of in *.
    split; [now apply mapM_cons_Some|].
    cbn [map]. split; [now rewrite Hr, Hrev|].
    split; [now rewrite Hi, Hid|].
    intros s. cbn [put_all fold_left]. rewrite Er. apply Hput.
Qed.

Lemma fold_put_perm (records : list Note) :
  forall s : ObjectStore,
    List.NoDup (map id records ++ keys s) ->
    Permutation (fold_left (fun s r => put (id r) r s) records s)
      (map (fun r => (id r, r)) records ++ s).
Proof.
  induction records as [|r records IH]; simpl; intros s Hnd; [reflexivity|].
  assert (Hfresh : ~ In (id r) (keys s)).
  { apply NoDup_cons_iff in Hnd. destruct Hnd as [Hr _].
    intros Hin. apply Hr, in_or_app. now right. }
  rewrite IH.
  - rewrite (put_fresh_perm _ _ _ Hfresh). symmetry. apply Permutation_middle.
  - unfold keys in *.
    apply (Permutation_NoDup (l := map id records ++ id r :: map fst s)).
    + apply Permutation_app_head.
      change (id r :: map fst s) with (map fst ((id r, r) :: s)).
      apply Permutation_map. symmetry. now apply put_fresh_perm.
    + apply (Permutation_NoDup (l := id r :: map id records ++ map fst s));
        [apply Permutation_middle | exact Hnd].
Qed.




Lemma keyed_ids (s : ObjectStore) :
  keyed s -> map id (map snd s) = keys s.
Proof.
  unfold keyed, keys. induction 1 as [|[k r] s Hk Hs IH]; simpl in *;
    [reflexivity | now rewrite IH, Hk].
Qed.

Lemma revive_id (r : Note) : id (revive r) = id r.
Proof. reflexivity. Qed.

End StoreFacts.

Module MigrationFacts.

Import Store.

Lemma keys_differ : NOTES_KEY <> MIGRATED_KEY.
Proof. discriminate. Qed.

(** A run that finds the flag set only removes the legacy entry. *)
Lemma migrate_when_flagged (H : Host) (w : World) :
  localStorage w !! MIGRATED_KEY = Some "true"%string ->
  migrateNotesToIndexedDB H w
  = (Fulfilled false,
     set_localStorage (delete NOTES_KEY (localStorage w)) w).
Proof.
  intros Hf. unfold migrateNotesToIndexedDB.
  now rewrite bool_decide_eq_true_2.
Qed.

(** Once opened, the database stays open. *)
Lemma openDB_cached (H : Host) (w w1 : World) :
  openDB H w = Some w1 ->
  openDB H w1 = Some w1
  /\ localStorage w1 = localStorage w /\ store w1 = store w.
Proof.
  unfold openDB. destruct (db w) eqn:Hdb.
  - intros E. injection E as <-. now rewrite Hdb.
  - destruct (open_succeeds H); [|discriminate].
    intros E. injection E as <-. auto.
Qed.

(** [saveNotesToDB] when [put_all] fails: the same failure on the state
    it leaves. *)
Lemma save_failure_repeats (H : Host) (notes : list Note) (w : World) :
  put_all notes [] = None ->
  forall w1, snd (saveNotesToDB H notes w) = w1 ->
    saveNotesToDB H notes w1 = (fst (saveNotesToDB H notes w), w1)
    /\ localStorage w1 = localStorage w /\ store w1 = store w.
Proof.
  intros Hput w1 <-. unfold saveNotesToDB.
  destruct (openDB H w) as [w'|] eqn:Ho.
  - rewrite Hput. cbn [fst snd].
    destruct (openDB_cached H w w' Ho) as (Ho' & Hls & Hst).
    now rewrite Ho'.
  - cbn [fst snd]. now rewrite Ho.
Qed.

(** A run whose save is not fulfilled changes nothing durable, and a
    second run does as the first. *)
Lemma failed_save_repeats (H : Host) (w w' : World) (r : Promise unit) :
  localStorage w !! MIGRATED_KEY <> Some "true"%string ->
  (0 <? length (loadNotesFromLocalStorage H (localStorage w)))%nat = true ->
  saveNotesToDB H (loadNotesFromLocalStorage H (localStorage w)) w = (r, w') ->
  r = Rejected \/ r = Pending ->
  snd (migrateNotesToIndexedDB H w') = w'.
Proof.
  intros Hflag Hlen Hsave Hr.
  assert (Hput : put_all (loadNotesFromLocalStorage H (localStorage w)) [] = None).
  { unfold saveNotesToDB in Hsave.
    destruct (openDB H w); [|destruct Hr; congruence].
    destruct (put_all _ []); [destruct Hr; congruence | reflexivity]. }
  destruct (save_failure_repeats H _ w Hput w') as (Hs & Hls & _);
    [now rewrite Hsave|].
  unfold migrateNotesToIndexedDB. rewrite Hls.
  rewrite bool_decide_eq_false_2 by exact Hflag.
  rewrite Hlen, Hs, Hsave. cbn [fst].
  destruct Hr as [->| ->]; reflexivity.
Qed.

(** After a first run, either the flag is set, and the legacy entry is
    gone unless it was there and held no note, or a second run changes
    nothing at all. *)
Lemma migrate_first_run (H : Host) (w : World) :
  let w1 := snd (migrateNotesToIndexedDB H w) in
  (localStorage w1 !! MIGRATED_KEY = Some "true"%string
   /\ (localStorage w !! MIGRATED_KEY = Some "true"%string
       \/ localStorage w !! NOTES_KEY = None
       \/ loadNotesFromLocalStorage H (localStorage w) <> [] ->
       localStorage w1 !! NOTES_KEY = None))
  \/ snd (migrateNotesToIndexedDB H w1) = w1.
Proof.
  cbv zeta.
  destruct (migrateNotesToIndexedDB H w) as [r w1] eqn:E1. cbn [snd].
  unfold migrateNotesToIndexedDB in E1.
  destruct (bool_decide (localStorage w !! MIGRATED_KEY = Some "true"%string))
    eqn:Hflag.
  - apply bool_decide_eq_true_1 in Hflag. injection E1 as <- <-. left.
    cbn [set_localStorage localStorage].
    rewrite lookup_delete_ne by exact keys_differ.
    split; [exact Hflag | intros _; apply lookup_delete_eq].
  - apply bool_decide_eq_false_1 in Hflag.
    destruct (0 <? length (loadNotesFromLocalStorage H (localStorage w)))%nat
      eqn:Hlen.
    + destruct (saveNotesToDB H (loadNotesFromLocalStorage H (localStorage w)) w)
        as [[[]| |] w'] eqn:Hsave; injection E1 as <- <-.
      * left. cbn [set_localStorage localStorage].
        rewrite lookup_delete_ne by exact keys_differ.
        rewrite lookup_insert_eq. split; [reflexivity|].
        intros _. apply lookup_delete_eq.
      * right. apply (failed_save_repeats H w w' Rejected); auto.
      * right. apply (failed_save_repeats H w w' Pending); auto.
    + injection E1 as <- <-. left. cbn [set_localStorage localStorage].
      rewrite lookup_insert_eq. split; [reflexivity|].
      intros [Ht|[Hn|Hne]].
      * congruence.
      * rewrite lookup_insert_ne by (intros E; symmetry in E; exact (keys_differ E)).
        exact Hn.
      * exfalso. apply Hne. apply Nat.ltb_ge in Hlen.
        destruct (loadNotesFromLocalStorage H (localStorage w));
          [reflexivity | simpl in Hlen; lia].
Qed.

End MigrationFacts.






(** C5, as the specification states it, fails: when the legacy entry is
    present but holds no note, the first run only sets the flag, and the
    second run removes the entry. *)
Lemma migration_twice_counterexample :
  Store.localStorage
    (snd (Store.migrateNotesToIndexedDB Store.working_host
            {| Store.db := false; Store.store := [];
               Store.localStorage := {[ Store.NOTES_KEY := "[]"%string ]} |}))
  !! Store.NOTES_KEY = Some "[]"%string
  /\ Store.localStorage
       (snd (Store.migrateNotesToIndexedDB Store.working_host
               (snd (Store.migrateNotesToIndexedDB Store.working_host
                       {| Store.db := false; Store.store := [];
                          Store.localStorage :=
                            {[ Store.NOTES_KEY := "[]"%string ]} |}))))
     !! Store.NOTES_KEY = None.
Proof. split; vm_compute; reflexivity. Qed.

(** C5, amended.  A second run of [migrateNotesToIndexedDB] leaves the
    contents of the primary backend, the migration flag and every entry
    of [localStorage] other than the legacy 'notes' entry as the first run
    left them; the legacy entry is left as it was or removed.  When the
    flag was already set, or the legacy entry was absent, or it held at
    least one note, the second run changes nothing: two runs leave the
    same durable state as one. *)
Theorem migration_twice (H : Store.Host) (w : Store.World) :
  let w1 := snd (Store.migrateNotesToIndexedDB H w) in
  let w2 := snd (Store.migrateNotesToIndexedDB H w1) in
  Store.store w2 = Store.store w1
  /\ Store.localStorage w2 !! Store.MIGRATED_KEY
     = Store.localStorage w1 !! Store.MIGRATED_KEY
  /\ (forall k, k <> Store.NOTES_KEY ->
        Store.localStorage w2 !! k = Store.localStorage w1 !! k)
  /\ (Store.localStorage w2 !! Store.NOTES_KEY
      = Store.localStorage w1 !! Store.NOTES_KEY
      \/ Store.localStorage w2 !! Store.NOTES_KEY = None)
  /\ (Store.localStorage w !! Store.MIGRATED_KEY = Some "true"%string
      \/ Store.localStorage w !! Store.NOTES_KEY = None
      \/ Store.loadNotesFromLocalStorage H (Store.localStorage w) <> [] ->
      Store.durable w2 = Store.durable w1).
Proof.
  intros w1 w2.
  destruct (MigrationFacts.migrate_first_run H w) as [[Hflag Hgone]|Hsame];
    fold w1 in Hflag, Hgone || fold w1 in Hsame.
  - assert (E : w2 = Store.set_localStorage
                       (delete Store.NOTES_KEY (Store.localStorage w1)) w1).
    { subst w2. now rewrite MigrationFacts.migrate_when_flagged. }
    rewrite E. cbn [Store.set_localStorage Store.store Store.localStorage].
    split; [reflexivity|]. split.
    { apply lookup_delete_ne. exact MigrationFacts.keys_differ. }
    split.
    { intros k Hk. apply lookup_delete_ne. congruence. }
    split.
    { right. apply lookup_delete_eq. }
    intros Hcase. unfold Store.durable.
    cbn [Store.set_localStorage Store.store Store.localStorage].
    f_equal. apply delete_id. now apply Hgone.
  - fold w2 in Hsame. rewrite Hsame. repeat split; auto.
Qed.

Lemma migration_twice_witness :
  Store.loadNotesFromLocalStorage Store.legacy_host
    (Store.localStorage Store.legacy_world) <> []
  /\ Store.durable
       (snd (Store.migrateNotesToIndexedDB Store.legacy_host
               (snd (Store.migrateNotesToIndexedDB Store.legacy_host
                       Store.legacy_world))))
     = Store.durable
         (snd (Store.migrateNotesToIndexedDB Store.legacy_host Store.legacy_world)).
Proof.
  assert (Hlegacy : Store.loadNotesFromLocalStorage Store.legacy_host
                      (Store.localStorage Store.legacy_world) <> []).
  { vm_compute. discriminate. }
  split; [exact Hlegacy|].
  apply (proj2 (proj2 (proj2 (proj2
           (migration_twice Store.legacy_host Store.legacy_world))))).
  right. right. exact Hlegacy.
Defined.

(** * Further properties *)

(** ** Single records of the store *)

Module StoreOpsFacts.

Import Store StoreOps StoreFacts.

Lemma key_lt_neq (a b : string) : key_lt a b -> a <> b.
Proof.
  unfold key_lt. intros Hlt ->.
  assert (E : String.compare b b = Eq) by now apply String_as_OT.cmp_eq.
  congruence.
Qed.

Lemma sorted_keys_strong (s : ObjectStore) :
  Sorted key_lt (keys s) -> StronglySorted key_lt (keys s).
Proof.
  apply Sorted_StronglySorted. intros a b c. apply key_lt_trans.
Qed.

(** [put] leaves the entries under other keys as they were. *)
Lemma put_other_keys (k : string) (r : Note) (s : ObjectStore) :
  List.filter (fun e => negb (String.eqb (fst e) k)) (put k r s)
  = List.filter (fun e => negb (String.eqb (fst e) k)) s.
Proof.
  induction s as [|[k' r'] s IH]; simpl.
  - now rewrite String.eqb_refl.
  - destruct (String.compare k k') eqn:E; simpl.
    + apply String.compare_eq_iff in E. subst k'.
      now rewrite String.eqb_refl.
    + now rewrite String.eqb_refl.
    + now rewrite IH.
Qed.

(** In a store with ascending keys, [put] leaves one entry under its key. *)
Lemma put_own_key (k : string) (r : Note) (s : ObjectStore) :
  Sorted key_lt (keys s) ->
  List.filter (fun e => String.eqb (fst e) k) (put k r s) = [(k, r)].
Proof.
  intros Hs. apply sorted_keys_strong in Hs.
  assert (Habove : forall s' : ObjectStore,
            Forall (fun k' => key_lt k k') (keys s') ->
            List.filter (fun e => String.eqb (fst e) k) s' = []).
  { induction s' as [|[k' r'] s' IH]; simpl; intros Hall; [reflexivity|].
    inversion Hall as [|? ? Hh Ht]; subst.
    destruct (String.eqb_spec k' k) as [->|_]; [|now apply IH].
    now apply key_lt_neq in Hh. }
  induction s as [|[k' r'] s IH]; simpl in *.
  - now rewrite String.eqb_refl.
  - apply StronglySorted_inv in Hs. destruct Hs as [Hs Hall].
    destruct (String.compare k k') eqn:E; simpl.
    + apply String.compare_eq_iff in E. subst k'.
      rewrite String.eqb_refl. f_equal. now apply Habove.
    + rewrite String.eqb_refl. f_equal.
      apply (Habove ((k', r') :: s)). simpl. constructor; [exact E|].
      apply (List.Forall_impl (P := key_lt k')); [|exact Hall].
      intros a Ha. exact (key_lt_trans _ _ _ E Ha).
    + apply compare_Gt_lt in E.
      destruct (String.eqb_spec k' k) as [->|_].
      * now apply key_lt_neq in E.
      * now apply IH.
Qed.

Lemma remove_sorted (k : string) (s : ObjectStore) :
  Sorted key_lt (keys s) -> Sorted key_lt (keys (remove k s)).
Proof.
  intros Hs. apply sorted_keys_strong in Hs.
  apply StronglySorted_Sorted.
  unfold remove, keys in *.
  induction s as [|[k' r'] s IH]; simpl in *; [constructor|].
  apply StronglySorted_inv in Hs. destruct Hs as [Hs Hall].
  destruct (negb (String.eqb k' k)); simpl; [|now apply IH].
  constructor; [now apply IH|].
  rewrite List.Forall_forall in *. intros x Hx. apply Hall.
  apply in_map_iff in Hx. destruct Hx as (e & <- & He).
  apply filter_In in He. apply in_map. tauto.
Qed.

Lemma remove_keyed (k : string) (s : ObjectStore) :
  keyed s -> keyed (remove k s).
Proof.
  unfold keyed, remove. rewrite !List.Forall_forall.
  intros Hs e He. apply filter_In in He. now apply Hs.
Qed.

Lemma put_store_ok (r : Note) (s : ObjectStore) :
  store_ok s -> store_ok (put (id r) r s).
Proof. intros [H1 H2]. split; [now apply put_sorted | now apply put_keyed]. Qed.

Lemma remove_store_ok (k : string) (s : ObjectStore) :
  store_ok s -> store_ok (remove k s).
Proof.
  intros [H1 H2]. split; [now apply remove_sorted | now apply remove_keyed].
Qed.

Lemma serialize_id (note record : Note) :
  serialize note = Some record -> id record = id note.
Proof.
  unfold serialize. intros E.
  repeat match type of E with
         | (match ?x with _ => _ end) = _ => destruct x; try discriminate
         | (?x ≫= _) = _ => destruct x; try discriminate; simpl in E
         end.
  now injection E as <-.
Qed.

Lemma put_all_store_ok (notes : list Note) :
  forall s s' : ObjectStore,
    put_all notes s = Some s' -> store_ok s -> store_ok s'.
Proof.
  induction notes as [|n notes IH]; simpl; intros s s' E Hs.
  - now injection E as <-.
  - destruct (serialize n) as [r|]; [|discriminate].
    apply (IH _ _ E). now apply put_store_ok.
Qed.

Lemma store_ok_empty : store_ok [].
Proof. split; constructor. Qed.

(** The loaded notes with a given [id] come from the entries under that
    key. *)
Lemma with_id_loaded (k : string) (s : ObjectStore) :
  keyed s ->
  with_id k (map revive (getAll s))
  = map revive (getAll (List.filter (fun e => String.eqb (fst e) k) s)).
Proof.
  unfold keyed, with_id, getAll.
  induction 1 as [|[k' r'] s Hk Hs IH]; simpl in *; [reflexivity|].
  rewrite <- Hk. destruct (String.eqb k' k); simpl; now rewrite IH.
Qed.

Lemma without_id_loaded (k : string) (s : ObjectStore) :
  keyed s ->
  without_id k (map revive (getAll s))
  = map revive (getAll (remove k s)).
Proof.
  unfold keyed, without_id, getAll, remove.
  induction 1 as [|[k' r'] s Hk Hs IH]; simpl in *; [reflexivity|].
  rewrite <- Hk. destruct (String.eqb k' k); simpl; now rewrite IH.
Qed.

Lemma openDB_available (H : Host) (w : World) :
  db w = true \/ open_succeeds H = true ->
  exists w1, openDB H w = Some w1 /\ db w1 = true
             /\ store w1 = store w /\ localStorage w1 = localStorage w.
Proof.
  unfold openDB. destruct (db w) eqn:Hdb; [eauto 6|].
  intros [?|Ho]; [discriminate|]. rewrite Ho. eauto 6.
Qed.

Lemma loaded_open (H : Host) (w : World) :
  db w = true -> loaded H w = map revive (getAll (store w)).
Proof.
  intros Hdb. unfold loaded, loadNotesFromDB, openDB. now rewrite Hdb.
Qed.

Lemma loaded_available (H : Host) (w : World) :
  db w = true \/ open_succeeds H = true ->
  loaded H w = map revive (getAll (store w)).
Proof.
  intros Ha. destruct (openDB_available H w Ha) as (w1 & Ho & _ & Hs & _).
  unfold loaded, loadNotesFromDB. rewrite Ho. cbn [fst]. now rewrite Hs.
Qed.

Lemma remove_absent (k : string) (s : ObjectStore) :
  ~ In k (keys s) -> remove k s = s.
Proof.
  unfold remove, keys. induction s as [|[k' r'] s IH]; simpl; intros Hk;
    [reflexivity|].
  destruct (String.eqb_spec k' k) as [->|_]; simpl.
  - exfalso. apply Hk. now left.
  - f_equal. apply IH. intros Hin. apply Hk. now right.
Qed.

Lemma remove_twice (k : string) (s : ObjectStore) :
  remove k (remove k s) = remove k s.
Proof.
  unfold remove. induction s as [|[k' r'] s IH]; simpl; [reflexivity|].
  destruct (String.eqb k' k) eqn:E; simpl; [exact IH|].
  rewrite E. simpl. now rewrite IH.
Qed.

Lemma openDB_keeps (H : Host) (w w1 : World) :
  openDB H w = Some w1 ->
  store w1 = store w /\ localStorage w1 = localStorage w.
Proof.
  unfold openDB. destruct (db w); [|destruct (open_succeeds H)];
    intros E; try discriminate; injection E as <-; auto.
Qed.

Lemma put_all_app (a b : list Note) :
  forall s : ObjectStore,
    put_all (a ++ b) s
    = match put_all a s with
      | Some s' => put_all b s'
      | None => None
      end.
Proof.
  induction a as [|n a IH]; simpl; intros s; [reflexivity|].
  destruct (serialize n); [apply IH | reflexivity].
Qed.

(** One note that cannot be serialised makes [put_all] fail. *)
Lemma put_all_fails (notes : list Note) (n : Note) :
  In n notes -> serialize n = None ->
  forall s : ObjectStore, put_all notes s = None.
Proof.
  induction notes as [|m notes IH]; simpl; intros Hin Hn s; [tauto|].
  destruct Hin as [->|Hin]; [now rewrite Hn|].
  destruct (serialize m); [now apply IH | reflexivity].
Qed.

(** What [saveNotesToDB] stores for well-typed notes with distinct
    [id]s, as [loadNotesFromDB] reads it back. *)
Lemma saved_notes_loaded (notes : list Note) :
  forallb well_typed notes = true ->
  List.NoDup (map id notes) ->
  exists s : ObjectStore,
    put_all notes [] = Some s
    /\ Permutation (map revive (getAll s)) notes.
Proof.
  intros Hwt Hnd.
  assert (Hall : Forall (fun n => well_typed n = true) notes).
  { apply List.Forall_forall. now apply forallb_forall. }
  destruct (put_all_well_typed notes Hall) as (records & _ & Hrev & Hid & Hput).
  eexists. split; [apply Hput|].
  rewrite <- Hrev. apply Permutation_map. unfold getAll.
  rewrite fold_put_perm.
  - rewrite app_nil_r, map_map. simpl. now rewrite map_id.
  - simpl. rewrite app_nil_r, Hid. exact Hnd.
Qed.

(** A text where a [Date] is expected makes [serialize] throw. *)
Lemma serialize_text_throws (n : Note) :
  opt_toISOString (archivedAt n) = None
  \/ opt_toISOString (deletedAt n) = None
  \/ opt_toISOString (reminderTime n) = None ->
  serialize n = None.
Proof.
  intros Hopt. unfold serialize.
  destruct (toISOString_of (createdAt n)); simpl; [|reflexivity].
  destruct (toISOString_of (updatedAt n)); simpl; [|reflexivity].
  destruct (opt_toISOString (archivedAt n)) eqn:Ea; simpl; [|reflexivity].
  destruct (opt_toISOString (deletedAt n)) eqn:Ed; simpl; [|reflexivity].
  destruct (opt_toISOString (reminderTime n)) eqn:Er; simpl; [|reflexivity].
  destruct Hopt as [E|[E|E]]; discriminate E.
Qed.

End StoreOpsFacts.

(** X1.  With the database available, [saveNoteToDBSingle] of a
    well-typed note into a store in order is fulfilled; afterwards
    [loadNotesFromDB] returns that note, equal in every field, as the only
    note with its [id], and the notes with other [id]s exactly as before;
    [localStorage] is not touched and the store stays in order. *)
Theorem saveNoteToDBSingle_upserts (H : Store.Host) (w : Store.World)
  (note : Store.Note) :
  Store.db w = true \/ Store.open_succeeds H = true ->
  Store.well_typed note = true ->
  StoreOps.store_ok (Store.store w) ->
  fst (StoreOps.saveNoteToDBSingle H note w) = Store.Fulfilled tt
  /\ StoreOps.with_id (Store.id note)
       (StoreOps.loaded H (snd (StoreOps.saveNoteToDBSingle H note w)))
     = [note]
  /\ StoreOps.without_id (Store.id note)
       (StoreOps.loaded H (snd (StoreOps.saveNoteToDBSingle H note w)))
     = StoreOps.without_id (Store.id note) (StoreOps.loaded H w)
  /\ Store.localStorage (snd (StoreOps.saveNoteToDBSingle H note w))
     = Store.localStorage w
  /\ StoreOps.store_ok (Store.store (snd (StoreOps.saveNoteToDBSingle H note w))).
Proof.
  intros Ha Hwt [Hsorted Hkeyed].
  destruct (StoreOpsFacts.openDB_available H w Ha) as (w1 & Ho & Hdb & Hs & Hls).
  destruct (StoreFacts.serialize_revive note Hwt) as (r & Er & Hrev & Hid).
  unfold StoreOps.saveNoteToDBSingle. rewrite Ho, Er. cbn [fst snd].
  rewrite (StoreOpsFacts.loaded_open H (Store.set_store _ w1)) by exact Hdb.
  rewrite (StoreOpsFacts.loaded_available H w Ha).
  cbn [Store.set_store Store.store Store.localStorage]. rewrite Hs.
  assert (Hok : StoreOps.store_ok (Store.put (Store.id r) r (Store.store w))).
  { apply StoreOpsFacts.put_store_ok. now split. }
  split; [reflexivity|]. split; [|split; [|split; [exact Hls | exact Hok]]].
  - rewrite StoreOpsFacts.with_id_loaded by apply Hok.
    rewrite <- Hid, StoreOpsFacts.put_own_key by exact Hsorted.
    simpl. now rewrite Hrev.
  - rewrite !StoreOpsFacts.without_id_loaded by (apply Hok || exact Hkeyed).
    unfold Store.remove. now rewrite <- Hid, StoreOpsFacts.put_other_keys.
Qed.

Lemma saveNoteToDBSingle_upserts_witness :
  StoreOps.loaded Store.working_host
    (snd (StoreOps.saveNoteToDBSingle Store.working_host
            (Store.sample_note "1" "rewritten" 5)
            (snd (Store.saveNotesToDB Store.working_host
                    [Store.sample_note "2" "second" 1000;
                     Store.sample_note "1" "first" 0] Store.empty_world))))
  = [Store.sample_note "1" "rewritten" 5; Store.sample_note "2" "second" 1000]
  /\ StoreOps.with_id "1"
       (StoreOps.loaded Store.working_host
          (snd (StoreOps.saveNoteToDBSingle Store.working_host
                  (Store.sample_note "1" "rewritten" 5)
                  (snd (Store.saveNotesToDB Store.working_host
                          [Store.sample_note "2" "second" 1000;
                           Store.sample_note "1" "first" 0] Store.empty_world)))))
     = [Store.sample_note "1" "rewritten" 5].
Proof.
  split; [vm_compute; reflexivity|].
  apply (saveNoteToDBSingle_upserts Store.working_host
           (snd (Store.saveNotesToDB Store.working_host
                   [Store.sample_note "2" "second" 1000;
                    Store.sample_note "1" "first" 0] Store.empty_world))
           (Store.sample_note "1" "rewritten" 5)).
  - left. reflexivity.
  - vm_compute. reflexivity.
  - split.
    + vm_compute. repeat constructor.
    + vm_compute. repeat constructor.
Defined.

(** X2.  With the database available, [deleteNoteFromDB] is fulfilled;
    afterwards [loadNotesFromDB] returns the notes loaded before without
    those of the given [id], in the same order.  A store with no record
    under that [id] is left as it was, a second deletion changes nothing,
    [localStorage] is not touched and the store stays in order. *)
Theorem deleteNoteFromDB_removes (H : Store.Host) (w : Store.World)
  (noteId : string) :
  Store.db w = true \/ Store.open_succeeds H = true ->
  StoreOps.store_ok (Store.store w) ->
  fst (StoreOps.deleteNoteFromDB H noteId w) = Store.Fulfilled tt
  /\ StoreOps.loaded H (snd (StoreOps.deleteNoteFromDB H noteId w))
     = StoreOps.without_id noteId (StoreOps.loaded H w)
  /\ (~ In noteId (Store.keys (Store.store w)) ->
      Store.store (snd (StoreOps.deleteNoteFromDB H noteId w)) = Store.store w)
  /\ StoreOps.deleteNoteFromDB H noteId (snd (StoreOps.deleteNoteFromDB H noteId w))
     = StoreOps.deleteNoteFromDB H noteId w
  /\ Store.localStorage (snd (StoreOps.deleteNoteFromDB H noteId w))
     = Store.localStorage w
  /\ StoreOps.store_ok (Store.store (snd (StoreOps.deleteNoteFromDB H noteId w))).
Proof.
  intros Ha [Hsorted Hkeyed].
  destruct (StoreOpsFacts.openDB_available H w Ha) as (w1 & Ho & Hdb & Hs & Hls).
  assert (E : StoreOps.deleteNoteFromDB H noteId w
              = (Store.Fulfilled tt,
                 Store.set_store (Store.remove noteId (Store.store w)) w1)).
  { unfold StoreOps.deleteNoteFromDB. now rewrite Ho, Hs. }
  rewrite E. cbn [fst snd].
  rewrite (StoreOpsFacts.loaded_open H (Store.set_store _ w1)) by exact Hdb.
  rewrite (StoreOpsFacts.loaded_available H w Ha).
  cbn [Store.set_store Store.store Store.localStorage].
  split; [reflexivity|]. split; [|split; [|split; [|split]]].
  - now rewrite StoreOpsFacts.without_id_loaded.
  - apply StoreOpsFacts.remove_absent.
  - unfold StoreOps.deleteNoteFromDB, Store.openDB.
    cbn [Store.set_store Store.db Store.store]. rewrite Hdb.
    cbn [Store.set_store Store.db Store.store Store.localStorage].
    now rewrite StoreOpsFacts.remove_twice.
  - exact Hls.
  - apply StoreOpsFacts.remove_store_ok. now split.
Qed.

Lemma deleteNoteFromDB_removes_witness :
  StoreOps.loaded Store.working_host
    (snd (StoreOps.deleteNoteFromDB Store.working_host "1"
            (snd (Store.saveNotesToDB Store.working_host
                    [Store.sample_note "2" "second" 1000;
                     Store.sample_note "1" "first" 0] Store.empty_world))))
  = StoreOps.without_id "1"
      (StoreOps.loaded Store.working_host
         (snd (Store.saveNotesToDB Store.working_host
                 [Store.sample_note "2" "second" 1000;
                  Store.sample_note "1" "first" 0] Store.empty_world)))
  /\ StoreOps.loaded Store.working_host
       (snd (StoreOps.deleteNoteFromDB Store.working_host "1"
               (snd (Store.saveNotesToDB Store.working_host
                       [Store.sample_note "2" "second" 1000;
                        Store.sample_note "1" "first" 0] Store.empty_world))))
     = [Store.sample_note "2" "second" 1000].
Proof.
  split; [|vm_compute; reflexivity].
  apply (deleteNoteFromDB_removes Store.working_host
           (snd (Store.saveNotesToDB Store.working_host
                   [Store.sample_note "2" "second" 1000;
                    Store.sample_note "1" "first" 0] Store.empty_world)) "1").
  - left. reflexivity.
  - split; vm_compute; repeat constructor.
Defined.

(** X3.  No operation of the record store breaks the order of the store:
    from a store whose keys are strictly ascending and whose records are
    filed under their [id]s, [saveNotesToDB], [saveNoteToDBSingle],
    [deleteNoteFromDB] and [migrateNotesToIndexedDB] lead to such a store
    again, whatever the notes, the environment and the outcome.  The notes
    read from such a store are in strictly ascending order of [id]. *)
Theorem store_stays_in_order (H : Store.Host) (w : Store.World)
  (notes : list Store.Note) (note : Store.Note) (noteId : string) :
  StoreOps.store_ok (Store.store w) ->
  StoreOps.store_ok (Store.store (snd (Store.saveNotesToDB H notes w)))
  /\ StoreOps.store_ok (Store.store (snd (StoreOps.saveNoteToDBSingle H note w)))
  /\ StoreOps.store_ok (Store.store (snd (StoreOps.deleteNoteFromDB H noteId w)))
  /\ StoreOps.store_ok (Store.store (snd (Store.migrateNotesToIndexedDB H w)))
  /\ Sorted Store.key_lt
       (map Store.id (map Store.revive (Store.getAll (Store.store w)))).
Proof.
  intros Hok.
  assert (Hsave : forall l,
            StoreOps.store_ok (Store.store (snd (Store.saveNotesToDB H l w)))).
  { intros l. unfold Store.saveNotesToDB.
    destruct (Store.openDB H w) as [w1|] eqn:Ho; [|exact Hok].
    destruct (StoreOpsFacts.openDB_keeps H w w1 Ho) as [Hs _].
    destruct (Store.put_all l []) as [s|] eqn:Hput; cbn [snd].
    - cbn [Store.set_store Store.store].
      exact (StoreOpsFacts.put_all_store_ok l [] s Hput StoreOpsFacts.store_ok_empty).
    - now rewrite Hs. }
  split; [apply Hsave|]. split; [|split; [|split]].
  - unfold StoreOps.saveNoteToDBSingle.
    destruct (Store.openDB H w) as [w1|] eqn:Ho; [|exact Hok].
    destruct (StoreOpsFacts.openDB_keeps H w w1 Ho) as [Hs _].
    destruct (Store.serialize note) as [r|]; cbn [snd].
    + cbn [Store.set_store Store.store]. rewrite Hs.
      now apply StoreOpsFacts.put_store_ok.
    + now rewrite Hs.
  - unfold StoreOps.deleteNoteFromDB.
    destruct (Store.openDB H w) as [w1|] eqn:Ho; [|exact Hok].
    destruct (StoreOpsFacts.openDB_keeps H w w1 Ho) as [Hs _].
    cbn [snd Store.set_store Store.store]. rewrite Hs.
    now apply StoreOpsFacts.remove_store_ok.
  - unfold Store.migrateNotesToIndexedDB.
    destruct (bool_decide _); [exact Hok|].
    destruct (0 <? _)%nat; [|exact Hok].
    specialize (Hsave (Store.loadNotesFromLocalStorage H (Store.localStorage w))).
    destruct (Store.saveNotesToDB H _ w) as [[[]| |] w']; exact Hsave.
  - destruct Hok as [Hsorted Hkeyed].
    rewrite map_map.
    rewrite (map_ext _ Store.id) by (intros; apply StoreFacts.revive_id).
    unfold Store.getAll. now rewrite StoreFacts.keyed_ids.
Qed.

Lemma store_stays_in_order_witness :
  StoreOps.store_ok
    (Store.store
       (snd (Store.saveNotesToDB Store.working_host
               [Store.sample_note "2" "second" 1000;
                Store.sample_note "1" "first" 0] Store.empty_world))).
Proof.
  apply (store_stays_in_order Store.working_host Store.empty_world
           [Store.sample_note "2" "second" 1000; Store.sample_note "1" "first" 0]
           (Store.sample_note "1" "first" 0) "1").
  split; simpl; constructor.
Defined.

(** X4.  With the database available, saving a list of well-typed notes
    with [saveNotesToDB] and then one more well-typed note with
    [saveNoteToDBSingle] gives the same result and the same state as
    saving the list with that note appended. *)
Theorem save_all_then_one (H : Store.Host) (w : Store.World)
  (notes : list Store.Note) (note : Store.Note) :
  Store.db w = true \/ Store.open_succeeds H = true ->
  forallb Store.well_typed notes = true ->
  Store.well_typed note = true ->
  StoreOps.saveNoteToDBSingle H note (snd (Store.saveNotesToDB H notes w))
  = Store.saveNotesToDB H (notes ++ [note]) w.
Proof.
  intros Ha Hwt Hn.
  destruct (StoreOpsFacts.openDB_available H w Ha) as (w1 & Ho & Hdb & _).
  assert (Hall : Forall (fun n => Store.well_typed n = true) notes).
  { apply List.Forall_forall. now apply forallb_forall. }
  destruct (StoreFacts.put_all_well_typed notes Hall) as (records & _ & _ & _ & Hput).
  destruct (StoreFacts.serialize_revive note Hn) as (r & Er & _ & _).
  unfold Store.saveNotesToDB. rewrite Ho, StoreOpsFacts.put_all_app, !Hput.
  cbn [snd Store.put_all]. rewrite Er.
  unfold StoreOps.saveNoteToDBSingle, Store.openDB.
  cbn [Store.set_store Store.db]. rewrite Hdb, Er. reflexivity.
Qed.

Lemma save_all_then_one_witness :
  StoreOps.saveNoteToDBSingle Store.working_host
    (Store.sample_note "1" "first" 0)
    (snd (Store.saveNotesToDB Store.working_host
            [Store.sample_note "2" "second" 1000] Store.empty_world))
  = Store.saveNotesToDB Store.working_host
      ([Store.sample_note "2" "second" 1000] ++ [Store.sample_note "1" "first" 0])
      Store.empty_world.
Proof.
  apply (save_all_then_one Store.working_host Store.empty_world
           [Store.sample_note "2" "second" 1000] (Store.sample_note "1" "first" 0)).
  - right. reflexivity.
  - vm_compute. reflexivity.
  - vm_compute. reflexivity.
Defined.

(** X5.  With the database available, saving a well-typed note whose
    [id] is not in the store with [saveNoteToDBSingle] and deleting that
    [id] with [deleteNoteFromDB] gives the store back as it was. *)
Theorem save_one_then_delete (H : Store.Host) (w : Store.World)
  (note : Store.Note) :
  Store.db w = true \/ Store.open_succeeds H = true ->
  Store.well_typed note = true ->
  ~ In (Store.id note) (Store.keys (Store.store w)) ->
  Store.store
    (snd (StoreOps.deleteNoteFromDB H (Store.id note)
            (snd (StoreOps.saveNoteToDBSingle H note w))))
  = Store.store w.
Proof.
  intros Ha Hn Hfresh.
  destruct (StoreOpsFacts.openDB_available H w Ha) as (w1 & Ho & Hdb & Hs & _).
  destruct (StoreFacts.serialize_revive note Hn) as (r & Er & _ & Hid).
  unfold StoreOps.saveNoteToDBSingle. rewrite Ho, Er. cbn [snd].
  unfold StoreOps.deleteNoteFromDB, Store.openDB.
  cbn [Store.set_store Store.db]. rewrite Hdb.
  cbn [snd Store.set_store Store.store]. rewrite Hs, Hid.
  unfold Store.remove. rewrite StoreOpsFacts.put_other_keys.
  now apply StoreOpsFacts.remove_absent.
Qed.

Lemma save_one_then_delete_witness :
  Store.store
    (snd (StoreOps.deleteNoteFromDB Store.working_host "1"
            (snd (StoreOps.saveNoteToDBSingle Store.working_host
                    (Store.sample_note "1" "first" 0)
                    (snd (Store.saveNotesToDB Store.working_host
                            [Store.sample_note "2" "second" 1000]
                            Store.empty_world))))))
  = Store.store
      (snd (Store.saveNotesToDB Store.working_host
              [Store.sample_note "2" "second" 1000] Store.empty_world)).
Proof.
  apply (save_one_then_delete Store.working_host
           (snd (Store.saveNotesToDB Store.working_host
                   [Store.sample_note "2" "second" 1000] Store.empty_world))
           (Store.sample_note "1" "first" 0)).
  - left. reflexivity.
  - vm_compute. reflexivity.
  - vm_compute. intros [E|[]]. discriminate E.
Defined.

(** X6.  When the database cannot be opened, [saveNoteToDBSingle] and
    [deleteNoteFromDB] are fulfilled and change nothing.  When the
    database is available and [createdAt] of the note is not a valid
    [Date], [saveNoteToDBSingle] is rejected and the store and
    [localStorage] stay as they were. *)
Theorem single_record_failures (H : Store.Host) (w : Store.World)
  (note : Store.Note) (noteId : string) :
  (Store.db w = false -> Store.open_succeeds H = false ->
   StoreOps.saveNoteToDBSingle H note w = (Store.Fulfilled tt, w)
   /\ StoreOps.deleteNoteFromDB H noteId w = (Store.Fulfilled tt, w))
  /\ (Store.db w = true \/ Store.open_succeeds H = true ->
      Store.is_valid_date (Store.createdAt note) = false ->
      fst (StoreOps.saveNoteToDBSingle H note w) = Store.Rejected
      /\ Store.durable (snd (StoreOps.saveNoteToDBSingle H note w))
         = Store.durable w).
Proof.
  split.
  - intros Hdb Ho.
    unfold StoreOps.saveNoteToDBSingle, StoreOps.deleteNoteFromDB, Store.openDB.
    now rewrite Hdb, Ho.
  - intros Ha Hbad.
    destruct (StoreOpsFacts.openDB_available H w Ha) as (w1 & Ho & _ & Hs & Hls).
    assert (Er : Store.serialize note = None).
    { unfold Store.serialize.
      destruct (Store.createdAt note) as [[t|]|text]; simpl in *;
        [now rewrite Hbad | reflexivity | reflexivity]. }
    unfold StoreOps.saveNoteToDBSingle, Store.durable.
    rewrite Ho, Er. cbn [fst snd]. now rewrite Hs, Hls.
Qed.

Lemma single_record_failures_witness :
  StoreOps.saveNoteToDBSingle Store.failing_host
    (Store.sample_note "1" "first" 0) Store.empty_world
  = (Store.Fulfilled tt, Store.empty_world)
  /\ fst (StoreOps.saveNoteToDBSingle Store.working_host
            (Store.sample_note "1" "first" 8640000000000001) Store.empty_world)
     = Store.Rejected.
Proof.
  split.
  - apply (proj1 (single_record_failures Store.failing_host Store.empty_world
                    (Store.sample_note "1" "first" 0) "1")); reflexivity.
  - apply (proj2 (single_record_failures Store.working_host Store.empty_world
                    (Store.sample_note "1" "first" 8640000000000001) "1")).
    + right. reflexivity.
    + reflexivity.
Defined.

(** ** Migration *)

(** X7.  With the database available and the flag not set, when the
    legacy entry holds at least one note, all of them well typed once
    revived and with pairwise distinct [id]s, [migrateNotesToIndexedDB]
    answers [true]; [loadNotesFromDB] then returns exactly the legacy
    notes, each equal in every field; the flag is set, the legacy entry is
    removed and no other entry of [localStorage] is changed. *)
Theorem migration_keeps_notes (H : Store.Host) (w : Store.World) :
  Store.db w = true \/ Store.open_succeeds H = true ->
  Store.localStorage w !! Store.MIGRATED_KEY <> Some "true"%string ->
  Store.loadNotesFromLocalStorage H (Store.localStorage w) <> [] ->
  forallb Store.well_typed
    (Store.loadNotesFromLocalStorage H (Store.localStorage w)) = true ->
  List.NoDup
    (map Store.id (Store.loadNotesFromLocalStorage H (Store.localStorage w))) ->
  fst (Store.migrateNotesToIndexedDB H w) = Store.Fulfilled true
  /\ Permutation
       (StoreOps.loaded H (snd (Store.migrateNotesToIndexedDB H w)))
       (Store.loadNotesFromLocalStorage H (Store.localStorage w))
  /\ Store.localStorage (snd (Store.migrateNotesToIndexedDB H w))
     !! Store.MIGRATED_KEY = Some "true"%string
  /\ Store.localStorage (snd (Store.migrateNotesToIndexedDB H w))
     !! Store.NOTES_KEY = None
  /\ (forall k, k <> Store.NOTES_KEY -> k <> Store.MIGRATED_KEY ->
        Store.localStorage (snd (Store.migrateNotesToIndexedDB H w)) !! k
        = Store.localStorage w !! k).
Proof.
  intros Ha Hflag Hne Hwt Hnd.
  destruct (StoreOpsFacts.openDB_available H w Ha) as (w1 & Ho & Hdb & Hs & Hls).
  destruct (StoreOpsFacts.saved_notes_loaded _ Hwt Hnd) as (s & Hput & Hperm).
  assert (Hlen : (0 <? length (Store.loadNotesFromLocalStorage H
                                 (Store.localStorage w)))%nat = true).
  { apply Nat.ltb_lt.
    destruct (Store.loadNotesFromLocalStorage H (Store.localStorage w));
      [congruence | simpl; lia]. }
  assert (E : Store.migrateNotesToIndexedDB H w
              = (Store.Fulfilled true,
                 Store.set_localStorage
                   (delete Store.NOTES_KEY
                      (<[Store.MIGRATED_KEY := "true"%string]> (Store.localStorage w)))
                   (Store.set_store s w1))).
  { unfold Store.migrateNotesToIndexedDB.
    rewrite bool_decide_eq_false_2 by exact Hflag. rewrite Hlen.
    unfold Store.saveNotesToDB. rewrite Ho, Hput.
    cbn [Store.set_store Store.localStorage]. now rewrite Hls. }
  rewrite E. cbn [fst snd].
  split; [reflexivity|]. split; [|split; [|split]].
  - rewrite StoreOpsFacts.loaded_open by exact Hdb. exact Hperm.
  - cbn [Store.set_localStorage Store.localStorage].
    rewrite lookup_delete_ne by exact MigrationFacts.keys_differ.
    apply lookup_insert_eq.
  - cbn [Store.set_localStorage Store.localStorage]. apply lookup_delete_eq.
  - intros k Hk1 Hk2. cbn [Store.set_localStorage Store.localStorage].
    rewrite lookup_delete_ne by congruence.
    apply lookup_insert_ne. congruence.
Qed.

Lemma migration_keeps_notes_witness :
  Store.loadNotesFromLocalStorage Store.legacy_host
    (Store.localStorage Store.legacy_world) <> []
  /\ fst (Store.migrateNotesToIndexedDB Store.legacy_host Store.legacy_world)
     = Store.Fulfilled true
  /\ Permutation
       (StoreOps.loaded Store.legacy_host
          (snd (Store.migrateNotesToIndexedDB Store.legacy_host Store.legacy_world)))
       (Store.loadNotesFromLocalStorage Store.legacy_host
          (Store.localStorage Store.legacy_world)).
Proof.
  assert (Hne : Store.loadNotesFromLocalStorage Store.legacy_host
                  (Store.localStorage Store.legacy_world) <> []).
  { vm_compute. discriminate. }
  split; [exact Hne|].
  destruct (migration_keeps_notes Store.legacy_host Store.legacy_world)
    as (H1 & H2 & _).
  - right. reflexivity.
  - vm_compute. discriminate.
  - exact Hne.
  - vm_compute. reflexivity.
  - vm_compute. repeat constructor. simpl. tauto.
  - split; assumption.
Defined.

(** X8.  When the database cannot be opened, the flag is not set and the
    legacy entry holds at least one note, [migrateNotesToIndexedDB] still
    answers [true], sets the flag and removes the legacy entry while the
    store is left as it was; [loadNotesFromDB], which returned the legacy
    notes before, returns the empty list afterwards. *)
Theorem migration_without_database (H : Store.Host) (w : Store.World) :
  Store.db w = false -> Store.open_succeeds H = false ->
  Store.localStorage w !! Store.MIGRATED_KEY <> Some "true"%string ->
  Store.loadNotesFromLocalStorage H (Store.localStorage w) <> [] ->
  Store.migrateNotesToIndexedDB H w
  = (Store.Fulfilled true,
     Store.set_localStorage
       (delete Store.NOTES_KEY
          (<[Store.MIGRATED_KEY := "true"%string]> (Store.localStorage w))) w)
  /\ StoreOps.loaded H w
     = Store.loadNotesFromLocalStorage H (Store.localStorage w)
  /\ StoreOps.loaded H (snd (Store.migrateNotesToIndexedDB H w)) = []
  /\ Store.store (snd (Store.migrateNotesToIndexedDB H w)) = Store.store w.
Proof.
  intros Hdb Ho Hflag Hne.
  assert (Hlen : (0 <? length (Store.loadNotesFromLocalStorage H
                                 (Store.localStorage w)))%nat = true).
  { apply Nat.ltb_lt.
    destruct (Store.loadNotesFromLocalStorage H (Store.localStorage w));
      [congruence | simpl; lia]. }
  assert (E : Store.migrateNotesToIndexedDB H w
              = (Store.Fulfilled true,
                 Store.set_localStorage
                   (delete Store.NOTES_KEY
                      (<[Store.MIGRATED_KEY := "true"%string]> (Store.localStorage w)))
                   w)).
  { unfold Store.migrateNotesToIndexedDB.
    rewrite bool_decide_eq_false_2 by exact Hflag. rewrite Hlen.
    unfold Store.saveNotesToDB, Store.openDB. now rewrite Hdb, Ho. }
  rewrite E. cbn [snd]. split; [reflexivity|]. split; [|split; [|reflexivity]].
  - unfold StoreOps.loaded, Store.loadNotesFromDB, Store.openDB.
    now rewrite Hdb, Ho.
  - unfold StoreOps.loaded, Store.loadNotesFromDB, Store.openDB.
    cbn [Store.set_localStorage Store.db Store.localStorage]. rewrite Hdb, Ho.
    cbn [fst]. unfold Store.loadNotesFromLocalStorage.
    now rewrite lookup_delete_eq.
Qed.

Lemma migration_without_database_witness :
  StoreOps.loaded
    {| Store.open_succeeds := false; Store.JSON_parse_notes := Store.parse_legacy |}
    Store.legacy_world
  = [Store.revive_legacy Store.legacy_entry]
  /\ StoreOps.loaded
       {| Store.open_succeeds := false; Store.JSON_parse_notes := Store.parse_legacy |}
       (snd (Store.migrateNotesToIndexedDB
               {| Store.open_succeeds := false;
                  Store.JSON_parse_notes := Store.parse_legacy |}
               Store.legacy_world))
     = [].
Proof.
  destruct (migration_without_database
              {| Store.open_succeeds := false;
                 Store.JSON_parse_notes := Store.parse_legacy |}
              Store.legacy_world) as (_ & H2 & H3 & _).
  - reflexivity.
  - reflexivity.
  - vm_compute. discriminate.
  - vm_compute. discriminate.
  - split; [|exact H3]. rewrite H2. vm_compute. reflexivity.
Defined.

(** X9.  With the database available and the flag not set, a legacy note
    that carries [archivedAt], [deletedAt] or [reminderTime] as a text, as
    [JSON.parse] delivers them, stops the migration: it does not answer
    [true], and the store, the flag and the legacy entry stay as they
    were. *)
Theorem migration_stops_on_text_timestamp (H : Store.Host) (w : Store.World)
  (n : Store.Note) (text : string) :
  Store.localStorage w !! Store.MIGRATED_KEY <> Some "true"%string ->
  In n (Store.loadNotesFromLocalStorage H (Store.localStorage w)) ->
  Store.archivedAt n = Some (Store.VString text)
  \/ Store.deletedAt n = Some (Store.VString text)
  \/ Store.reminderTime n = Some (Store.VString text) ->
  Store.db w = true \/ Store.open_succeeds H = true ->
  fst (Store.migrateNotesToIndexedDB H w) <> Store.Fulfilled true
  /\ Store.durable (snd (Store.migrateNotesToIndexedDB H w)) = Store.durable w.
Proof.
  intros Hflag Hin Htext Ha.
  destruct (StoreOpsFacts.openDB_available H w Ha) as (w1 & Ho & _ & Hs & Hls).
  assert (Er : Store.serialize n = None).
  { apply StoreOpsFacts.serialize_text_throws.
    destruct Htext as [E|[E|E]]; rewrite E; auto. }
  assert (Hput := StoreOpsFacts.put_all_fails _ n Hin Er []).
  assert (Hlen : (0 <? length (Store.loadNotesFromLocalStorage H
                                 (Store.localStorage w)))%nat = true).
  { apply Nat.ltb_lt.
    destruct (Store.loadNotesFromLocalStorage H (Store.localStorage w));
      [destruct Hin | simpl; lia]. }
  unfold Store.migrateNotesToIndexedDB.
  rewrite bool_decide_eq_false_2 by exact Hflag. rewrite Hlen.
  unfold Store.saveNotesToDB. rewrite Ho, Hput.
  unfold Store.durable.
  destruct (Store.first_throws _); cbn [fst snd]; rewrite Hs, Hls;
    split; congruence.
Qed.

Lemma migration_stops_on_text_timestamp_witness :
  fst (Store.migrateNotesToIndexedDB StoreOps.archived_host StoreOps.archived_world)
  <> Store.Fulfilled true
  /\ Store.durable
       (snd (Store.migrateNotesToIndexedDB StoreOps.archived_host
               StoreOps.archived_world))
     = Store.durable StoreOps.archived_world.
Proof.
  apply (migration_stops_on_text_timestamp StoreOps.archived_host
           StoreOps.archived_world
           (Store.revive_legacy StoreOps.archived_entry)
           "2024-02-29T23:59:59.999Z").
  - vm_compute. discriminate.
  - vm_compute. left. reflexivity.
  - left. reflexivity.
  - right. reflexivity.
Defined.

(** ** Write scheduler: calls far apart *)

Module SchedulerOpsFacts.

Import Store Scheduler SchedulerOps SchedulerFacts.

Local Open Scope Z_scope.

Lemma spaced_rounds_fire (H : Host) (rounds : list Round) :
  forall (s : State) (written : list (list Note)) (w0 : World),
    idle s written w0 -> spaced rounds ->
    idle (run_steps H (concat (map round_steps rounds)) s)
      (written ++ map notes_of rounds) (written_in_turn H rounds w0).
Proof.
  induction rounds as [|r rounds IH]; intros s written w0 Hi Hsp.
  - cbn. now rewrite app_nil_r.
  - apply List.Forall_cons_iff in Hsp as [(Hd & Hn & Hf) Hsp].
    cbn [map concat]. rewrite run_steps_app.
    assert (Hr : idle (run_steps H (round_steps r) s)
                   (written ++ [notes_of r])
                   (snd (saveNotesToDB H (notes_of r) w0))).
    { pose proof (call_arms (notes_of r) (delay_of r) s
                    (idle_one_pending s _ _ Hi)) as Hc.
      rewrite (timeout_in_range _ Hd) in Hc.
      destruct Hi as (_ & Hs & Hw). rewrite Hs, Hw in Hc.
      pose proof (armed_then H (then_steps r) _ _ _ _ _ Hc Hn) as Hl.
      rewrite Hf in Hl. exact Hl. }
    specialize (IH _ _ _ Hr Hsp).
    cbn [map written_in_turn fold_left].
    now rewrite <- app_assoc in IH.
Qed.

End SchedulerOpsFacts.

(** X10.  When after each call of [debouncedSaveNotes], made with a delay
    that [setTimeout] keeps, the delay has passed and the event loop has
    taken a turn before the next call comes, every call is written: in the
    end [saveNotesToDB] has been called once for every call, with the
    notes of the calls in their order, the store is what these saves leave
    one after the other, and no timer is pending. *)
Theorem spaced_calls_each_write (H : Store.Host) (w : Store.World)
  (rounds : list SchedulerOps.Round) :
  SchedulerOps.spaced rounds ->
  let s :=
    Scheduler.run_steps H (concat (map SchedulerOps.round_steps rounds))
      (Scheduler.init w) in
  Scheduler.saves s = map SchedulerOps.notes_of rounds
  /\ Scheduler.world s = SchedulerOps.written_in_turn H rounds w
  /\ Scheduler.timers s = [].
Proof.
  intros Hsp s.
  destruct (SchedulerOpsFacts.spaced_rounds_fire H rounds (Scheduler.init w)
              [] w) as (Ht & Hs & Hw); [now repeat split|exact Hsp|].
  auto.
Qed.

Lemma spaced_calls_each_write_witness :
  Scheduler.saves
    (Scheduler.run_steps Store.working_host
       [ Scheduler.DoCall [Store.sample_note "1" "first draft" 0] None;
         Scheduler.DoWait 300; Scheduler.DoRun;
         Scheduler.DoWait 250; Scheduler.DoRun;
         Scheduler.DoCall [Store.sample_note "1" "second draft" 0]
           (Some 0%Z);
         Scheduler.DoRun ]
       (Scheduler.init Store.empty_world))
  = [[Store.sample_note "1" "first draft" 0];
     [Store.sample_note "1" "second draft" 0]].
Proof.
  apply (spaced_calls_each_write Store.working_host Store.empty_world
           [ {| SchedulerOps.notes_of := [Store.sample_note "1" "first draft" 0];
                SchedulerOps.delay_of := None;
                SchedulerOps.then_steps :=
                  [ Scheduler.DoWait 300; Scheduler.DoRun;
                    Scheduler.DoWait 250; Scheduler.DoRun ] |};
             {| SchedulerOps.notes_of := [Store.sample_note "1" "second draft" 0];
                SchedulerOps.delay_of := Some 0%Z;
                SchedulerOps.then_steps := [ Scheduler.DoRun ] |} ]).
  assert (Hd : forall d : Z, (0 <= d < 2147483648)%Z ->
                 Scheduler.in_range (Some d)) by (intros d Hd; exact Hd).
  assert (Hn : Scheduler.in_range None)
    by (unfold Scheduler.in_range, Scheduler.delay_or_default,
          Scheduler.default_delay; simpl; lia).
  constructor; [|constructor; [|constructor]].
  - split; [exact Hn|]. split; reflexivity.
  - split; [apply Hd; lia|]. split; reflexivity.
Defined.

(** ** Protection manager: security question, scopes, hashes *)

Module ProtectionOpsFacts.

Import Protection ProtectionFacts ProtectionOps.

Lemma security_keys_distinct :
  SECURITY_QUESTION_KEY <> SECURITY_ANSWER_KEY
  /\ SECURITY_QUESTION_KEY <> SECURITY_ANSWER_SALT_KEY
  /\ SECURITY_ANSWER_KEY <> SECURITY_ANSWER_SALT_KEY.
Proof. repeat split; discriminate. Qed.

(** What is stored once [setSecurityQuestion] has run. *)
Lemma setSecurityQuestion_stored (P : Platform) (draw : nat)
  (question answer : string) (ls : gmap string string) :
  let ls' := setSecurityQuestion P draw question answer ls in
  ls' !! SECURITY_QUESTION_KEY = Some question
  /\ ls' !! SECURITY_ANSWER_KEY
     = Some (hashPasswordAsync P (normalize answer) (generateSalt P draw))
  /\ ls' !! SECURITY_ANSWER_SALT_KEY = Some (generateSalt P draw).
Proof.
  cbv zeta. unfold setSecurityQuestion. rewrite hashPasswordSecure_fresh.
  destruct security_keys_distinct as (H1 & H2 & H3).
  repeat split.
  - rewrite !lookup_insert_ne by congruence. apply lookup_insert_eq.
  - rewrite lookup_insert_ne by congruence. apply lookup_insert_eq.
  - apply lookup_insert_eq.
Qed.

(** A change writes only the keys of its scope. *)
Lemma change_touches_own_keys (P : Platform) (c : Change)
  (ls : gmap string string) (k : string) :
  ~ In k (keys_of_change c) -> apply_change P c ls !! k = ls !! k.
Proof.
  intros Hk.
  assert (Hne : forall k', In k' (keys_of_change c) -> k' <> k)
    by (intros k' Hin ->; exact (Hk Hin)).
  destruct c as [[|noteId] draw x|[|noteId]|noteId draw protection password
                |enabled|draw question answer|];
    unfold keys_of_change in Hne; cbn [scope_of scope_keys security_keys] in Hne;
    cbn [apply_change setPassword clearProtection];
    unfold setHiddenNotesPassword, clearHiddenNotesProtection,
      setNoteProtection, removeNoteProtection, setHiddenNotesBiometric,
      setSecurityQuestion, clearSecurityQuestion;
    rewrite ?hashPasswordSecure_fresh;
    repeat match goal with
           | |- context [if ?b then _ else _] => destruct b
           end;
    rewrite ?hashPasswordSecure_fresh;
    repeat first [ rewrite lookup_insert_ne by (apply Hne; unfold security_keys; cbn [In]; auto 6)
                 | rewrite lookup_delete_ne by (apply Hne; unfold security_keys; cbn [In]; auto 6) ];
    reflexivity.
Qed.

Ltac key_clash :=
  let E := fresh "E" in
  intros E;
  cbv [String.append getNoteProtectionKey getNotePasswordKey getNoteSaltKey
       HIDDEN_NOTES_PASSWORD_KEY HIDDEN_NOTES_SALT_KEY
       HIDDEN_NOTES_USE_BIOMETRIC_KEY SECURITY_QUESTION_KEY
       SECURITY_ANSWER_KEY SECURITY_ANSWER_SALT_KEY] in E;
  congruence.

(** The keys of different scopes, and of the security question, differ. *)
Lemma scopes_keys_disjoint (a b : Scope) (k : string) :
  a <> b -> In k (scope_keys a) -> ~ In k (scope_keys b).
Proof.
  intros Hab Ha Hb.
  destruct a as [|x], b as [|y]; try congruence;
    try (assert (x <> y) by congruence);
    cbn [scope_keys In] in Ha, Hb;
    repeat match goal with
           | H : _ \/ _ |- _ => destruct H
           | H : False |- _ => destruct H
           end; subst k;
    match goal with
    | H : _ = _ |- _ => revert H; key_clash
    end.
Qed.

Lemma security_keys_apart (b : Scope) (k : string) :
  In k security_keys -> ~ In k (scope_keys b).
Proof.
  intros Ha Hb.
  destruct b as [|y]; cbn [scope_keys security_keys In] in Ha, Hb;
    repeat match goal with
           | H : _ \/ _ |- _ => destruct H
           | H : False |- _ => destruct H
           end; subst k;
    match goal with
    | H : _ = _ |- _ => revert H; key_clash
    end.
Qed.

(** [authenticate] reads only the keys of its scope. *)
Lemma authenticate_reads_own_keys (P : Platform) (b : Scope)
  (password : option string) (ls1 ls2 : gmap string string) :
  (forall k, In k (scope_keys b) -> ls1 !! k = ls2 !! k) ->
  authenticate P b password ls1 = authenticate P b password ls2.
Proof.
  intros Hk.
  destruct b as [|noteId]; cbn [scope_keys] in Hk;
    cbn [authenticate];
    unfold authenticateForHiddenNotes, authenticateForNote,
      getHiddenNotesSettings, getNoteProtection,
      verifyHiddenNotesPassword, verifyNotePassword;
    rewrite !(Hk _) by (unfold security_keys; cbn [In]; auto 6); reflexivity.
Qed.

Lemma security_reads_own_keys (P : Platform) (answer : string)
  (ls1 ls2 : gmap string string) :
  (forall k, In k security_keys -> ls1 !! k = ls2 !! k) ->
  verifySecurityAnswer P answer ls1 = verifySecurityAnswer P answer ls2
  /\ getSecurityQuestion ls1 = getSecurityQuestion ls2
  /\ hasSecurityQuestion ls1 = hasSecurityQuestion ls2.
Proof.
  intros Hk.
  unfold verifySecurityAnswer, getSecurityQuestion, hasSecurityQuestion.
  rewrite !(Hk _) by (unfold security_keys; cbn [In]; auto 6). auto.
Qed.

End ProtectionOpsFacts.

(** X11.  After [setSecurityQuestion(question, answer)],
    [getSecurityQuestion] returns the question, [hasSecurityQuestion]
    holds exactly when the question is not empty, and
    [verifySecurityAnswer] accepts every answer that is the stored one up
    to the case of its letters and the white space around it, and rejects
    every answer whose hash, once so normalised, differs from the stored
    one. *)
Theorem security_question_lifecycle (P : Protection.Platform) (draw : nat)
  (question answer : string) (ls : gmap string string) :
  ProtectionOps.getSecurityQuestion
    (ProtectionOps.setSecurityQuestion P draw question answer ls)
  = Some question
  /\ ProtectionOps.hasSecurityQuestion
       (ProtectionOps.setSecurityQuestion P draw question answer ls)
     = JS.truthy question
  /\ (forall answer' : string,
        ProtectionOps.normalize answer' = ProtectionOps.normalize answer ->
        ProtectionOps.verifySecurityAnswer P answer'
          (ProtectionOps.setSecurityQuestion P draw question answer ls) = true)
  /\ (forall answer' : string,
        Protection.hashPasswordAsync P (ProtectionOps.normalize answer')
          (Protection.generateSalt P draw)
        <> Protection.hashPasswordAsync P (ProtectionOps.normalize answer)
             (Protection.generateSalt P draw) ->
        ProtectionOps.verifySecurityAnswer P answer'
          (ProtectionOps.setSecurityQuestion P draw question answer ls) = false).
Proof.
  destruct (ProtectionOpsFacts.setSecurityQuestion_stored P draw question answer ls)
    as (Hq & Ha & Hs).
  assert (Hv : forall answer',
    ProtectionOps.verifySecurityAnswer P answer'
      (ProtectionOps.setSecurityQuestion P draw question answer ls)
    = String.eqb
        (Protection.hashPasswordAsync P (ProtectionOps.normalize answer')
           (Protection.generateSalt P draw))
        (Protection.hashPasswordAsync P (ProtectionOps.normalize answer)
           (Protection.generateSalt P draw))).
  { intros answer'. unfold ProtectionOps.verifySecurityAnswer.
    rewrite Ha, Hs, ProtectionFacts.truthy_hashPasswordAsync.
    unfold Protection.salt_or_undefined. cbn [Protection.truthy_item].
    replace (JS.truthy (Protection.generateSalt P draw)) with true by reflexivity.
    now apply ProtectionFacts.verifyPassword_salted. }
  split; [exact Hq|]. split; [|split].
  - unfold ProtectionOps.hasSecurityQuestion. rewrite Hq, Ha.
    cbn [Protection.truthy_item].
    rewrite ProtectionFacts.truthy_hashPasswordAsync. apply andb_true_r.
  - intros answer' E. rewrite Hv, E. apply String.eqb_refl.
  - intros answer' E. rewrite Hv. now apply String.eqb_neq.
Qed.

Lemma security_question_lifecycle_witness :
  ProtectionOps.normalize "  REX " = ProtectionOps.normalize "Rex"
  /\ ProtectionOps.verifySecurityAnswer Protection.insecure_page "  REX "
       (ProtectionOps.setSecurityQuestion Protection.insecure_page 0
          "Name of the first pet?" "Rex" ∅) = true.
Proof.
  assert (E : ProtectionOps.normalize "  REX " = ProtectionOps.normalize "Rex")
    by reflexivity.
  split; [exact E|].
  apply (proj1 (proj2 (proj2
           (security_question_lifecycle Protection.insecure_page 0
              "Name of the first pet?" "Rex" ∅)))).
  exact E.
Defined.

(** X12.  After [clearSecurityQuestion], and whenever no answer hash is
    stored, [verifySecurityAnswer] rejects every answer;
    after [clearSecurityQuestion], [getSecurityQuestion] returns nothing
    and [hasSecurityQuestion] does not hold. *)
Theorem security_question_cleared (P : Protection.Platform)
  (ls : gmap string string) (answer : string) :
  (ls !! ProtectionOps.SECURITY_ANSWER_KEY = None ->
   ProtectionOps.verifySecurityAnswer P answer ls = false)
  /\ ProtectionOps.verifySecurityAnswer P answer
       (ProtectionOps.clearSecurityQuestion ls) = false
  /\ ProtectionOps.getSecurityQuestion (ProtectionOps.clearSecurityQuestion ls)
     = None
  /\ ProtectionOps.hasSecurityQuestion (ProtectionOps.clearSecurityQuestion ls)
     = false.
Proof.
  destruct ProtectionOpsFacts.security_keys_distinct as (H1 & H2 & H3).
  assert (Hq : ProtectionOps.clearSecurityQuestion ls
               !! ProtectionOps.SECURITY_QUESTION_KEY = None).
  { unfold ProtectionOps.clearSecurityQuestion.
    rewrite !lookup_delete_ne by congruence. apply lookup_delete_eq. }
  assert (Ha : ProtectionOps.clearSecurityQuestion ls
               !! ProtectionOps.SECURITY_ANSWER_KEY = None).
  { unfold ProtectionOps.clearSecurityQuestion.
    rewrite lookup_delete_ne by congruence. apply lookup_delete_eq. }
  split; [|split; [|split]].
  - intros E. unfold ProtectionOps.verifySecurityAnswer. now rewrite E.
  - unfold ProtectionOps.verifySecurityAnswer. now rewrite Ha.
  - exact Hq.
  - unfold ProtectionOps.hasSecurityQuestion. now rewrite Hq.
Qed.

(** X13.  [checkBiometricAvailability] reports the modality [none]
    exactly when it reports that biometric is not available; off a native
    platform, and when the plugin's call fails, it reports that biometric
    is not available. *)
Theorem biometric_status_consistent (P : Protection.Platform)
  (available : option ProtectionOps.AvailableResult) :
  (ProtectionOps.isAvailable (ProtectionOps.checkBiometricAvailability P available)
   = false
   <-> ProtectionOps.biometryType
         (ProtectionOps.checkBiometricAvailability P available)
       = ProtectionOps.none)
  /\ (Protection.isNativePlatform P = false \/ available = None ->
      ProtectionOps.checkBiometricAvailability P available
      = {| ProtectionOps.isAvailable := false;
           ProtectionOps.biometryType := ProtectionOps.none |}).
Proof.
  unfold ProtectionOps.checkBiometricAvailability. split.
  - destruct (Protection.isNativePlatform P); simpl; [|tauto].
    destruct available as [[[] []]|]; simpl; split; congruence.
  - intros [E|E]; [now rewrite E|].
    rewrite E. now destruct (Protection.isNativePlatform P).
Qed.

(** X14.  A change made for one scope (setting a password, setting or
    removing the protection of a note, switching the biometric flag of
    the hidden notes, clearing the protection) or for the security
    question never changes what [authenticate] answers, or the calls it
    makes, for another scope; and a change made for a scope never changes
    the security question or the answers it accepts. *)
Theorem changes_stay_in_scope (P : Protection.Platform)
  (c : ProtectionOps.Change) (ls : gmap string string) :
  (forall (scope : Protection.Scope) (password : option string),
     ProtectionOps.scope_of c <> Some scope ->
     Protection.authenticate P scope password (ProtectionOps.apply_change P c ls)
     = Protection.authenticate P scope password ls)
  /\ (ProtectionOps.scope_of c <> None ->
      forall answer : string,
        ProtectionOps.verifySecurityAnswer P answer
          (ProtectionOps.apply_change P c ls)
        = ProtectionOps.verifySecurityAnswer P answer ls
        /\ ProtectionOps.getSecurityQuestion (ProtectionOps.apply_change P c ls)
           = ProtectionOps.getSecurityQuestion ls
        /\ ProtectionOps.hasSecurityQuestion (ProtectionOps.apply_change P c ls)
           = ProtectionOps.hasSecurityQuestion ls).
Proof.
  split.
  - intros scope password Hc.
    apply ProtectionOpsFacts.authenticate_reads_own_keys. intros k Hk.
    apply ProtectionOpsFacts.change_touches_own_keys.
    unfold ProtectionOps.keys_of_change.
    destruct (ProtectionOps.scope_of c) as [a|] eqn:Ea; intros Hin.
    + apply (ProtectionOpsFacts.scopes_keys_disjoint a scope k); auto.
      congruence.
    + exact (ProtectionOpsFacts.security_keys_apart scope k Hin Hk).
  - intros Hc answer.
    apply ProtectionOpsFacts.security_reads_own_keys. intros k Hk.
    apply ProtectionOpsFacts.change_touches_own_keys.
    unfold ProtectionOps.keys_of_change.
    destruct (ProtectionOps.scope_of c) as [a|] eqn:Ea; [|congruence].
    intros Hin. exact (ProtectionOpsFacts.security_keys_apart a k Hk Hin).
Qed.

Lemma changes_stay_in_scope_witness :
  Protection.authenticate Protection.insecure_page (Protection.OneNote "n1")
    (Some "orange17"%string)
    (ProtectionOps.apply_change Protection.insecure_page
       (ProtectionOps.ClearProtection (Protection.OneNote "n2"))
       (Protection.setPassword Protection.insecure_page 0
          (Protection.OneNote "n1") "orange17" ∅))
  = Protection.authenticate Protection.insecure_page (Protection.OneNote "n1")
      (Some "orange17"%string)
      (Protection.setPassword Protection.insecure_page 0
         (Protection.OneNote "n1") "orange17" ∅).
Proof.
  apply (proj1 (changes_stay_in_scope Protection.insecure_page
                  (ProtectionOps.ClearProtection (Protection.OneNote "n2"))
                  (Protection.setPassword Protection.insecure_page 0
                     (Protection.OneNote "n1") "orange17" ∅))).
  simpl. intros E. discriminate E.
Defined.

(** X15.  Off a native platform [authenticateWithBiometric] answers
    [false].  Whenever it answers [false] for a scope that has biometric
    enabled and no password, [authenticate] denies access whatever
    password is given, after the one biometric attempt and without a
    password check. *)
Theorem biometric_only_needs_sensor (P : Protection.Platform)
  (scope : Protection.Scope) (ls : gmap string string) :
  (Protection.isNativePlatform P = false ->
   forall reason, Protection.authenticateWithBiometric P reason = false)
  /\ (Protection.useBiometric (Protection.protection_of scope ls) = true ->
      Protection.hasPassword (Protection.protection_of scope ls) = false ->
      Protection.authenticateWithBiometric P
        (Some (Protection.reason_of P scope)) = false ->
      forall password : option string,
        Protection.authenticate P scope password ls
        = (false, [Protection.BiometricAttempt (Protection.reason_of P scope) false])).
Proof.
  split.
  - intros Hn reason. unfold Protection.authenticateWithBiometric.
    now rewrite Hn.
  - intros Hb Hp Hgate password.
    rewrite ProtectionFacts.authenticate_unfold. cbv zeta.
    rewrite Hb, Hp, Hgate. simpl. now rewrite andb_false_r.
Qed.

Lemma biometric_only_needs_sensor_witness :
  Protection.authenticate Protection.insecure_page Protection.HiddenNotes
    (Some "secret"%string) (Protection.setHiddenNotesBiometric true ∅)
  = (false,
     [Protection.BiometricAttempt
        (Protection.reason_of Protection.insecure_page Protection.HiddenNotes)
        false]).
Proof.
  apply (proj2 (biometric_only_needs_sensor Protection.insecure_page
                  Protection.HiddenNotes
                  (Protection.setHiddenNotesBiometric true ∅))).
  - vm_compute. reflexivity.
  - vm_compute. reflexivity.
  - reflexivity.
Defined.

Module HashFacts.

Import Protection ProtectionFacts ProtectionOps.

Local Open Scope Z_scope.

Lemma toInt32_shift (z : Z) : exists k, JS.toInt32 z = z + 4294967296 * k.
Proof.
  unfold JS.toInt32.
  destruct (z mod 4294967296 <? 2147483648).
  - exists (- (z / 4294967296)). Z.to_euclidean_division_equations. lia.
  - exists (- (z / 4294967296) - 1). Z.to_euclidean_division_equations. lia.
Qed.

Lemma toInt32_range (z : Z) : -2147483648 <= JS.toInt32 z < 2147483648.
Proof.
  unfold JS.toInt32.
  destruct (Z.ltb_spec (z mod 4294967296) 2147483648);
    Z.to_euclidean_division_equations; lia.
Qed.

Lemma toInt32_congr (a b : Z) :
  a mod 4294967296 = b mod 4294967296 -> JS.toInt32 a = JS.toInt32 b.
Proof. unfold JS.toInt32. now intros ->. Qed.

Lemma toInt32_shifted (z k : Z) :
  JS.toInt32 (z + 4294967296 * k) = JS.toInt32 z.
Proof.
  apply toInt32_congr. rewrite Z.mul_comm. apply Z_mod_plus_full.
Qed.

Lemma toInt32_idem (z : Z) : JS.toInt32 (JS.toInt32 z) = JS.toInt32 z.
Proof.
  destruct (toInt32_shift z) as [k E]. rewrite E at 1. apply toInt32_shifted.
Qed.

(** One step of the loop multiplies by 31, adds the code and wraps. *)
Lemma hash_step_31 (h : Z) (c : ascii) :
  hash_step h c = JS.toInt32 (h * 31 + JS.charCode c).
Proof.
  unfold hash_step, JS.and32, JS.shl32.
  rewrite Z.land_diag, toInt32_idem, Z.shiftl_mul_pow2 by lia.
  destruct (toInt32_shift h) as [k1 ->].
  destruct (toInt32_shift ((h + 4294967296 * k1) * 2 ^ 5)) as [k2 ->].
  replace ((h + 4294967296 * k1) * 2 ^ 5 + 4294967296 * k2 - h + JS.charCode c)
    with (h * 31 + JS.charCode c + 4294967296 * (32 * k1 + k2)) by lia.
  apply toInt32_shifted.
Qed.

Lemma poly31_congr (s : string) :
  forall a b : Z,
    a mod 4294967296 = b mod 4294967296 ->
    poly31 a s mod 4294967296 = poly31 b s mod 4294967296.
Proof.
  induction s as [|c s IH]; intros a b E; simpl; [exact E|].
  apply IH.
  rewrite (Z.add_mod (a * 31)), (Z.add_mod (b * 31)) by lia.
  rewrite (Z.mul_mod a), (Z.mul_mod b), E by lia. reflexivity.
Qed.

Lemma toInt32_mod (z : Z) :
  JS.toInt32 z mod 4294967296 = z mod 4294967296.
Proof.
  destruct (toInt32_shift z) as [k ->]. rewrite Z.mul_comm.
  apply Z_mod_plus_full.
Qed.

Lemma hash_loop_poly (s : string) :
  forall h : Z, JS.toInt32 (hash_loop h s) = JS.toInt32 (poly31 h s).
Proof.
  induction s as [|c s IH]; intros h; simpl; [reflexivity|].
  rewrite IH. apply toInt32_congr, poly31_congr.
  rewrite hash_step_31. apply toInt32_mod.
Qed.

Lemma hash_loop_range (s : string) :
  forall h : Z,
    -2147483648 <= h < 2147483648 ->
    -2147483648 <= hash_loop h s < 2147483648.
Proof.
  induction s as [|c s IH]; intros h Hh; simpl; [exact Hh|].
  apply IH. rewrite hash_step_31. apply toInt32_range.
Qed.

Lemma toInt32_small (z : Z) :
  -2147483648 <= z < 2147483648 -> JS.toInt32 z = z.
Proof.
  intros Hz. unfold JS.toInt32.
  destruct (Z.ltb_spec (z mod 4294967296) 2147483648);
    Z.to_euclidean_division_equations; lia.
Qed.

Lemma hash_loop_closed (s : string) :
  hash_loop 0 s = JS.toInt32 (poly31 0 s).
Proof.
  rewrite <- hash_loop_poly. symmetry. apply toInt32_small.
  apply hash_loop_range. lia.
Qed.

(** Hexadecimal texts. *)
Lemma unhex2_hex2 (b : Byte.byte) (rest : string) :
  unhex2 (JS.hex2 b ++ rest) = Some b.
Proof. destruct b; reflexivity. Qed.

Lemma hexOfBytes_length (bs : list Byte.byte) :
  String.length (JS.hexOfBytes bs) = (2 * length bs)%nat.
Proof.
  induction bs as [|b bs IH]; [reflexivity|].
  change (JS.hexOfBytes (b :: bs))
    with (String (JS.digit16 (Byte.to_N b / 16))
            (String (JS.digit16 (Byte.to_N b mod 16)) (JS.hexOfBytes bs))).
  cbn [String.length length]. rewrite IH. lia.
Qed.

Lemma hexOfBytes_inj (bs : list Byte.byte) :
  forall bs', JS.hexOfBytes bs = JS.hexOfBytes bs' -> bs = bs'.
Proof.
  induction bs as [|b bs IH]; intros [|b' bs'] E.
  - reflexivity.
  - discriminate E.
  - discriminate E.
  - assert (Hb : Some b = Some b').
    { rewrite <- (unhex2_hex2 b (JS.hexOfBytes bs)).
      rewrite <- (unhex2_hex2 b' (JS.hexOfBytes bs')).
      exact (f_equal unhex2 E). }
    injection Hb as <-. f_equal. apply IH.
    change (JS.hexOfBytes (b :: bs))
      with (String (JS.digit16 (Byte.to_N b / 16))
              (String (JS.digit16 (Byte.to_N b mod 16)) (JS.hexOfBytes bs))) in E.
    change (JS.hexOfBytes (b :: bs'))
      with (String (JS.digit16 (Byte.to_N b / 16))
              (String (JS.digit16 (Byte.to_N b mod 16)) (JS.hexOfBytes bs'))) in E.
    now injection E.
Qed.

(** A hash made by the fallback is never the text of derived bits. *)
Lemma fallback_is_not_hex (input : string) (b1 b2 : Byte.byte)
  (bs : list Byte.byte) :
  fallbackHash input <> JS.hexOfBytes (b1 :: b2 :: bs).
Proof.
  unfold fallbackHash.
  change (JS.hexOfBytes (b1 :: b2 :: bs))
    with (String (JS.digit16 (Byte.to_N b1 / 16))
            (String (JS.digit16 (Byte.to_N b1 mod 16))
               (String (JS.digit16 (Byte.to_N b2 / 16))
                  (String (JS.digit16 (Byte.to_N b2 mod 16))
                     (JS.hexOfBytes bs))))).
  intros E.
  assert (E3 : "l"%char = JS.digit16 (Byte.to_N b2 / 16))
    by (cbv [String.append] in E; congruence).
  clear E. destruct b2; discriminate E3.
Qed.

Lemma mixed_hashes_differ (P1 P2 : Platform) (x y salt1 salt2 : string) :
  subtle P1 = None -> subtle P2 <> None ->
  hashPasswordAsync P1 x salt1 <> hashPasswordAsync P2 y salt2.
Proof.
  unfold hashPasswordAsync. intros -> H2.
  destruct (subtle P2) as [kdf|]; [|congruence].
  apply fallback_is_not_hex.
Qed.

End HashFacts.

(** X16.  A password set where Web Crypto is not available (the
    fallback hash is stored) is never accepted where Web Crypto is
    available, and a password set where it is available is never accepted
    where it is not: with biometric disabled, [authenticate] then denies
    access for every password, the one that was set included. *)
Theorem degraded_credentials_do_not_carry_over (P1 P2 : Protection.Platform)
  (draw : nat) (scope : Protection.Scope) (x : string)
  (ls : gmap string string) :
  Protection.subtle P1 = None -> Protection.subtle P2 <> None ->
  JS.truthy x = true ->
  Protection.useBiometric
    (Protection.protection_of scope (Protection.setPassword P1 draw scope x ls))
  = false ->
  (forall password : option string,
     fst (Protection.authenticate P2 scope password
            (Protection.setPassword P1 draw scope x ls)) = false)
  /\ (forall password : option string,
        fst (Protection.authenticate P1 scope password
               (Protection.setPassword P2 draw scope x ls)) = false).
Proof.
  intros H1 H2 Hx Hbio.
  assert (Hdeny : forall Pa Pb : Protection.Platform,
    (forall y, Protection.hashPasswordAsync Pb y (Protection.generateSalt Pa draw)
               <> Protection.hashPasswordAsync Pa x (Protection.generateSalt Pa draw)) ->
    Protection.useBiometric
      (Protection.protection_of scope (Protection.setPassword Pa draw scope x ls))
    = false ->
    forall password,
      fst (Protection.authenticate Pb scope password
             (Protection.setPassword Pa draw scope x ls)) = false).
  { intros Pa Pb Hne Hb password.
    destruct (ProtectionFacts.setPassword_stored Pa draw scope x ls Hx)
      as (Hh & Hs & Hp & _).
    rewrite ProtectionFacts.authenticate_unfold. cbv zeta. rewrite Hp, Hb.
    simpl. destruct (Protection.truthy_item password); [|reflexivity].
    cbn [fst].
    rewrite (ProtectionFacts.verify_of_stored Pb scope _ _ _ _ Hh
               (ProtectionFacts.truthy_hashPasswordAsync _ _ _) Hs eq_refl).
    apply String.eqb_neq, Hne. }
  assert (Hbio2 : Protection.useBiometric
            (Protection.protection_of scope
               (Protection.setPassword P2 draw scope x ls)) = false).
  { destruct (ProtectionFacts.setPassword_stored P1 draw scope x ls Hx)
      as (_ & _ & _ & E1).
    destruct (ProtectionFacts.setPassword_stored P2 draw scope x ls Hx)
      as (_ & _ & _ & E2).
    now rewrite E2, <- E1. }
  split.
  - apply (Hdeny P1 P2); [|exact Hbio]. intros y E.
    exact (HashFacts.mixed_hashes_differ P1 P2 _ _ _ _ H1 H2 (eq_sym E)).
  - apply (Hdeny P2 P1); [|exact Hbio2]. intros y E.
    exact (HashFacts.mixed_hashes_differ P1 P2 _ _ _ _ H1 H2 E).
Qed.

Lemma degraded_credentials_do_not_carry_over_witness :
  fst (Protection.authenticate ProtectionOps.secure_page Protection.HiddenNotes
         (Some "orange17"%string)
         (Protection.setPassword Protection.insecure_page 0
            Protection.HiddenNotes "orange17" ∅)) = false.
Proof.
  apply (proj1 (degraded_credentials_do_not_carry_over
                  Protection.insecure_page ProtectionOps.secure_page 0
                  Protection.HiddenNotes "orange17" ∅
                  eq_refl ltac:(discriminate) eq_refl
                  ltac:(vm_compute; reflexivity))).
Defined.

(** X17.  The number in the legacy hash is the base-31 polynomial of the
    character codes of the password, wrapped to 32 bits: [hashPassword]
    writes it and the length in radix 36, [fallbackHash] writes its
    magnitude.  Hence two passwords of the same length whose polynomials
    agree modulo 2^32 have the same legacy hash. *)
Theorem legacy_hash_is_polynomial (p q : string) :
  Protection.hashPassword p
  = (JS.toString36 (JS.toInt32 (ProtectionOps.poly31 0 p))
     ++ JS.toString36 (Z.of_nat (String.length p)))%string
  /\ Protection.fallbackHash p
     = ("fallback_"
        ++ JS.toString36 (Z.abs (JS.toInt32 (ProtectionOps.poly31 0 p))))%string
  /\ (String.length p = String.length q ->
      (ProtectionOps.poly31 0 p mod 4294967296
       = ProtectionOps.poly31 0 q mod 4294967296)%Z ->
      Protection.hashPassword p = Protection.hashPassword q
      /\ Protection.fallbackHash p = Protection.fallbackHash q).
Proof.
  unfold Protection.hashPassword, Protection.fallbackHash.
  rewrite !HashFacts.hash_loop_closed.
  split; [reflexivity|]. split; [reflexivity|].
  intros Hlen Hmod. rewrite (HashFacts.toInt32_congr _ _ Hmod), Hlen.
  split; reflexivity.
Qed.

Lemma legacy_hash_is_polynomial_witness :
  Protection.hashPassword "Aa" = Protection.hashPassword "BB"
  /\ Protection.fallbackHash "Aa" = Protection.fallbackHash "BB".
Proof.
  apply (proj2 (proj2 (legacy_hash_is_polynomial "Aa" "BB")));
    reflexivity.
Defined.

(** X18.  [bufferToHex] writes two characters per byte and different
    buffers get different texts; a salt made by [generateSalt] has 32
    characters, and a hash made with Web Crypto has 64. *)
Theorem hex_texts (P : Protection.Platform) (draw : nat)
  (password salt : string) (bs bs' : list Byte.byte) :
  String.length (Protection.bufferToHex bs) = (2 * length bs)%nat
  /\ (Protection.bufferToHex bs = Protection.bufferToHex bs' -> bs = bs')
  /\ String.length (Protection.generateSalt P draw) = 32%nat
  /\ (Protection.subtle P <> None ->
      String.length (Protection.hashPasswordAsync P password salt) = 64%nat).
Proof.
  unfold Protection.bufferToHex, Protection.generateSalt,
    Protection.hashPasswordAsync.
  split; [apply HashFacts.hexOfBytes_length|].
  split; [apply HashFacts.hexOfBytes_inj|].
  split; [now rewrite HashFacts.hexOfBytes_length|].
  destruct (Protection.subtle P) as [kdf|]; [|congruence].
  intros _. now rewrite HashFacts.hexOfBytes_length.
Qed.

Lemma hex_texts_witness :
  String.length
    (Protection.hashPasswordAsync ProtectionOps.secure_page "pw" "salt")
  = 64%nat.
Proof.
  apply (proj2 (proj2 (proj2
           (hex_texts ProtectionOps.secure_page 0 "pw" "salt" [] [])))).
  discriminate.
Defined.

(** X19.  [setHiddenNotesBiometric] sets the biometric flag of the hidden
    notes to the value given and leaves the password state as it was, and
    [setHiddenNotesPassword] leaves the biometric flag as it was; so a
    hidden-notes area without password is open to everyone once biometric
    is switched off. *)
Theorem hidden_notes_flags_independent (P : Protection.Platform) (draw : nat)
  (enabled : bool) (password : string) (ls : gmap string string) :
  Protection.getHiddenNotesSettings (Protection.setHiddenNotesBiometric enabled ls)
  = {| Protection.hasPassword :=
         Protection.hasPassword (Protection.getHiddenNotesSettings ls);
       Protection.useBiometric := enabled |}
  /\ Protection.useBiometric
       (Protection.getHiddenNotesSettings
          (Protection.setHiddenNotesPassword P draw password ls))
     = Protection.useBiometric (Protection.getHiddenNotesSettings ls)
  /\ (Protection.hasPassword (Protection.getHiddenNotesSettings ls) = false ->
      forall p : option string,
        Protection.authenticateForHiddenNotes P p
          (Protection.setHiddenNotesBiometric false ls) = (true, [])).
Proof.
  destruct ProtectionFacts.hidden_keys_distinct as (H1 & H2 & H3).
  assert (E : Protection.getHiddenNotesSettings
                (Protection.setHiddenNotesBiometric enabled ls)
              = {| Protection.hasPassword :=
                     Protection.hasPassword (Protection.getHiddenNotesSettings ls);
                   Protection.useBiometric := enabled |}).
  { intros. unfold Protection.getHiddenNotesSettings,
      Protection.setHiddenNotesBiometric.
    rewrite lookup_insert_eq, lookup_insert_ne by congruence.
    cbn [Protection.hasPassword]. now destruct enabled. }
  split; [exact E|]. split.
  - unfold Protection.getHiddenNotesSettings, Protection.setHiddenNotesPassword.
    cbn [Protection.useBiometric].
    destruct (Protection.hashPasswordSecure P draw password None) as [h s].
    now rewrite !lookup_insert_ne by congruence.
  - intros Hp p. unfold Protection.authenticateForHiddenNotes.
    assert (E0 : Protection.getHiddenNotesSettings
                   (Protection.setHiddenNotesBiometric false ls)
                 = {| Protection.hasPassword := false;
                      Protection.useBiometric := false |}).
    { unfold Protection.getHiddenNotesSettings,
        Protection.setHiddenNotesBiometric.
      rewrite lookup_insert_eq, lookup_insert_ne by congruence.
      unfold Protection.getHiddenNotesSettings in Hp.
      cbn [Protection.hasPassword] in Hp. now rewrite Hp. }
    now rewrite E0.
Qed.

Lemma hidden_notes_flags_independent_witness :
  Protection.authenticateForHiddenNotes Protection.insecure_page None
    (Protection.setHiddenNotesBiometric false ∅) = (true, []).
Proof.
  apply (proj2 (proj2 (hidden_notes_flags_independent
                         Protection.insecure_page 0 true "pw" ∅))).
  vm_compute. reflexivity.
Defined.

Module CompressFacts.

Import JSString Compress.

Lemma space_is_space : is_space " " = true.
Proof. reflexivity. Qed.

Lemma space_not_gt (c : ascii) :
  is_space c = true -> (c =? ">")%char = false.
Proof.
  intros H. destruct (Ascii.eqb_spec c ">") as [->|]; [|reflexivity].
  vm_compute in H. discriminate H.
Qed.

Lemma lt_not_space (c : ascii) :
  (c =? "<")%char = true -> is_space c = false.
Proof. intros H. apply Ascii.eqb_eq in H as ->. reflexivity. Qed.

Lemma gt_not_space (c : ascii) :
  (c =? ">")%char = true -> is_space c = false.
Proof. intros H. apply Ascii.eqb_eq in H as ->. reflexivity. Qed.

(** *** The start of a string *)

Lemma trimStart_clean (s : string) : starts_clean (trimStart s) = true.
Proof.
  induction s as [|c s IH]; [reflexivity|].
  cbn [trimStart]. destruct (is_space c) eqn:E; [exact IH|].
  cbn [starts_clean]. now rewrite E.
Qed.

Lemma trimStart_id (s : string) :
  starts_clean s = true -> trimStart s = s.
Proof.
  destruct s as [|c s]; [reflexivity|].
  cbn [starts_clean trimStart]. now destruct (is_space c).
Qed.

Lemma trimStart_length (s : string) :
  (String.length (trimStart s) <= String.length s)%nat.
Proof.
  induction s as [|c s IH]; [reflexivity|].
  cbn [trimStart]. destruct (is_space c); cbn [String.length]; lia.
Qed.

Lemma visible_trimStart (s : string) : visible (trimStart s) = visible s.
Proof.
  induction s as [|c s IH]; [reflexivity|].
  cbn [trimStart visible]. destruct (is_space c) eqn:E; [exact IH|].
  cbn [visible]. now rewrite E.
Qed.

Lemma single_spaced_tail (c : ascii) (s : string) :
  single_spaced (String c s) = true -> single_spaced s = true.
Proof. cbn [single_spaced]. intros H. now apply andb_true_iff in H. Qed.

Lemma no_gap_tail (c : ascii) (s : string) :
  no_gap (String c s) = true -> no_gap s = true.
Proof. cbn [no_gap]. intros H. now apply andb_true_iff in H. Qed.

Lemma single_spaced_trimStart (s : string) :
  single_spaced s = true -> single_spaced (trimStart s) = true.
Proof.
  induction s as [|c s IH]; [reflexivity|]. intros H.
  cbn [trimStart]. destruct (is_space c); [|exact H].
  apply IH, (single_spaced_tail c), H.
Qed.

Lemma no_gap_trimStart (s : string) :
  no_gap s = true -> no_gap (trimStart s) = true.
Proof.
  induction s as [|c s IH]; [reflexivity|]. intros H.
  cbn [trimStart]. destruct (is_space c); [|exact H].
  apply IH, (no_gap_tail c), H.
Qed.

(** *** The end of a string *)

Lemma trimEnd_cons (c : ascii) (s : string) :
  trimEnd (String c s)
  = match trimEnd s with
    | EmptyString => if is_space c then EmptyString else String c EmptyString
    | String d r => String c (String d r)
    end.
Proof. reflexivity. Qed.

Lemma trimEnd_clean_cons (c : ascii) (s : string) :
  is_space c = false -> exists r, trimEnd (String c s) = String c r.
Proof.
  intros E. rewrite trimEnd_cons, E. destruct (trimEnd s); eauto.
Qed.

Lemma trimEnd_starts_clean (s : string) :
  starts_clean s = true -> starts_clean (trimEnd s) = true.
Proof.
  destruct s as [|c s]; [reflexivity|]. cbn [starts_clean]. intros E.
  apply negb_true_iff in E.
  destruct (trimEnd_clean_cons c s E) as [r ->]. cbn [starts_clean].
  now rewrite E.
Qed.

Lemma trimEnd_length (s : string) :
  (String.length (trimEnd s) <= String.length s)%nat.
Proof.
  induction s as [|c s IH]; [reflexivity|].
  rewrite trimEnd_cons. destruct (trimEnd s) as [|d r].
  - destruct (is_space c); cbn [String.length]; lia.
  - cbn [String.length] in *. lia.
Qed.

Lemma visible_trimEnd (s : string) : visible (trimEnd s) = visible s.
Proof.
  induction s as [|c s IH]; [reflexivity|].
  rewrite trimEnd_cons. cbn [visible]. rewrite <- IH.
  destruct (trimEnd s) as [|d r].
  - destruct (is_space c) eqn:E; cbn [visible]; now rewrite ?E.
  - cbn [visible]. reflexivity.
Qed.

Lemma trimEnd_idem (s : string) : trimEnd (trimEnd s) = trimEnd s.
Proof.
  induction s as [|c s IH]; [reflexivity|].
  rewrite trimEnd_cons. destruct (trimEnd s) as [|d r] eqn:E.
  - destruct (is_space c) eqn:Ec; [reflexivity|].
    rewrite trimEnd_cons. cbn [trimEnd]. now rewrite Ec.
  - rewrite trimEnd_cons, IH. reflexivity.
Qed.

Lemma trim_commute (s : string) :
  trimStart (trimEnd s) = trimEnd (trimStart s).
Proof.
  induction s as [|c s IH]; [reflexivity|].
  destruct (is_space c) eqn:E.
  - cbn [trimStart]. rewrite E, <- IH, trimEnd_cons.
    destruct (trimEnd s) as [|d r]; [now rewrite E|].
    cbn [trimStart]. now rewrite E.
  - cbn [trimStart]. rewrite E.
    destruct (trimEnd_clean_cons c s E) as [r ->].
    cbn [trimStart]. now rewrite E.
Qed.

Lemma trim_idem (s : string) : trim (trim s) = trim s.
Proof.
  unfold trim. rewrite trim_commute.
  rewrite (trimStart_id (trimStart s)) by apply trimStart_clean.
  apply trimEnd_idem.
Qed.

Lemma trim_fixed (s : string) :
  trim s = s <-> starts_clean s = true /\ trimEnd s = s.
Proof.
  unfold trim. split.
  - intros E. assert (Hc : starts_clean s = true).
    { rewrite <- E. apply trimEnd_starts_clean, trimStart_clean. }
    split; [exact Hc|]. now rewrite (trimStart_id s Hc) in E.
  - intros [Hc E]. now rewrite (trimStart_id s Hc).
Qed.

Lemma single_spaced_trimEnd (s : string) :
  single_spaced s = true -> single_spaced (trimEnd s) = true.
Proof.
  induction s as [|c s IH]; [reflexivity|]. intros H.
  cbn [single_spaced] in H. apply andb_true_iff in H as [Hc Hs].
  specialize (IH Hs). rewrite trimEnd_cons.
  destruct (trimEnd s) as [|d r] eqn:E.
  - destruct (is_space c) eqn:Ec; [reflexivity|].
    cbn [single_spaced]. now rewrite Ec.
  - cbn [single_spaced] in IH |- *. rewrite IH, andb_true_r.
    destruct (is_space c); [|reflexivity].
    apply andb_true_iff in Hc as [Hc1 Hc2]. rewrite Hc1.
    apply trimEnd_starts_clean in Hc2. rewrite E in Hc2. exact Hc2.
Qed.

(** *** What a gap needs *)

Lemma gap_ahead_cons (c : ascii) (s : string) :
  gap_ahead (String c s) = is_space c && lt_next s.
Proof.
  unfold gap_ahead, lt_next. cbn [ws_then_lt].
  destruct (is_space c); [|reflexivity].
  destruct (trimStart s) as [|d r]; [reflexivity|].
  now destruct (d =? "<")%char.
Qed.

Lemma lt_next_space (c : ascii) (s : string) :
  is_space c = true -> lt_next (String c s) = lt_next s.
Proof. intros E. unfold lt_next. cbn [trimStart]. now rewrite E. Qed.

Lemma lt_next_clean (c : ascii) (s : string) :
  is_space c = false -> lt_next (String c s) = (c =? "<")%char.
Proof. intros E. unfold lt_next. cbn [trimStart]. now rewrite E. Qed.

Lemma ws_then_lt_inv (s tail : string) :
  ws_then_lt s = Some tail ->
  exists c rest,
    s = String c rest /\ is_space c = true
    /\ trimStart rest = String "<" tail.
Proof.
  destruct s as [|c rest]; [discriminate|]. cbn [ws_then_lt].
  destruct (is_space c) eqn:E; [|discriminate].
  destruct (trimStart rest) as [|d r] eqn:Et; [discriminate|].
  destruct (Ascii.eqb_spec d "<") as [->|]; [|discriminate].
  intros [= <-]. now exists c, rest.
Qed.

Lemma ws_then_lt_length (s tail : string) :
  ws_then_lt s = Some tail ->
  (String.length tail + 2 <= String.length s)%nat.
Proof.
  intros H. destruct (ws_then_lt_inv s tail H) as (c & rest & -> & _ & Et).
  pose proof (trimStart_length rest) as Hl. rewrite Et in Hl.
  cbn [String.length] in *. lia.
Qed.

Lemma ws_then_lt_visible (s tail : string) :
  ws_then_lt s = Some tail -> visible s = String "<" (visible tail).
Proof.
  intros H. destruct (ws_then_lt_inv s tail H) as (c & rest & -> & Ec & Et).
  cbn [visible]. rewrite Ec, <- visible_trimStart, Et. reflexivity.
Qed.

Lemma lt_next_trimEnd (s : string) :
  lt_next (trimEnd s) = lt_next s.
Proof.
  unfold lt_next. rewrite trim_commute.
  pose proof (trimStart_clean s) as Hc.
  destruct (trimStart s) as [|d r]; [reflexivity|].
  cbn [starts_clean] in Hc. apply negb_true_iff in Hc.
  now destruct (trimEnd_clean_cons d r Hc) as [r' ->].
Qed.

Lemma gap_ahead_trimEnd (s : string) :
  gap_ahead s = false -> gap_ahead (trimEnd s) = false.
Proof.
  destruct s as [|c s]; [reflexivity|].
  rewrite gap_ahead_cons, trimEnd_cons. intros H.
  destruct (trimEnd s) as [|d r] eqn:E.
  - destruct (is_space c) eqn:Ec; [reflexivity|].
    rewrite gap_ahead_cons, Ec. reflexivity.
  - rewrite gap_ahead_cons, <- E, lt_next_trimEnd. exact H.
Qed.

Lemma no_gap_trimEnd (s : string) :
  no_gap s = true -> no_gap (trimEnd s) = true.
Proof.
  induction s as [|c s IH]; [reflexivity|]. intros H.
  cbn [no_gap] in H. apply andb_true_iff in H as [Hc Hs].
  specialize (IH Hs). rewrite trimEnd_cons.
  destruct (trimEnd s) as [|d r] eqn:E.
  - destruct (is_space c) eqn:Ec; [reflexivity|].
    cbn [no_gap]. unfold gap_ahead. cbn [ws_then_lt].
    now rewrite andb_false_r.
  - cbn [no_gap] in IH |- *. rewrite IH, andb_true_r.
    destruct (c =? ">")%char; [|reflexivity].
    cbn [andb negb] in Hc |- *. apply negb_true_iff in Hc.
    apply gap_ahead_trimEnd in Hc. rewrite E in Hc. now rewrite Hc.
Qed.

(** *** Runs of white space *)

Lemma visible_collapse (s : string) :
  forall b, visible (collapse b s) = visible s.
Proof.
  induction s as [|c s IH]; intros b; [reflexivity|].
  cbn [collapse visible]. destruct (is_space c) eqn:E.
  - destruct b; [apply IH|]. cbn [visible].
    rewrite space_is_space. apply IH.
  - cbn [visible]. now rewrite E, IH.
Qed.

Lemma collapse_length (s : string) :
  forall b, (String.length (collapse b s) <= String.length s)%nat.
Proof.
  induction s as [|c s IH]; intros b; [reflexivity|].
  cbn [collapse]. destruct (is_space c); [destruct b|];
    cbn [String.length];
    [specialize (IH true)|specialize (IH true)|specialize (IH false)]; lia.
Qed.

Lemma collapse_in_run_clean (s : string) :
  starts_clean (collapse true s) = true.
Proof.
  induction s as [|c s IH]; [reflexivity|].
  cbn [collapse]. destruct (is_space c) eqn:E; [exact IH|].
  cbn [starts_clean]. now rewrite E.
Qed.

Lemma collapse_single_spaced (s : string) :
  forall b, single_spaced (collapse b s) = true.
Proof.
  induction s as [|c s IH]; intros b; [reflexivity|].
  cbn [collapse]. destruct (is_space c) eqn:E.
  - destruct b; [apply IH|]. cbn [single_spaced].
    now rewrite space_is_space, collapse_in_run_clean, IH.
  - cbn [single_spaced]. now rewrite E, IH.
Qed.

Lemma collapse_fixed (s : string) :
  forall b,
    single_spaced s = true -> (b = true -> starts_clean s = true) ->
    collapse b s = s.
Proof.
  induction s as [|c s IH]; intros b H Hb; [reflexivity|].
  cbn [single_spaced] in H. apply andb_true_iff in H as [Hc Hs].
  cbn [collapse]. destruct (is_space c) eqn:E.
  - apply andb_true_iff in Hc as [Hc1 Hc2].
    apply Ascii.eqb_eq in Hc1 as ->.
    destruct b.
    + specialize (Hb eq_refl). cbn [starts_clean] in Hb.
      rewrite E in Hb. discriminate Hb.
    + f_equal. apply IH; [exact Hs|now intros _].
  - f_equal. apply IH; [exact Hs|discriminate].
Qed.

(** *** Gaps between tags *)

Lemma replace_gaps_cons (fuel : nat) (c : ascii) (s : string) :
  exists r, replace_gaps fuel (String c s) = String c r.
Proof.
  destruct fuel as [|fuel]; [now exists s|]. cbn [replace_gaps].
  destruct (Ascii.eqb_spec c ">") as [->|]; [|eauto].
  destruct (ws_then_lt s); eauto.
Qed.

Lemma replace_gaps_space (fuel : nat) (c : ascii) (s : string) :
  is_space c = true ->
  replace_gaps (S fuel) (String c s) = String c (replace_gaps fuel s).
Proof. intros E. cbn [replace_gaps]. now rewrite (space_not_gt c E). Qed.

Lemma replace_gaps_starts_clean (fuel : nat) (s : string) :
  starts_clean (replace_gaps fuel s) = starts_clean s.
Proof.
  destruct s as [|c s]; [now destruct fuel|].
  now destruct (replace_gaps_cons fuel c s) as [r ->].
Qed.

Lemma replace_gaps_lt_next (s : string) :
  forall fuel, lt_next (replace_gaps fuel s) = lt_next s.
Proof.
  induction s as [|c s IH]; intros fuel; [now destruct fuel|].
  destruct fuel as [|fuel]; [reflexivity|].
  destruct (is_space c) eqn:E.
  - rewrite (replace_gaps_space fuel c s E), !lt_next_space by exact E.
    apply IH.
  - destruct (replace_gaps_cons (S fuel) c s) as [r ->].
    now rewrite !lt_next_clean by exact E.
Qed.

Lemma replace_gaps_gap_ahead (fuel : nat) (s : string) :
  gap_ahead (replace_gaps fuel s) = gap_ahead s.
Proof.
  destruct s as [|c s]; [now destruct fuel|].
  destruct fuel as [|fuel]; [reflexivity|].
  destruct (is_space c) eqn:E.
  - rewrite (replace_gaps_space fuel c s E), !gap_ahead_cons.
    now rewrite replace_gaps_lt_next.
  - destruct (replace_gaps_cons (S fuel) c s) as [r ->].
    now rewrite !gap_ahead_cons, E.
Qed.

Lemma visible_replace_gaps (fuel : nat) :
  forall s, (String.length s <= fuel)%nat ->
            visible (replace_gaps fuel s) = visible s.
Proof.
  induction fuel as [|fuel IH]; intros s Hl; [reflexivity|].
  destruct s as [|c s]; [reflexivity|].
  cbn [String.length] in Hl. cbn [replace_gaps].
  destruct (c =? ">")%char eqn:Ec.
  - destruct (ws_then_lt s) as [tail|] eqn:Ew.
    + pose proof (ws_then_lt_length s tail Ew).
      apply Ascii.eqb_eq in Ec as ->.
      change (visible (String ">" (String "<" (replace_gaps fuel tail))))
        with (String ">" (String "<" (visible (replace_gaps fuel tail)))).
      change (visible (String ">" s)) with (String ">" (visible s)).
      rewrite (ws_then_lt_visible s tail Ew), IH by lia. reflexivity.
    + cbn [visible]. rewrite IH by lia. reflexivity.
  - cbn [visible]. rewrite IH by lia. reflexivity.
Qed.

Lemma replace_gaps_length (fuel : nat) :
  forall s, (String.length (replace_gaps fuel s) <= String.length s)%nat.
Proof.
  induction fuel as [|fuel IH]; intros s; [reflexivity|].
  destruct s as [|c s]; [reflexivity|]. cbn [replace_gaps].
  destruct (c =? ">")%char.
  - destruct (ws_then_lt s) as [tail|] eqn:Ew.
    + pose proof (ws_then_lt_length s tail Ew). specialize (IH tail).
      cbn [String.length]. lia.
    + specialize (IH s). cbn [String.length]. lia.
  - specialize (IH s). cbn [String.length]. lia.
Qed.

Lemma replace_gaps_single_spaced (fuel : nat) :
  forall s, single_spaced s = true ->
            single_spaced (replace_gaps fuel s) = true.
Proof.
  induction fuel as [|fuel IH]; intros s H; [exact H|].
  destruct s as [|c s]; [reflexivity|].
  pose proof H as H0.
  cbn [single_spaced] in H. apply andb_true_iff in H as [Hc Hs].
  cbn [replace_gaps].
  assert (Hcopy : single_spaced (String c (replace_gaps fuel s)) = true).
  { cbn [single_spaced].
    now rewrite replace_gaps_starts_clean, Hc, (IH s Hs). }
  destruct (c =? ">")%char; [|exact Hcopy].
  destruct (ws_then_lt s) as [tail|] eqn:Ew; [|exact Hcopy].
  destruct (ws_then_lt_inv s tail Ew) as (d & rest & -> & _ & Et).
  apply (single_spaced_tail d), single_spaced_trimStart in Hs.
  rewrite Et in Hs. apply single_spaced_tail in Hs.
  change (single_spaced (replace_gaps fuel tail) = true). now apply IH.
Qed.

Lemma replace_gaps_no_gap (fuel : nat) :
  forall s, (String.length s <= fuel)%nat ->
            no_gap (replace_gaps fuel s) = true.
Proof.
  induction fuel as [|fuel IH]; intros s Hl.
  - destruct s; [reflexivity|]. cbn [String.length] in Hl. lia.
  - destruct s as [|c s]; [reflexivity|].
    cbn [String.length] in Hl. cbn [replace_gaps].
    destruct (c =? ">")%char eqn:Ec.
    + destruct (ws_then_lt s) as [tail|] eqn:Ew.
      * pose proof (ws_then_lt_length s tail Ew).
        change (no_gap (replace_gaps fuel tail) = true). apply IH. lia.
      * cbn [no_gap]. rewrite Ec, replace_gaps_gap_ahead.
        unfold gap_ahead at 1. rewrite Ew. apply IH. lia.
    + cbn [no_gap]. rewrite Ec. apply IH. lia.
Qed.

Lemma replace_gaps_fixed (fuel : nat) :
  forall s, no_gap s = true -> replace_gaps fuel s = s.
Proof.
  induction fuel as [|fuel IH]; intros s H; [reflexivity|].
  destruct s as [|c s]; [reflexivity|].
  cbn [no_gap] in H. apply andb_true_iff in H as [Hc Hs].
  cbn [replace_gaps]. rewrite (IH s Hs).
  destruct (c =? ">")%char; [|reflexivity].
  unfold gap_ahead in Hc. now destruct (ws_then_lt s).
Qed.

(** More fuel than the length changes nothing. *)
Lemma replace_gaps_fuel (fuel : nat) :
  forall s fuel',
    (String.length s <= fuel)%nat -> (String.length s <= fuel')%nat ->
    replace_gaps fuel s = replace_gaps fuel' s.
Proof.
  induction fuel as [|fuel IH]; intros s fuel' H H'.
  - destruct s; [now destruct fuel'|]. cbn [String.length] in H. lia.
  - destruct s as [|c s]; [now destruct fuel'|].
    destruct fuel' as [|fuel']; cbn [String.length] in *; [lia|].
    cbn [replace_gaps]. destruct (c =? ">")%char.
    + destruct (ws_then_lt s) as [tail|] eqn:Ew.
      * pose proof (ws_then_lt_length s tail Ew).
        now rewrite (IH tail fuel') by lia.
      * now rewrite (IH s fuel') by lia.
    + now rewrite (IH s fuel') by lia.
Qed.

Lemma visible_empty (s : string) :
  visible s = EmptyString <-> all_space s = true.
Proof.
  induction s as [|c s IH]; [easy|].
  cbn [visible all_space]. destruct (is_space c); [exact IH|easy].
Qed.

Lemma all_space_trimStart (s : string) :
  all_space s = true -> trimStart s = EmptyString.
Proof.
  induction s as [|c s IH]; [reflexivity|].
  cbn [all_space trimStart]. destruct (is_space c); [exact IH|discriminate].
Qed.

Lemma compressContent_shape (content : string) :
  trim (compressContent content) = compressContent content
  /\ single_spaced (compressContent content) = true
  /\ no_gap (compressContent content) = true.
Proof.
  unfold compressContent. cbv zeta. split; [apply trim_idem|].
  unfold trim. split.
  - apply single_spaced_trimEnd, single_spaced_trimStart,
      replace_gaps_single_spaced, collapse_single_spaced.
  - apply no_gap_trimEnd, no_gap_trimStart, replace_gaps_no_gap.
    reflexivity.
Qed.

Lemma compressContent_fixed (r : string) :
  trim r = r -> single_spaced r = true -> no_gap r = true ->
  compressContent r = r.
Proof.
  intros Ht Hs Hg. unfold compressContent, replace_runs. cbv zeta.
  rewrite (collapse_fixed r false Hs) by discriminate.
  now rewrite (replace_gaps_fixed _ r Hg).
Qed.

End CompressFacts.

(** X20.  [compressContent] removes and rewrites white space only: the
    characters that are not white space come out unchanged and in the
    same order, the result is never longer than the content, and it is
    empty exactly when the content holds white space only. *)
Theorem compressContent_keeps_text (content : string) :
  Compress.visible (Compress.compressContent content)
  = Compress.visible content
  /\ (String.length (Compress.compressContent content)
      <= String.length content)%nat
  /\ (Compress.compressContent content = EmptyString
      <-> JSString.all_space content = true).
Proof.
  assert (Hv : Compress.visible (Compress.compressContent content)
               = Compress.visible content).
  { unfold Compress.compressContent, JSString.trim. cbv zeta.
    rewrite CompressFacts.visible_trimEnd, CompressFacts.visible_trimStart.
    rewrite CompressFacts.visible_replace_gaps by reflexivity.
    apply CompressFacts.visible_collapse. }
  split; [exact Hv|]. split.
  - unfold Compress.compressContent, JSString.trim. cbv zeta.
    etransitivity; [apply CompressFacts.trimEnd_length|].
    etransitivity; [apply CompressFacts.trimStart_length|].
    etransitivity; [apply CompressFacts.replace_gaps_length|].
    apply CompressFacts.collapse_length.
  - rewrite <- CompressFacts.visible_empty, <- Hv. split.
    + now intros ->.
    + intros He. apply CompressFacts.visible_empty in He.
      destruct (CompressFacts.compressContent_shape content) as (Ht & _).
      rewrite <- Ht. unfold JSString.trim.
      now rewrite (CompressFacts.all_space_trimStart _ He).
Qed.

Lemma compressContent_keeps_text_witness :
  Compress.compressContent "   " = EmptyString.
Proof.
  apply (proj2 (proj2 (proj2 (compressContent_keeps_text "   ")))).
  reflexivity.
Defined.

(** X21.  The result of [compressContent] has no white space at either
    end, its only white-space characters are single spaces, each followed
    by a character that is not white space, and no [>] is separated from
    a following [<] by white space only.  Compressing it again changes
    nothing. *)
Theorem compressContent_idempotent (content : string) :
  let r := Compress.compressContent content in
  JSString.trim r = r
  /\ Compress.single_spaced r = true
  /\ Compress.no_gap r = true
  /\ Compress.compressContent r = r.
Proof.
  cbv zeta.
  destruct (CompressFacts.compressContent_shape content) as (Ht & Hs & Hg).
  repeat split; try assumption.
  now apply CompressFacts.compressContent_fixed.
Qed.

(** X22.  The texts that [compressContent] leaves as they are, are
    exactly those in that form: trimmed, singly spaced, and without
    white space between [>] and [<]. *)
Theorem compressContent_fixed_points (r : string) :
  Compress.compressContent r = r
  <-> JSString.trim r = r
      /\ Compress.single_spaced r = true
      /\ Compress.no_gap r = true.
Proof.
  split.
  - intros E. rewrite <- E. apply CompressFacts.compressContent_shape.
  - intros (Ht & Hs & Hg). now apply CompressFacts.compressContent_fixed.
Qed.

Lemma compressContent_fixed_points_witness :
  Compress.compressContent "<p>a b</p><p>c</p>" = "<p>a b</p><p>c</p>"%string.
Proof.
  apply (proj2 (compressContent_fixed_points "<p>a b</p><p>c</p>")).
  repeat split; vm_compute; reflexivity.
Defined.

Module TaskOrderFacts.

Import TaskOrder.

Section TaskFacts.

Context {T : Type} (id : T -> string).

Implicit Types (m : list (string * T)) (k : string) (v : T).

Lemma mem_In k (l : list string) : mem k l = true <-> In k l.
Proof.
  unfold mem. rewrite existsb_exists. split.
  - intros (x & Hx & E). apply String.eqb_eq in E. now subst.
  - intros H. exists k. split; [exact H|apply String.eqb_refl].
Qed.

Lemma mem_not_In k (l : list string) : mem k l = false <-> ~ In k l.
Proof.
  rewrite <- mem_In. destruct (mem k l); split; congruence.
Qed.

Lemma map_set_In k v m (e : string * T) :
  List.NoDup (map_keys m) ->
  In e (map_set k v m) <-> e = (k, v) \/ (In e m /\ fst e <> k).
Proof.
  induction m as [|[k' v'] m IH]; intros Hnd.
  - cbn. split; [intros [<-|[]]; now left|intros [->|[[] _]]; now left].
  - cbn [map_keys map fst] in Hnd.
    apply List.NoDup_cons_iff in Hnd as [Hk Hnd].
    cbn [map_set]. destruct (String.eqb_spec k' k) as [->|Hne].
    + cbn [In]. split.
      * intros [<-|H]; [now left|]. right. split; [now right|].
        intros E. apply Hk. rewrite <- E. now apply in_map.
      * intros [->|[[<-|H] Hf]]; [now left|now cbn in Hf|now right].
    + cbn [In]. rewrite (IH Hnd). split.
      * intros [<-|[->|[H Hf]]]; [right|now left|right]; split; auto.
      * intros [->|[[<-|H] Hf]]; auto.
Qed.

Lemma map_set_keys_In k v m k0 :
  In k0 (map_keys (map_set k v m)) <-> k0 = k \/ In k0 (map_keys m).
Proof.
  induction m as [|[k' v'] m IH].
  - cbn. intuition.
  - cbn [map_set]. destruct (String.eqb_spec k' k) as [->|Hne].
    + cbn. intuition.
    + cbn [map_keys map fst In] in *. rewrite IH. intuition.
Qed.

Lemma map_set_NoDup k v m :
  List.NoDup (map_keys m) -> List.NoDup (map_keys (map_set k v m)).
Proof.
  induction m as [|[k' v'] m IH]; intros Hnd.
  - cbn. constructor; [easy|constructor].
  - cbn [map_keys map] in Hnd. apply List.NoDup_cons_iff in Hnd as [Hk Hnd].
    cbn [map_set]. destruct (String.eqb_spec k' k) as [->|Hne].
    + cbn. now constructor.
    + cbn [map_keys map fst]. constructor; [|now apply IH].
      intros H. apply map_set_keys_In in H as [->|H]; [easy|].
      now apply Hk.
Qed.

Lemma map_set_keyed k v m :
  keyed_by_id id m -> id v = k -> keyed_by_id id (map_set k v m).
Proof.
  intros Hm Hv. induction m as [|[k' v'] m IH].
  - cbn. now repeat constructor.
  - apply List.Forall_cons_iff in Hm as [He Hm]. cbn [map_set].
    destruct (String.eqb k' k); constructor; auto. exact (IH Hm).
Qed.

Lemma map_set_fresh k v m :
  ~ In k (map_keys m) -> map_set k v m = m ++ [(k, v)].
Proof.
  induction m as [|[k' v'] m IH]; intros Hk; [reflexivity|].
  cbn [map_set]. destruct (String.eqb_spec k' k) as [->|Hne].
  - exfalso. apply Hk. now left.
  - cbn. f_equal. apply IH. intros H. apply Hk. now right.
Qed.

Lemma fold_set_distinct (entries : list (string * T)) :
  forall m,
    List.NoDup (map_keys m ++ map fst entries) ->
    fold_left set_entry entries m = m ++ entries.
Proof.
  induction entries as [|[k v] entries IH]; intros m Hnd.
  - now rewrite app_nil_r.
  - cbn [fold_left map fst] in *. unfold set_entry at 2. cbn [fst snd].
    rewrite map_set_fresh.
    + rewrite IH.
      * now rewrite <- app_assoc.
      * unfold map_keys. rewrite map_app. cbn [map fst].
        now rewrite <- app_assoc.
    + apply List.NoDup_remove_2 in Hnd. intros H. apply Hnd.
      apply in_or_app. now left.
Qed.

Lemma fold_set_invariants (entries : list (string * T)) :
  forall m,
    List.NoDup (map_keys m) -> keyed_by_id id m ->
    List.Forall (fun e => id (snd e) = fst e) entries ->
    List.NoDup (map_keys (fold_left set_entry entries m))
    /\ keyed_by_id id (fold_left set_entry entries m).
Proof.
  induction entries as [|[k v] entries IH]; intros m Hnd Hk He; [easy|].
  apply List.Forall_cons_iff in He as [Hkv He]. cbn [fold_left].
  apply IH; [now apply map_set_NoDup| |exact He].
  now apply map_set_keyed.
Qed.

(** After [new Map(entries)] an entry is in the map exactly when it is
    the last one of [entries] with its key. *)
Lemma fold_set_In (entries : list (string * T)) :
  forall m (e : string * T),
    List.NoDup (map_keys m) ->
    In e (fold_left set_entry entries m)
    <-> (exists l1 l2, entries = l1 ++ e :: l2 /\ ~ In (fst e) (map fst l2))
        \/ (In e m /\ ~ In (fst e) (map fst entries)).
Proof.
  induction entries as [|[k v] entries IH]; intros m e Hnd.
  - cbn. split.
    + intros H. right. now split.
    + intros [(l1 & l2 & E & _)|[H _]]; [now destruct l1|exact H].
  - cbn [fold_left]. rewrite IH by now apply map_set_NoDup.
    unfold set_entry. cbn [fst snd]. rewrite map_set_In by exact Hnd.
    cbn [map fst In]. split.
    + intros [(l1 & l2 & -> & Hl)|[[->|[H Hf]] Hl]].
      * left. now exists ((k, v) :: l1), l2.
      * left. now exists [], entries.
      * right. split; [exact H|]. intros [E|E]; [now symmetry in E|easy].
    + intros [(l1 & l2 & E & Hl)|[H Hl]].
      * destruct l1 as [|x l1]; cbn in E; injection E as <- ->.
        -- right. split; [now left|exact Hl].
        -- left. now exists l1, l2.
      * right. split; [|tauto]. right. split; [exact H|].
        intros E. apply Hl. now left.
Qed.

Lemma map_get_In k m v : map_get k m = Some v -> In (k, v) m.
Proof.
  induction m as [|[k' v'] m IH]; [discriminate|]. cbn [map_get].
  destruct (String.eqb_spec k' k) as [->|Hne].
  - intros [= ->]. now left.
  - intros H. right. now apply IH.
Qed.

Lemma map_get_None k m : map_get k m = None <-> ~ In k (map_keys m).
Proof.
  induction m as [|[k' v'] m IH]; [easy|]. cbn [map_get map_keys map fst In].
  destruct (String.eqb_spec k' k) as [->|Hne].
  - split; [discriminate|]. intros H. exfalso. apply H. now left.
  - fold (map_keys m). rewrite IH. tauto.
Qed.

Lemma map_delete_keys k m :
  map_keys (map_delete k m)
  = List.filter (fun k' => negb (String.eqb k' k)) (map_keys m).
Proof.
  induction m as [|[k' v'] m IH]; [reflexivity|].
  cbn [map_delete List.filter map_keys map fst].
  destruct (String.eqb k' k); cbn [negb map fst]; [exact IH|].
  f_equal. exact IH.
Qed.

Lemma map_delete_absent k m :
  ~ In k (map_keys m) -> map_delete k m = m.
Proof.
  induction m as [|[k' v'] m IH]; intros Hk; [reflexivity|].
  cbn [map_delete List.filter fst].
  destruct (String.eqb_spec k' k) as [->|Hne].
  - exfalso. apply Hk. now left.
  - cbn [negb]. f_equal. apply IH. intros H. apply Hk. now right.
Qed.

Lemma map_delete_NoDup k m :
  List.NoDup (map_keys m) -> List.NoDup (map_keys (map_delete k m)).
Proof. intros H. rewrite map_delete_keys. now apply List.NoDup_filter. Qed.

Lemma map_delete_keyed k m :
  keyed_by_id id m -> keyed_by_id id (map_delete k m).
Proof.
  unfold keyed_by_id, map_delete. rewrite !List.Forall_forall.
  intros H e He. apply List.filter_In in He as [He _]. now apply H.
Qed.

(** Deleting a key takes its one value out of the map. *)
Lemma map_delete_values k m v :
  List.NoDup (map_keys m) -> map_get k m = Some v ->
  Permutation (v :: map_values (map_delete k m)) (map_values m).
Proof.
  induction m as [|[k' v'] m IH]; intros Hnd Hg; [discriminate|].
  cbn [map_keys map fst] in Hnd.
  apply List.NoDup_cons_iff in Hnd as [Hk Hnd].
  cbn [map_get] in Hg. cbn [map_delete List.filter fst].
  destruct (String.eqb_spec k' k) as [->|Hne].
  - injection Hg as ->. cbn [negb].
    fold (map_delete k m). now rewrite (map_delete_absent k m Hk).
  - cbn [negb map_values map snd]. fold (map_delete k m).
    etransitivity; [apply perm_swap|]. apply perm_skip.
    now apply IH.
Qed.

(** The first loop moves values from the map to the list. *)
Lemma in_saved_order_perm (savedOrder : list string) :
  forall acc m,
    List.NoDup (map_keys m) ->
    Permutation
      (fst (in_saved_order savedOrder acc m)
       ++ map_values (snd (in_saved_order savedOrder acc m)))
      (acc ++ map_values m).
Proof.
  induction savedOrder as [|k o IH]; intros acc m Hnd; [reflexivity|].
  cbn [in_saved_order]. destruct (map_get k m) as [v|] eqn:Hg.
  - rewrite IH by now apply map_delete_NoDup.
    rewrite <- app_assoc. apply Permutation_app_head. cbn [app].
    now apply map_delete_values.
  - now apply IH.
Qed.

(** With saved ids that do not repeat, the first loop picks the tasks of
    the saved ids that are in the map, in the saved order, and leaves the
    other entries as they were. *)
Lemma in_saved_order_shape (savedOrder : list string) :
  forall acc m,
    List.NoDup savedOrder -> keyed_by_id id m ->
    exists picks,
      fst (in_saved_order savedOrder acc m) = acc ++ picks
      /\ map id picks
         = List.filter (fun k => mem k (map_keys m)) savedOrder
      /\ snd (in_saved_order savedOrder acc m)
         = List.filter (fun e => negb (mem (fst e) savedOrder)) m.
Proof.
  induction savedOrder as [|k o IH]; intros acc m Hnd Hk.
  - exists []. cbn. rewrite app_nil_r. split; [reflexivity|].
    split; [reflexivity|].
    induction m as [|e m IHm]; [reflexivity|]. cbn. f_equal.
    apply IHm. now apply List.Forall_cons_iff in Hk.
  - apply List.NoDup_cons_iff in Hnd as [Hko Hnd].
    cbn [in_saved_order List.filter].
    assert (Hrest : forall m',
      List.filter (fun e => negb (mem (fst e) o)) (map_delete k m')
      = List.filter (fun e => negb (mem (fst e) (k :: o))) m').
    { intros m'. unfold map_delete.
      induction m' as [|e m' IHm]; [reflexivity|].
      cbn [List.filter mem existsb]. fold (mem (fst e) o).
      rewrite (String.eqb_sym (fst e) k).
      destruct (String.eqb k (fst e)); cbn [negb orb]; [exact IHm|].
      cbn [List.filter]. destruct (negb (mem (fst e) o)); [f_equal|];
        exact IHm. }
    destruct (map_get k m) as [v|] eqn:Hg.
    + destruct (IH (acc ++ [v]) (map_delete k m) Hnd
                  (map_delete_keyed k m Hk)) as (picks & E1 & E2 & E3).
      exists (v :: picks). rewrite E1, E3, <- app_assoc.
      split; [reflexivity|]. split; [|apply Hrest].
      apply map_get_In in Hg.
      assert (Hin : mem k (map_keys m) = true).
      { apply mem_In. now apply (in_map fst) in Hg. }
      rewrite Hin. cbn [map]. f_equal.
      * unfold keyed_by_id in Hk. rewrite List.Forall_forall in Hk.
        exact (Hk _ Hg).
      * rewrite E2. apply List.filter_ext_in. intros k' Hk'.
        rewrite map_delete_keys.
        destruct (mem k' (map_keys m)) eqn:Em.
        -- apply mem_In, List.filter_In. apply mem_In in Em.
           split; [exact Em|]. apply negb_true_iff, String.eqb_neq.
           now intros ->.
        -- apply mem_not_In. apply mem_not_In in Em. intros H.
           now apply List.filter_In in H.
    + destruct (IH acc m Hnd Hk) as (picks & E1 & E2 & E3).
      exists picks. rewrite E1, E3. split; [reflexivity|].
      apply map_get_None in Hg.
      assert (Hin : mem k (map_keys m) = false) by now apply mem_not_In.
      rewrite Hin. split; [exact E2|].
      rewrite <- Hrest. now rewrite (map_delete_absent k m Hg).
Qed.

Lemma entries_keyed (tasks : list T) :
  List.Forall (fun e => id (snd e) = fst e) (map (entry id) tasks).
Proof. apply List.Forall_forall. intros e He. apply in_map_iff in He as (t & <- & _). reflexivity. Qed.

Lemma entries_keys (tasks : list T) : map fst (map (entry id) tasks) = map id tasks.
Proof. rewrite map_map. reflexivity. Qed.

Lemma entries_values (tasks : list T) : map snd (map (entry id) tasks) = tasks.
Proof. rewrite map_map. apply map_id. Qed.

Lemma new_Map_invariants (tasks : list T) :
  List.NoDup (map_keys (new_Map (map (entry id) tasks)))
  /\ keyed_by_id id (new_Map (map (entry id) tasks)).
Proof.
  apply (fold_set_invariants (map (entry id) tasks) []);
    [constructor|constructor|apply entries_keyed].
Qed.

Lemma new_Map_distinct (tasks : list T) :
  List.NoDup (map id tasks) -> new_Map (map (entry id) tasks) = map (entry id) tasks.
Proof.
  intros Hnd. unfold new_Map.
  change (fold_left set_entry (map (entry id) tasks) [] = map (entry id) tasks).
  rewrite fold_set_distinct; [reflexivity|].
  cbn [map_keys map app]. now rewrite entries_keys.
Qed.

Lemma new_Map_values (tasks : list T) (t : T) :
  In t (map_values (new_Map (map (entry id) tasks))) <-> last_with_id id t tasks.
Proof.
  destruct (new_Map_invariants tasks) as [Hnd Hk].
  unfold map_values. rewrite in_map_iff. split.
  - intros ([k v] & <- & He). cbn [snd].
    assert (Ek : k = id v).
    { unfold keyed_by_id in Hk. rewrite List.Forall_forall in Hk.
      symmetry. exact (Hk _ He). }
    subst k.
    apply (fold_set_In (map (entry id) tasks) [] (id v, v)) in He;
      [|constructor].
    destruct He as [(l1 & l2 & E & Hl)|[[] _]].
    apply map_eq_app in E as (t1 & t2' & -> & <- & E).
    apply map_eq_cons in E as (t0 & t2 & -> & E0 & <-).
    injection E0 as _ ->. exists t1, t2. split; [reflexivity|].
    now rewrite entries_keys in Hl.
  - intros (l1 & l2 & -> & Hl). exists ((entry id) t). split; [reflexivity|].
    apply (fold_set_In (map (entry id) _) [] ((entry id) t)); [constructor|].
    left. exists (map (entry id) l1), (map (entry id) l2).
    split; [now rewrite map_app|].
    now rewrite entries_keys.
Qed.

Lemma applyTaskOrder_unfold (getSectionOrder : string -> list string)
  (tasks : list T) (sectionId : string) :
  getSectionOrder sectionId <> [] ->
  applyTaskOrder id getSectionOrder tasks sectionId
  = fst (in_saved_order (getSectionOrder sectionId) []
           (new_Map (map (entry id) tasks)))
    ++ map_values (snd (in_saved_order (getSectionOrder sectionId) []
                          (new_Map (map (entry id) tasks)))).
Proof.
  intros Hne. unfold applyTaskOrder. cbv zeta.
  destruct (getSectionOrder sectionId) as [|k o]; [congruence|].
  cbn [length Nat.eqb]. change (fun t : T => (id t, t)) with (entry id).
  now destruct (in_saved_order (k :: o) [] (new_Map (map (entry id) tasks))).
Qed.

Lemma applyTaskOrder_perm (getSectionOrder : string -> list string)
  (tasks : list T) (sectionId : string) :
  getSectionOrder sectionId <> [] ->
  Permutation (applyTaskOrder id getSectionOrder tasks sectionId)
    (map_values (new_Map (map (entry id) tasks))).
Proof.
  intros Hne. rewrite applyTaskOrder_unfold by exact Hne.
  destruct (new_Map_invariants tasks) as [Hnd _].
  now rewrite in_saved_order_perm.
Qed.

End TaskFacts.

End TaskOrderFacts.

(** X23.  When the ids of the tasks are distinct, [applyTaskOrder]
    returns the same tasks in another order: nothing is lost, added or
    repeated, whatever order is saved. *)
Theorem applyTaskOrder_permutes (T : Type) (id : T -> string)
  (getSectionOrder : string -> list string) (tasks : list T)
  (sectionId : string) :
  List.NoDup (map id tasks) ->
  Permutation (TaskOrder.applyTaskOrder id getSectionOrder tasks sectionId)
    tasks.
Proof.
  intros Hnd.
  destruct (getSectionOrder sectionId) as [|k o] eqn:E.
  - unfold TaskOrder.applyTaskOrder. now rewrite E.
  - rewrite (TaskOrderFacts.applyTaskOrder_perm id) by now rewrite E.
    rewrite (TaskOrderFacts.new_Map_distinct id tasks Hnd).
    unfold TaskOrder.map_values.
    now rewrite TaskOrderFacts.entries_values.
Qed.

Lemma applyTaskOrder_permutes_witness :
  Permutation
    (TaskOrder.applyTaskOrder TaskOrder.task_id
       (fun _ => ["c"; "a"; "x"; "c"]%string)
       [ {| TaskOrder.task_id := "a"; TaskOrder.title := "first" |};
         {| TaskOrder.task_id := "b"; TaskOrder.title := "second" |};
         {| TaskOrder.task_id := "c"; TaskOrder.title := "third" |} ]
       "today")
    [ {| TaskOrder.task_id := "a"; TaskOrder.title := "first" |};
      {| TaskOrder.task_id := "b"; TaskOrder.title := "second" |};
      {| TaskOrder.task_id := "c"; TaskOrder.title := "third" |} ].
Proof.
  apply (applyTaskOrder_permutes TaskOrder.Task TaskOrder.task_id).
  repeat constructor; cbn; intuition discriminate.
Defined.

(** X24.  When neither the ids of the tasks nor the saved ids repeat,
    [applyTaskOrder] returns first the tasks whose ids are saved, in the
    saved order, and then the tasks whose ids are not saved, in the order
    they had. *)
Theorem applyTaskOrder_saved_first (T : Type) (id : T -> string)
  (getSectionOrder : string -> list string) (tasks : list T)
  (sectionId : string) :
  List.NoDup (map id tasks) -> List.NoDup (getSectionOrder sectionId) ->
  exists picks,
    TaskOrder.applyTaskOrder id getSectionOrder tasks sectionId
    = picks
      ++ List.filter
           (fun t => negb (TaskOrder.mem (id t) (getSectionOrder sectionId)))
           tasks
    /\ map id picks
       = List.filter (fun k => TaskOrder.mem k (map id tasks))
           (getSectionOrder sectionId).
Proof.
  intros Hnd Hns.
  destruct (getSectionOrder sectionId) as [|k o] eqn:E.
  - exists []. unfold TaskOrder.applyTaskOrder. rewrite E.
    cbn [length Nat.eqb app List.filter map]. split; [|reflexivity].
    symmetry. clear. induction tasks as [|t tasks IH]; [reflexivity|].
    cbn. now f_equal.
  - assert (Hne : getSectionOrder sectionId <> []) by now rewrite E.
    rewrite (TaskOrderFacts.applyTaskOrder_unfold id _ _ _ Hne), E.
    rewrite (TaskOrderFacts.new_Map_distinct id tasks Hnd).
    destruct (TaskOrderFacts.in_saved_order_shape id (k :: o) []
                (map (TaskOrder.entry id) tasks) Hns
                (TaskOrderFacts.entries_keyed id tasks))
      as (picks & E1 & E2 & E3).
    exists picks. rewrite E1, E3. cbn [app]. split.
    + f_equal. unfold TaskOrder.map_values. clear.
      induction tasks as [|t tasks IH]; [reflexivity|].
      cbn [map List.filter TaskOrder.entry fst].
      destruct (negb (TaskOrder.mem (id t) (k :: o))); cbn [map snd];
        now rewrite IH.
    + rewrite E2. unfold TaskOrder.map_keys.
      now rewrite TaskOrderFacts.entries_keys.
Qed.

Lemma applyTaskOrder_saved_first_witness :
  exists picks,
    TaskOrder.applyTaskOrder TaskOrder.task_id
      (fun _ => ["c"; "x"; "a"]%string)
      [ {| TaskOrder.task_id := "a"; TaskOrder.title := "first" |};
        {| TaskOrder.task_id := "b"; TaskOrder.title := "second" |};
        {| TaskOrder.task_id := "c"; TaskOrder.title := "third" |} ]
      "today"
    = picks
      ++ List.filter
           (fun t => negb (TaskOrder.mem (TaskOrder.task_id t)
                             ["c"; "x"; "a"]%string))
           [ {| TaskOrder.task_id := "a"; TaskOrder.title := "first" |};
             {| TaskOrder.task_id := "b"; TaskOrder.title := "second" |};
             {| TaskOrder.task_id := "c"; TaskOrder.title := "third" |} ]
    /\ map TaskOrder.task_id picks
       = List.filter
           (fun k => TaskOrder.mem k
              (map TaskOrder.task_id
                 [ {| TaskOrder.task_id := "a"; TaskOrder.title := "first" |};
                   {| TaskOrder.task_id := "b"; TaskOrder.title := "second" |};
                   {| TaskOrder.task_id := "c"; TaskOrder.title := "third" |} ]))
           ["c"; "x"; "a"]%string.
Proof.
  apply (applyTaskOrder_saved_first TaskOrder.Task TaskOrder.task_id
           (fun _ => ["c"; "x"; "a"]%string));
    repeat constructor; cbn; intuition discriminate.
Defined.

(** X25.  Tasks that share an id survive only when no order is saved for
    the section: then [applyTaskOrder] returns the tasks as given.  With
    a saved order that is not empty, even one that names none of the
    tasks, the result holds one task per id, the last one of the list
    with that id. *)
Theorem applyTaskOrder_merges_equal_ids (T : Type) (id : T -> string)
  (getSectionOrder : string -> list string) (tasks : list T)
  (sectionId : string) :
  (getSectionOrder sectionId = [] ->
   TaskOrder.applyTaskOrder id getSectionOrder tasks sectionId = tasks)
  /\ (getSectionOrder sectionId <> [] ->
      List.NoDup
        (map id (TaskOrder.applyTaskOrder id getSectionOrder tasks sectionId))
      /\ forall t,
           In t (TaskOrder.applyTaskOrder id getSectionOrder tasks sectionId)
           <-> TaskOrder.last_with_id id t tasks).
Proof.
  split.
  - intros E. unfold TaskOrder.applyTaskOrder. now rewrite E.
  - intros Hne.
    pose proof (TaskOrderFacts.applyTaskOrder_perm id getSectionOrder tasks
                  sectionId Hne) as Hp.
    destruct (TaskOrderFacts.new_Map_invariants id tasks) as [Hnd Hk].
    split.
    + apply (Permutation_NoDup
               (l := TaskOrder.map_keys
                       (TaskOrder.new_Map (map (TaskOrder.entry id) tasks))));
        [|exact Hnd].
      etransitivity; [|apply Permutation_map, Permutation_sym, Hp].
      unfold TaskOrder.map_keys, TaskOrder.map_values.
      rewrite map_map. apply Permutation_refl'.
      apply map_ext_in. intros e He.
      unfold TaskOrder.keyed_by_id in Hk.
      rewrite List.Forall_forall in Hk. symmetry. exact (Hk e He).
    + intros t. rewrite <- TaskOrderFacts.new_Map_values. split.
      * apply Permutation_in, Hp.
      * apply Permutation_in, Permutation_sym, Hp.
Qed.

Lemma applyTaskOrder_merges_equal_ids_witness :
  List.NoDup
    (map TaskOrder.task_id
       (TaskOrder.applyTaskOrder TaskOrder.task_id (fun _ => ["zzz"%string])
          [ {| TaskOrder.task_id := "a"; TaskOrder.title := "first" |};
            {| TaskOrder.task_id := "a"; TaskOrder.title := "second" |} ]
          "today"))
  /\ forall t,
       In t
         (TaskOrder.applyTaskOrder TaskOrder.task_id (fun _ => ["zzz"%string])
            [ {| TaskOrder.task_id := "a"; TaskOrder.title := "first" |};
              {| TaskOrder.task_id := "a"; TaskOrder.title := "second" |} ]
            "today")
       <-> TaskOrder.last_with_id TaskOrder.task_id t
             [ {| TaskOrder.task_id := "a"; TaskOrder.title := "first" |};
               {| TaskOrder.task_id := "a"; TaskOrder.title := "second" |} ].
Proof.
  apply (proj2 (applyTaskOrder_merges_equal_ids TaskOrder.Task
                  TaskOrder.task_id (fun _ => ["zzz"%string])
                  [ {| TaskOrder.task_id := "a"; TaskOrder.title := "first" |};
                    {| TaskOrder.task_id := "a"; TaskOrder.title := "second" |} ]
                  "today")).
  discriminate.
Defined.

Module MasonryFacts.

Import Masonry.

Section ColumnFacts.

Context {Note : Type}.

Implicit Types (notes l : list Note).

Lemma parity_succ (n : nat) :
  Nat.eqb (S n mod 2) 0 = negb (Nat.eqb (n mod 2) 0).
Proof.
  assert (H : forall k, S (S k) mod 2 = k mod 2).
  { intros k. replace (S (S k)) with (k + 1 * 2) by lia.
    apply Nat.Div0.mod_add. }
  assert (P : Nat.eqb (n mod 2) 0 = negb (Nat.eqb (S n mod 2) 0)
              /\ Nat.eqb (S n mod 2) 0 = negb (Nat.eqb (n mod 2) 0)).
  { induction n as [|n [IH1 IH2]]; [split; reflexivity|].
    rewrite H. split; [exact IH2|exact IH1]. }
  apply P.
Qed.

Lemma split_columns_every_other notes :
  forall index leftColumn rightColumn,
    split_columns index notes leftColumn rightColumn
    = (leftColumn ++ every_other (Nat.eqb (index mod 2) 0) notes,
       rightColumn ++ every_other (negb (Nat.eqb (index mod 2) 0)) notes).
Proof.
  induction notes as [|note rest IH]; intros index L R.
  - cbn. now rewrite !app_nil_r.
  - cbn [split_columns every_other]. rewrite !IH.
    pose proof (parity_succ index) as E.
    rewrite E, negb_involutive.
    destruct (Nat.eqb (index mod 2) 0); cbn [negb];
      now rewrite <- app_assoc.
Qed.

Lemma every_other_nth l :
  forall i,
    nth_error (every_other true l) i = nth_error l (2 * i)
    /\ nth_error (every_other false l) i = nth_error l (2 * i + 1).
Proof.
  induction l as [|x rest IH]; intros i.
  - cbn [every_other]. now rewrite !nth_error_nil.
  - cbn [every_other]. split.
    + destruct i as [|i]; [reflexivity|].
      replace (2 * S i) with (S (2 * i + 1)) by lia. cbn [nth_error].
      apply IH.
    + replace (2 * i + 1) with (S (2 * i)) by lia. cbn [nth_error].
      apply IH.
Qed.

Lemma every_other_length l :
  length (every_other true l) = (length l + 1) / 2
  /\ length (every_other false l) = length l / 2.
Proof.
  induction l as [|x rest [IH1 IH2]]; [split; reflexivity|].
  cbn [every_other length]. rewrite IH1, IH2.
  generalize (length rest). intros n. split.
  - replace (S n + 1) with (n + 1 * 2) by lia.
    rewrite Nat.div_add by lia. lia.
  - now replace (n + 1) with (S n) by lia.
Qed.

End ColumnFacts.

Lemma append_length (s1 s2 : string) :
  String.length (s1 ++ s2) = (String.length s1 + String.length s2)%nat.
Proof.
  induction s1 as [|c s1 IH]; [reflexivity|].
  change (String c s1 ++ s2)%string with (String c (s1 ++ s2)).
  cbn [String.length]. now rewrite IH.
Qed.

End MasonryFacts.

(** X26.  The grid puts the notes with even index in the left column and
    those with odd index in the right one, each in the order of the list:
    note [i] of the left column is note [2i] of the list, note [i] of the
    right column is note [2i+1], and the left column has as many notes as
    the right one, or one more. *)
Theorem columns_alternate (Note : Type) (notes : list Note) (i : nat) :
  nth_error (fst (Masonry.columns notes)) i = nth_error notes (2 * i)
  /\ nth_error (snd (Masonry.columns notes)) i = nth_error notes (2 * i + 1)
  /\ length (fst (Masonry.columns notes)) = (length notes + 1) / 2
  /\ length (snd (Masonry.columns notes)) = length notes / 2.
Proof.
  unfold Masonry.columns. rewrite MasonryFacts.split_columns_every_other.
  change (Nat.eqb (0 mod 2) 0) with true. cbn [fst snd app negb].
  destruct (MasonryFacts.every_other_nth notes i) as [H1 H2].
  destruct (MasonryFacts.every_other_length notes) as [H3 H4].
  now rewrite H1, H2, H3, H4.
Qed.

(** X27.  A text that fits is returned as it is; a longer one is cut to
    at most [maxLength] characters, trimmed, and given three dots, so
    for [maxLength] from zero on the result has at most [maxLength + 3]
    characters. *)
Theorem truncateText_bound (text : string) (maxLength : Z) :
  (0 <= maxLength)%Z ->
  (Z.of_nat (String.length (Masonry.truncateText text maxLength))
   <= maxLength + 3)%Z
  /\ ((Z.of_nat (String.length text) <= maxLength)%Z ->
      Masonry.truncateText text maxLength = text)
  /\ ((maxLength < Z.of_nat (String.length text))%Z ->
      exists body,
        Masonry.truncateText text maxLength = (body ++ "...")%string
        /\ JSString.trim body = body
        /\ Compress.visible body
           = Compress.visible
               (String.substring 0 (Z.to_nat maxLength) text)).
Proof.
  intros H0. unfold Masonry.truncateText.
  assert (Hs : JS.slice text 0 maxLength
               = String.substring 0
                   (Z.to_nat (Z.min maxLength (Z.of_nat (String.length text))))
                   text).
  { unfold JS.slice, JS.rel_index. cbv zeta.
    destruct (Z.ltb_spec maxLength 0); [lia|]. cbn [Z.ltb Z.compare].
    rewrite (Z.min_l 0) by lia. cbn [Z.to_nat].
    now rewrite Z.sub_0_r, Z.max_l by lia. }
  destruct (Z.leb_spec (Z.of_nat (String.length text)) maxLength) as [Hle|Hgt].
  - split; [lia|]. split; [reflexivity|lia].
  - rewrite Hs, Z.min_l by lia. split; [|split; [lia|]].
    + rewrite MasonryFacts.append_length. cbn [String.length].
      pose proof (substring_length text 0 (Z.to_nat maxLength)).
      unfold JSString.trim.
      pose proof (CompressFacts.trimEnd_length
                    (JSString.trimStart
                       (String.substring 0 (Z.to_nat maxLength) text))).
      pose proof (CompressFacts.trimStart_length
                    (String.substring 0 (Z.to_nat maxLength) text)).
      lia.
    + intros _. eexists. split; [reflexivity|].
      split; [apply CompressFacts.trim_idem|].
      unfold JSString.trim.
      now rewrite CompressFacts.visible_trimEnd,
        CompressFacts.visible_trimStart.
Qed.

Lemma truncateText_bound_witness :
  (Z.of_nat (String.length (Masonry.truncateText "a note  with words" 8))
   <= 8 + 3)%Z.
Proof.
  apply (proj1 (truncateText_bound "a note  with words" 8 ltac:(lia))).
Defined.
